(** * The duplex audio engine of the voice tutor: a shallow embedding

    The development follows [services/geminiLiveService.ts] (class
    [GeminiLiveService]) and the part of [App.tsx] that drives the service and
    wires its callbacks ([handleTurnComplete], [toggleConnection],
    [handleMicToggle]); the transcript the App keeps ([cleanTranscriptText],
    the [onTranscript] callback, [clearChat]) is embedded apart, in [Chat].

    Conventions of the embedding.
    - Wall-clock time ([Date.now()]) is an integer number of milliseconds: [Z].
    - Audio samples, volumes and the playback clock ([currentTime], buffer
      durations, in seconds) are JavaScript numbers; they are modelled as exact
      rationals [Q], so rounding of IEEE doubles is abstracted.
    - Every handler of the class runs to completion before the next event is
      delivered (one logical timeline); the continuation after the [await] of
      [handleMessage] is run as part of the same step.
    - A handler is a state transformer over the [World] (the service object
      and the React state of the App) that also yields the list of observable
      effects it performed, in program order.
    - The calls on the session ([sendRealtimeInput], [close]) are made by
      callbacks of [sessionPromise.then]: in the list of a handler they stand
      where the handler hands them to the promise, and [executed] gives the
      order in which the effects of a step take place, by how the promise
      has settled. *)

From Stdlib Require Import ZArith QArith Bool List String Ascii Lia Lqa.
Import ListNotations.

Local Open Scope Z_scope.

(** ** Data model *)

(** [types.ts] *)
Inductive ConnectionState : Type :=
  | DISCONNECTED
  | CONNECTING
  | CONNECTED
  | ERROR.

(** The Web Audio and media objects held by the service.  Only the part of
    their state the service acts on is kept. *)
Inductive AudioContext : Type := Running | Closed.
Inductive MediaStream : Type := TracksLive | TracksStopped.
Inductive MediaStreamAudioSourceNode : Type := SourceConnected | SourceDisconnected.

Record ScriptProcessorNode : Type := mkProcessor {
  onaudioprocess_set : bool;   (* processor.onaudioprocess is a function, not null *)
  proc_connected : bool        (* processor is connected into the audio graph *)
}.

(** An [AudioBufferSourceNode] is identified by its allocation number. *)
Definition SourceId : Type := nat.

(** What [createPcmBlob] returns: a transport payload. *)
Record Blob : Type := mkBlob { blob_data : string; blob_mimeType : string }.

(** A decoded [AudioBuffer]; the scheduler reads its duration only. *)
Record AudioBuffer : Type := mkAudioBuffer { duration : Q }.

(** The private fields of [GeminiLiveService]. [sessionPromise] is kept as
    "non-null"; [sourcesCreated] counts the calls of [createBufferSource]. *)
Record Service : Type := mkService {
  sessionPromise : bool;
  inputAudioContext : option AudioContext;
  outputAudioContext : option AudioContext;
  mediaStream : option MediaStream;
  inputSource : option MediaStreamAudioSourceNode;
  processor : option ScriptProcessorNode;
  outputNode : bool;
  nextStartTime : Q;
  activeSources : list SourceId;
  isMicMuted : bool;
  lastSpeechTime : Z;
  hasSpokenSinceLastTurn : bool;
  sourcesCreated : nat
}.

(** Field initialisers of the class. *)
Definition new_GeminiLiveService : Service :=
  {| sessionPromise := false;
     inputAudioContext := None;
     outputAudioContext := None;
     mediaStream := None;
     inputSource := None;
     processor := None;
     outputNode := false;
     nextStartTime := 0%Q;
     activeSources := [];
     isMicMuted := false;
     lastSpeechTime := 0;
     hasSpokenSinceLastTurn := false;
     sourcesCreated := 0%nat |}.

(** The React state of [App] that the callbacks write. *)
Record App : Type := mkApp {
  connectionState : ConnectionState;
  isMicOn : bool;
  volume : Q;
  error : option string;
  serviceRef : bool            (* serviceRef.current is not null *)
}.

Definition initial_App : App :=
  {| connectionState := DISCONNECTED;
     isMicOn := false;
     volume := 0%Q;
     error := None;
     serviceRef := false |}.

Record World : Type := mkWorld { svc : Service; app : App }.

(** Observable effects, in the order the code performs them.  The two calls
    on the session, [SendRealtimeInput] and [SessionClose], are not made by a
    handler itself: the handler hands them to the session promise
    ([this.sessionPromise.then(session => ...)]), and they stand in its trace
    at the place where it does so.  [executed] below gives the order in which
    the effects of a step take place. *)
Inductive WhichContext : Type := InputCtx | OutputCtx.

Inductive Effect : Type :=
  | OnStateChange (s : ConnectionState)
  | OnTranscript (text : string) (isUser isFinal : bool)
  | OnError (msg : string)
  | OnVolumeUpdate (v : Q)
  | OnTurnComplete
  | SendRealtimeInput (media : Blob)
  | SessionClose
  | ProcessorDisconnect
  | InputSourceDisconnect
  | TrackStop
  | SourceStart (id : SourceId) (when : Q)
  | SourceStop (id : SourceId)
  | ContextClose (c : WhichContext)
  | ConsoleError (what : string)
  | ConsoleLog (what : string).

(** ** Field updates *)

Definition set_sessionPromise (v : bool) (s : Service) : Service :=
  mkService v (inputAudioContext s) (outputAudioContext s) (mediaStream s)
    (inputSource s) (processor s) (outputNode s) (nextStartTime s)
    (activeSources s) (isMicMuted s) (lastSpeechTime s)
    (hasSpokenSinceLastTurn s) (sourcesCreated s).

Definition set_inputAudioContext (v : option AudioContext) (s : Service) : Service :=
  mkService (sessionPromise s) v (outputAudioContext s) (mediaStream s)
    (inputSource s) (processor s) (outputNode s) (nextStartTime s)
    (activeSources s) (isMicMuted s) (lastSpeechTime s)
    (hasSpokenSinceLastTurn s) (sourcesCreated s).

Definition set_outputAudioContext (v : option AudioContext) (s : Service) : Service :=
  mkService (sessionPromise s) (inputAudioContext s) v (mediaStream s)
    (inputSource s) (processor s) (outputNode s) (nextStartTime s)
    (activeSources s) (isMicMuted s) (lastSpeechTime s)
    (hasSpokenSinceLastTurn s) (sourcesCreated s).

Definition set_mediaStream (v : option MediaStream) (s : Service) : Service :=
  mkService (sessionPromise s) (inputAudioContext s) (outputAudioContext s) v
    (inputSource s) (processor s) (outputNode s) (nextStartTime s)
    (activeSources s) (isMicMuted s) (lastSpeechTime s)
    (hasSpokenSinceLastTurn s) (sourcesCreated s).

Definition set_inputSource (v : option MediaStreamAudioSourceNode) (s : Service) : Service :=
  mkService (sessionPromise s) (inputAudioContext s) (outputAudioContext s)
    (mediaStream s) v (processor s) (outputNode s) (nextStartTime s)
    (activeSources s) (isMicMuted s) (lastSpeechTime s)
    (hasSpokenSinceLastTurn s) (sourcesCreated s).

Definition set_processor (v : option ScriptProcessorNode) (s : Service) : Service :=
  mkService (sessionPromise s) (inputAudioContext s) (outputAudioContext s)
    (mediaStream s) (inputSource s) v (outputNode s) (nextStartTime s)
    (activeSources s) (isMicMuted s) (lastSpeechTime s)
    (hasSpokenSinceLastTurn s) (sourcesCreated s).

Definition set_outputNode (v : bool) (s : Service) : Service :=
  mkService (sessionPromise s) (inputAudioContext s) (outputAudioContext s)
    (mediaStream s) (inputSource s) (processor s) v (nextStartTime s)
    (activeSources s) (isMicMuted s) (lastSpeechTime s)
    (hasSpokenSinceLastTurn s) (sourcesCreated s).

Definition set_nextStartTime (v : Q) (s : Service) : Service :=
  mkService (sessionPromise s) (inputAudioContext s) (outputAudioContext s)
    (mediaStream s) (inputSource s) (processor s) (outputNode s) v
    (activeSources s) (isMicMuted s) (lastSpeechTime s)
    (hasSpokenSinceLastTurn s) (sourcesCreated s).

Definition set_activeSources (v : list SourceId) (s : Service) : Service :=
  mkService (sessionPromise s) (inputAudioContext s) (outputAudioContext s)
    (mediaStream s) (inputSource s) (processor s) (outputNode s)
    (nextStartTime s) v (isMicMuted s) (lastSpeechTime s)
    (hasSpokenSinceLastTurn s) (sourcesCreated s).

Definition set_isMicMuted (v : bool) (s : Service) : Service :=
  mkService (sessionPromise s) (inputAudioContext s) (outputAudioContext s)
    (mediaStream s) (inputSource s) (processor s) (outputNode s)
    (nextStartTime s) (activeSources s) v (lastSpeechTime s)
    (hasSpokenSinceLastTurn s) (sourcesCreated s).

Definition set_lastSpeechTime (v : Z) (s : Service) : Service :=
  mkService (sessionPromise s) (inputAudioContext s) (outputAudioContext s)
    (mediaStream s) (inputSource s) (processor s) (outputNode s)
    (nextStartTime s) (activeSources s) (isMicMuted s) v
    (hasSpokenSinceLastTurn s) (sourcesCreated s).

Definition set_hasSpokenSinceLastTurn (v : bool) (s : Service) : Service :=
  mkService (sessionPromise s) (inputAudioContext s) (outputAudioContext s)
    (mediaStream s) (inputSource s) (processor s) (outputNode s)
    (nextStartTime s) (activeSources s) (isMicMuted s) (lastSpeechTime s)
    v (sourcesCreated s).

Definition set_sourcesCreated (v : nat) (s : Service) : Service :=
  mkService (sessionPromise s) (inputAudioContext s) (outputAudioContext s)
    (mediaStream s) (inputSource s) (processor s) (outputNode s)
    (nextStartTime s) (activeSources s) (isMicMuted s) (lastSpeechTime s)
    (hasSpokenSinceLastTurn s) v.

Definition set_connectionState (v : ConnectionState) (a : App) : App :=
  mkApp v (isMicOn a) (volume a) (error a) (serviceRef a).

Definition set_isMicOn (v : bool) (a : App) : App :=
  mkApp (connectionState a) v (volume a) (error a) (serviceRef a).

Definition set_volume (v : Q) (a : App) : App :=
  mkApp (connectionState a) (isMicOn a) v (error a) (serviceRef a).

Definition set_error (v : option string) (a : App) : App :=
  mkApp (connectionState a) (isMicOn a) (volume a) v (serviceRef a).

Definition set_serviceRef (v : bool) (a : App) : App :=
  mkApp (connectionState a) (isMicOn a) (volume a) (error a) v.

(** ** Handlers as state transformers with an effect trace *)

Definition M (A : Type) : Type := World -> A * World * list Effect.

Definition ret {A : Type} (x : A) : M A := fun w => (x, w, []).

Definition bind {A B : Type} (c : M A) (k : A -> M B) : M B :=
  fun w =>
    let '(x, w1, e1) := c w in
    let '(y, w2, e2) := k x w1 in
    (y, w2, e1 ++ e2).

Declare Scope handler_scope.
Delimit Scope handler_scope with handler.
Notation "x <- c ;; k" := (bind c (fun x => k))
  (at level 61, c at next level, right associativity) : handler_scope.
Notation "c ;; k" := (bind c (fun _ => k))
  (at level 61, right associativity) : handler_scope.
Local Open Scope handler_scope.

(** [this] reads the service object, [emit] performs one effect. *)
Definition this : M Service := fun w => (svc w, w, []).
Definition react : M App := fun w => (app w, w, []).
Definition emit (e : Effect) : M unit := fun w => (tt, w, [e]).
Definition assign (f : Service -> Service) : M unit :=
  fun w => (tt, mkWorld (f (svc w)) (app w), []).
Definition setState (f : App -> App) : M unit :=
  fun w => (tt, mkWorld (svc w) (f (app w)), []).
Definition when (b : bool) (c : M unit) : M unit := if b then c else ret tt.

(** [this.sessionPromise.then(session => job).catch(console.error)]: the job
    is handed to the session promise.  The promise runs it after the step
    has returned, and only if it fulfils. *)
Definition sessionPromise_then (job : Effect) : M unit := emit job.

Definition value {A : Type} (c : M A) (w : World) : A := fst (fst (c w)).
Definition run {A : Type} (c : M A) (w : World) : World := snd (fst (c w)).
Definition effects {A : Type} (c : M A) (w : World) : list Effect := snd (c w).

(** [this.activeSources.forEach(source => { try { source.stop(); } catch ... })] *)
Fixpoint stop_each (l : list SourceId) : M unit :=
  match l with
  | [] => ret tt
  | id :: l' => emit (SourceStop id) ;; stop_each l'
  end.

(** [Set.prototype.add] and [Set.prototype.delete] on an insertion-ordered set. *)
Definition Set_add (id : SourceId) (l : list SourceId) : list SourceId :=
  if existsb (Nat.eqb id) l then l else l ++ [id].

Definition Set_delete (id : SourceId) (l : list SourceId) : list SourceId :=
  filter (fun x => negb (Nat.eqb id x)) l.

(** JavaScript truthiness of a string ([x || fallback], [if (x)]). *)
Definition truthy (s : string) : bool :=
  match s with EmptyString => false | _ => true end.

Definition or_else (m : option string) (fallback : string) : string :=
  match m with
  | Some s => if truthy s then s else fallback
  | None => fallback
  end.

Definition Qlt_bool (x y : Q) : bool := negb (Qle_bool y x).

(** Constants of the service. *)
Definition INPUT_SAMPLE_RATE : Z := 16000.
Definition OUTPUT_SAMPLE_RATE : Z := 24000.
Definition BUFFER_SIZE : Z := 4096.
Definition SILENCE_THRESHOLD : Q := 1 # 100.
Definition SILENCE_DURATION_MS : Z := 2500.

(** [LiveServiceCallbacks]: the collaborator's callbacks; [onTurnComplete]
    is optional. *)
Record LiveServiceCallbacks : Type := mkCallbacks {
  onStateChange : ConnectionState -> M unit;
  onTranscript : string -> bool -> bool -> M unit;
  onError : string -> M unit;
  onVolumeUpdate : Q -> M unit;
  onTurnComplete : option (M unit)
}.

(** [LiveServerMessage], reduced to the five parts [handleMessage] reads:
    [serverContent?.inputTranscription], [serverContent?.outputTranscription]
    (their [text]), [serverContent?.turnComplete],
    [serverContent?.modelTurn?.parts?.[0]?.inlineData?.data] and
    [serverContent?.interrupted]. *)
Record LiveServerMessage : Type := mkMessage {
  inputTranscription : option string;
  outputTranscription : option string;
  turnComplete : bool;
  inlineData : option string;
  interrupted : bool
}.

(** The statements of the [try] block of [connect] that can throw, and how a
    call of [connect] ends. *)
Inductive ConnectStep : Type :=
  | NewInputContext
  | NewOutputContext
  | GetUserMedia
  | LiveConnect.

Inductive ConnectOutcome : Type :=
  | Connects
  | Throws (at_step : ConnectStep) (message : option string).

Definition step_index (t : ConnectStep) : nat :=
  match t with
  | NewInputContext => 0
  | NewOutputContext => 1
  | GetUserMedia => 2
  | LiveConnect => 3
  end.

(** [completes t o]: statement [t] of the [try] block runs to its end. *)
Definition completes (t : ConnectStep) (o : ConnectOutcome) : bool :=
  match o with
  | Connects => true
  | Throws t' _ => Nat.ltb (step_index t) (step_index t')
  end.

(** ** The service *)

(** Functions the service imports and whose source is not part of the
    development.  [createPcmBlob] (from [utils/audioUtils]) encodes a block
    for transport; [decodeAudioData] stands for the awaited expression
    [decodeAudioData(base64ToUint8Array(data), ...)], with [None] when it
    throws; [Math_sqrt] is [Math.sqrt] on the exact model of numbers. *)
Record Imports : Type := mkImports {
  createPcmBlob : list Q -> Blob;
  decodeAudioData : string -> option AudioBuffer;
  Math_sqrt : Q -> Q
}.

(** [muteMic] *)
Definition muteMic : M unit :=
  assign (set_isMicMuted true) ;;
  assign (set_hasSpokenSinceLastTurn false).

(** [unmuteMic]; [now] is the value of [Date.now()]. *)
Definition unmuteMic (now : Z) : M unit :=
  assign (set_isMicMuted false) ;;
  assign (set_lastSpeechTime now) ;;
  assign (set_hasSpokenSinceLastTurn false).

Section GeminiLiveService.

(** [this.callbacks] *)
Variable callbacks : LiveServiceCallbacks.

(** What the service imports. *)
Variable imports : Imports.

Definition call_onStateChange (st : ConnectionState) : M unit :=
  emit (OnStateChange st) ;; onStateChange callbacks st.

Definition call_onTranscript (text : string) (isUser isFinal : bool) : M unit :=
  emit (OnTranscript text isUser isFinal) ;;
  onTranscript callbacks text isUser isFinal.

Definition call_onError (msg : string) : M unit :=
  emit (OnError msg) ;; onError callbacks msg.

Definition call_onVolumeUpdate (v : Q) : M unit :=
  emit (OnVolumeUpdate v) ;; onVolumeUpdate callbacks v.

(** [disconnect] *)
Definition disconnect : M unit :=
  s <- this ;;
  when (sessionPromise s)
    (sessionPromise_then SessionClose ;; assign (set_sessionPromise false)) ;;
  match processor s with
  | Some _ =>
      emit ProcessorDisconnect ;;
      assign (set_processor (Some (mkProcessor false false)))
  | None => ret tt
  end ;;
  match inputSource s with
  | Some _ =>
      emit InputSourceDisconnect ;;
      assign (set_inputSource (Some SourceDisconnected))
  | None => ret tt
  end ;;
  match mediaStream s with
  | Some _ => emit TrackStop ;; assign (set_mediaStream (Some TracksStopped))
  | None => ret tt
  end ;;
  stop_each (activeSources s) ;;
  assign (set_activeSources []) ;;
  match inputAudioContext s with
  | Some _ =>
      emit (ContextClose InputCtx) ;;
      assign (set_inputAudioContext (Some Closed))
  | None => ret tt
  end ;;
  match outputAudioContext s with
  | Some _ =>
      emit (ContextClose OutputCtx) ;;
      assign (set_outputAudioContext (Some Closed))
  | None => ret tt
  end ;;
  call_onStateChange DISCONNECTED.

(** The first five statements of [connect]. *)
Definition connect_reset (now : Z) : M unit :=
  call_onStateChange CONNECTING ;;
  assign (set_nextStartTime 0%Q) ;;
  assign (set_isMicMuted false) ;;
  assign (set_lastSpeechTime now) ;;
  assign (set_hasSpokenSinceLastTurn false).

(** The [try ... catch] of [connect]. *)
Definition connect_acquire (o : ConnectOutcome) : M unit :=
  when (completes NewInputContext o)
    (assign (set_inputAudioContext (Some Running))) ;;
  when (completes NewOutputContext o)
    (assign (set_outputAudioContext (Some Running)) ;;
     assign (set_outputNode true)) ;;
  when (completes GetUserMedia o)
    (assign (set_mediaStream (Some TracksLive))) ;;
  when (completes LiveConnect o)
    (assign (set_sessionPromise true)) ;;
  match o with
  | Connects => ret tt
  | Throws _ message =>
      emit (ConsoleError "Connection failed:") ;;
      call_onError (or_else message "Failed to connect to microphone or API.") ;;
      call_onStateChange ERROR ;;
      disconnect
  end.

(** [connect] *)
Definition connect (now : Z) (o : ConnectOutcome) : M unit :=
  connect_reset now ;; connect_acquire o.

(** [startAudioStreaming], up to the registration of the block handler. *)
Definition startAudioStreaming : M unit :=
  s <- this ;;
  match inputAudioContext s, mediaStream s with
  | Some _, Some _ =>
      assign (set_inputSource (Some SourceConnected)) ;;
      assign (set_processor (Some (mkProcessor true true)))
  | _, _ => ret tt
  end.

(** [handleOpen] *)
Definition handleOpen : M unit :=
  call_onStateChange CONNECTED ;;
  startAudioStreaming.

(** The loop that sums the squares of the samples, and the RMS.  A block
    holds [BUFFER_SIZE] samples, so the length is not 0 (where JavaScript's
    quotient would be [NaN] and the model's is 0). *)
Definition sum_squares (inputData : list Q) : Q :=
  fold_left (fun sum x => (sum + x * x)%Q) inputData 0%Q.

Definition rms_of (inputData : list Q) : Q :=
  Math_sqrt imports (sum_squares inputData / inject_Z (Z.of_nat (List.length inputData)))%Q.

(** The silence detection of the block handler; the result tells whether
    the handler executed its [return] ("Stop processing this chunk"). *)
Definition silence_detection (rms : Q) (now : Z) : M bool :=
  if Qlt_bool SILENCE_THRESHOLD rms then
    assign (set_lastSpeechTime now) ;;
    assign (set_hasSpokenSinceLastTurn true) ;;
    ret false
  else
    s <- this ;;
    if hasSpokenSinceLastTurn s && (SILENCE_DURATION_MS <? now - lastSpeechTime s) then
      match onTurnComplete callbacks with
      | Some f => emit OnTurnComplete ;; f ;; ret true
      | None => ret false
      end
    else ret false.

(** [processor.onaudioprocess]; [inputData] is channel 0 of the block and
    [now] the value of [Date.now()] when the block is handled. *)
Definition onaudioprocess (inputData : list Q) (now : Z) : M unit :=
  s <- this ;;
  if isMicMuted s then call_onVolumeUpdate 0%Q
  else
    let rms := rms_of inputData in
    call_onVolumeUpdate rms ;;
    returned <- silence_detection rms now ;;
    if returned then ret tt
    else
      let pcmBlob := createPcmBlob imports inputData in
      s' <- this ;;
      when (sessionPromise s') (sessionPromise_then (SendRealtimeInput pcmBlob)).

(** The audio part of [handleMessage] once the payload is known to be
    truthy. *)
Definition schedule_audio (base64Audio : string) (currentTime : Q) : M unit :=
  s <- this ;;
  match outputAudioContext s with
  | Some _ =>
      if outputNode s then
        when (Qlt_bool (nextStartTime s) currentTime)
          (assign (set_nextStartTime currentTime)) ;;
        match decodeAudioData imports base64Audio with
        | Some audioBuffer =>
            s1 <- this ;;
            let source := sourcesCreated s1 in
            assign (set_sourcesCreated (S source)) ;;
            emit (SourceStart source (nextStartTime s1)) ;;
            assign (set_activeSources (Set_add source (activeSources s1))) ;;
            assign (set_nextStartTime (nextStartTime s1 + duration audioBuffer)%Q)
        | None => emit (ConsoleError "Error decoding audio")
        end
      else ret tt
  | None => ret tt
  end.

(** [handleMessage], part 1: transcriptions. *)
Definition forward_transcriptions (message : LiveServerMessage) : M unit :=
  match inputTranscription message with
  | Some text => call_onTranscript text true false
  | None => ret tt
  end ;;
  match outputTranscription message with
  | Some text => call_onTranscript text false false
  | None => ret tt
  end.

(** [handleMessage]: the remote turn-complete signal. *)
Definition forward_turn_complete (message : LiveServerMessage) : M unit :=
  when (turnComplete message)
    match onTurnComplete callbacks with
    | Some f => emit OnTurnComplete ;; f
    | None => ret tt
    end.

(** [handleMessage], part 2: audio output. *)
Definition handle_audio_output (message : LiveServerMessage) (currentTime : Q) : M unit :=
  match inlineData message with
  | Some base64Audio =>
      when (truthy base64Audio)
        (s <- this ;;
         match onTurnComplete callbacks with
         | Some f => when (negb (isMicMuted s)) (emit OnTurnComplete ;; f)
         | None => ret tt
         end ;;
         schedule_audio base64Audio currentTime)
  | None => ret tt
  end.

(** [handleMessage], part 3: interruptions. *)
Definition handle_interruption (message : LiveServerMessage) : M unit :=
  when (interrupted message)
    (s <- this ;;
     stop_each (activeSources s) ;;
     assign (set_activeSources []) ;;
     assign (set_nextStartTime 0%Q)).

(** [handleMessage]; [currentTime] is [outputAudioContext.currentTime]. *)
Definition handleMessage (message : LiveServerMessage) (currentTime : Q) : M unit :=
  forward_transcriptions message ;;
  forward_turn_complete message ;;
  handle_audio_output message currentTime ;;
  handle_interruption message.

(** The listener of a source's ['ended'] event. *)
Definition source_ended (source : SourceId) : M unit :=
  s <- this ;;
  assign (set_activeSources (Set_delete source (activeSources s))).

(** [handleError]; [message] is [(e as any).message]. *)
Definition handleError (message : option string) : M unit :=
  emit (ConsoleError "Gemini Live Error:") ;;
  call_onError (or_else message "Connection error occurred.") ;;
  disconnect.

(** [handleClose] *)
Definition handleClose : M unit :=
  emit (ConsoleLog "Gemini Live Closed") ;;
  call_onStateChange DISCONNECTED.

(** The browser delivers a block only to a registered handler of a
    connected processor. *)
Definition delivers_blocks (s : Service) : bool :=
  match processor s with
  | Some p => onaudioprocess_set p && proc_connected p
  | None => false
  end.

Definition deliver_block (inputData : list Q) (now : Z) : M unit :=
  s <- this ;;
  when (delivers_blocks s) (onaudioprocess inputData now).

End GeminiLiveService.

(** ** The App's wiring of the service ([App.tsx]) *)

(** [handleTurnComplete] *)
Definition handleTurnComplete : M unit :=
  a <- react ;;
  when (serviceRef a)
    (muteMic ;;
     setState (set_isMicOn false) ;;
     setState (set_volume 0%Q)).

Definition is_CONNECTED (st : ConnectionState) : bool :=
  match st with CONNECTED => true | _ => false end.

(** The callbacks object built in [toggleConnection].  The message list kept
    by [onTranscript] is presentation state and is not modelled: the call is
    recorded in the effect trace only. *)
Definition App_callbacks : LiveServiceCallbacks :=
  {| onStateChange := fun state =>
       setState (set_connectionState state) ;;
       when (is_CONNECTED state) (setState (set_isMicOn true));
     onTranscript := fun _ _ _ => ret tt;
     onError := fun msg => setState (set_error (Some msg));
     onVolumeUpdate := fun v => setState (set_volume v);
     onTurnComplete := Some handleTurnComplete |}.

(** [handleMicToggle] *)
Definition handleMicToggle (now : Z) : M unit :=
  a <- react ;;
  when (serviceRef a && is_CONNECTED (connectionState a))
    (if isMicOn a
     then muteMic ;; setState (set_isMicOn false)
     else unmuteMic now ;; setState (set_isMicOn true)).

(** [toggleConnection]; [new GeminiLiveService(...)] replaces the service
    object the App refers to. *)
Definition toggleConnection (now : Z) (o : ConnectOutcome) : M unit :=
  a <- react ;;
  match connectionState a with
  | DISCONNECTED | ERROR =>
      setState (set_error None) ;;
      assign (fun _ => new_GeminiLiveService) ;;
      setState (set_serviceRef true) ;;
      connect App_callbacks now o
  | _ =>
      when (serviceRef a) (disconnect App_callbacks) ;;
      setState (set_connectionState DISCONNECTED) ;;
      setState (set_volume 0%Q) ;;
      setState (set_isMicOn false)
  end.

Definition initial_World : World := mkWorld new_GeminiLiveService initial_App.

(** ** Runs: the events of the single timeline *)

Inductive Event : Type :=
  | ToggleConnection (now : Z) (o : ConnectOutcome)   (* the App's connect button *)
  | MicToggle (now : Z)                               (* the App's mic button *)
  | Connect (now : Z) (o : ConnectOutcome)            (* service.connect() *)
  | Disconnect                                        (* service.disconnect() *)
  | MuteMic                                           (* service.muteMic() *)
  | UnmuteMic (now : Z)                               (* service.unmuteMic() *)
  | Open                                              (* session onopen *)
  | Message (m : LiveServerMessage) (currentTime : Q) (* session onmessage *)
  | TransportError (message : option string)          (* session onerror *)
  | Close                                             (* session onclose *)
  | AudioProcess (inputData : list Q) (now : Z)       (* one captured block *)
  | SourceEnded (source : SourceId).                  (* a chunk finished playing *)

Section Runs.

Variable imports : Imports.

Definition handle (e : Event) : M unit :=
  match e with
  | ToggleConnection now o => toggleConnection now o
  | MicToggle now => handleMicToggle now
  | Connect now o => connect App_callbacks now o
  | Disconnect => disconnect App_callbacks
  | MuteMic => muteMic
  | UnmuteMic now => unmuteMic now
  | Open => handleOpen App_callbacks
  | Message m currentTime =>
      handleMessage App_callbacks imports m currentTime
  | TransportError message => handleError App_callbacks message
  | Close => handleClose App_callbacks
  | AudioProcess inputData now =>
      deliver_block App_callbacks imports inputData now
  | SourceEnded source => source_ended source
  end.

Fixpoint handle_all (es : list Event) : M unit :=
  match es with
  | [] => ret tt
  | e :: es' => handle e ;; handle_all es'
  end.

(** The effects each event of a run performed, event by event. *)
Fixpoint effects_per_event (es : list Event) (w : World) : list (Event * list Effect) :=
  match es with
  | [] => []
  | e :: es' => (e, effects (handle e) w) :: effects_per_event es' (run (handle e) w)
  end.

End Runs.

(** ** Observations on states and traces *)

(** A Capture Session: the live microphone device together with the
    registered block handler. *)
Definition capture_session_exists (s : Service) : bool :=
  match mediaStream s, processor s with
  | Some TracksLive, Some p => onaudioprocess_set p
  | _, _ => false
  end.

Definition is_OnTurnComplete (e : Effect) : bool :=
  match e with OnTurnComplete => true | _ => false end.

Definition is_SendRealtimeInput (e : Effect) : bool :=
  match e with SendRealtimeInput _ => true | _ => false end.

Definition is_OnError (e : Effect) : bool :=
  match e with OnError _ => true | _ => false end.

Definition is_OnStateChange (e : Effect) : bool :=
  match e with OnStateChange _ => true | _ => false end.

Definition count (p : Effect -> bool) (l : list Effect) : nat :=
  List.length (filter p l).

(** The start times passed to [source.start], in order. *)
Fixpoint start_times (l : list Effect) : list Q :=
  match l with
  | [] => []
  | SourceStart _ t :: l' => t :: start_times l'
  | _ :: l' => start_times l'
  end.

(** The sources passed to [source.start], in order. *)
Fixpoint started (l : list Effect) : list SourceId :=
  match l with
  | [] => []
  | SourceStart id _ :: l' => id :: started l'
  | _ :: l' => started l'
  end.

(** The sources passed to [source.stop], in order. *)
Fixpoint stopped (l : list Effect) : list SourceId :=
  match l with
  | [] => []
  | SourceStop id :: l' => id :: stopped l'
  | _ :: l' => stopped l'
  end.

Definition is_AudioProcess (e : Event) : bool :=
  match e with AudioProcess _ _ => true | _ => false end.

(** Turn-complete notifications raised by the silence detection during a
    run: those performed while handling captured blocks. *)
Fixpoint silence_turn_completes (per_event : list (Event * list Effect)) : nat :=
  match per_event with
  | [] => 0%nat
  | (e, effs) :: rest =>
      ((if is_AudioProcess e then count is_OnTurnComplete effs else 0)
       + silence_turn_completes rest)%nat
  end.

(** Events that clear the mute flag: an unmute command, the mic button and a
    (re)connection. *)
Definition may_unmute (e : Event) : bool :=
  match e with
  | UnmuteMic _ | MicToggle _ | Connect _ _ | ToggleConnection _ _ => true
  | _ => false
  end.

(** Full teardown as [disconnect] performs it: no session, no block handler,
    device released, nothing left to play, contexts closed. *)
Definition torn_down (s : Service) : Prop :=
  sessionPromise s = false /\
  capture_session_exists s = false /\
  delivers_blocks s = false /\
  mediaStream s <> Some TracksLive /\
  activeSources s = [] /\
  inputAudioContext s <> Some Running /\
  outputAudioContext s <> Some Running.

(** The calls on the session, which a handler hands to the session promise. *)
Definition is_session_job (e : Effect) : bool :=
  match e with
  | SendRealtimeInput _ | SessionClose => true
  | _ => false
  end.

(** How the session promise stands when a step that handed it jobs has
    returned. *)
Inductive Settlement : Type :=
  | Pending
  | Fulfilled
  | Rejected (reason : string).

(** What the session promise does with the jobs handed to it, once the step
    has returned: fulfilled, it runs them in the order handed over; rejected,
    it runs none and the [.catch(console.error)] behind each logs the reason;
    pending, it keeps them. *)
Definition settled (p : Settlement) (jobs : list Effect) : list Effect :=
  match p with
  | Pending => []
  | Fulfilled => jobs
  | Rejected reason => map (fun _ => ConsoleError reason) jobs
  end.

(** The effects of one step in the order they take place: first what the
    handler does itself, then what the session promise does with its jobs. *)
Definition executed (p : Settlement) (es : list Effect) : list Effect :=
  filter (fun e => negb (is_session_job e)) es ++
  settled p (filter is_session_job es).

(** The job [disconnect] hands to the session promise, if there is one. *)
Definition close_job (s : Service) : list Effect :=
  if sessionPromise s then [SessionClose] else [].

(** What a teardown does before it returns, read off [disconnect]: the
    processor and the input source are disconnected, the microphone track is
    stopped, every active source is stopped, both contexts are closed.  The
    close of the session is not among them: it is the [close_job]. *)
Definition teardown_effects (s : Service) : list Effect :=
  match processor s with Some _ => [ProcessorDisconnect] | None => [] end ++
  match inputSource s with Some _ => [InputSourceDisconnect] | None => [] end ++
  match mediaStream s with Some _ => [TrackStop] | None => [] end ++
  map SourceStop (activeSources s) ++
  match inputAudioContext s with Some _ => [ContextClose InputCtx] | None => [] end ++
  match outputAudioContext s with Some _ => [ContextClose OutputCtx] | None => [] end.

(** The output path of the scheduler is set up. *)
Definition output_ready (s : Service) : Prop :=
  outputAudioContext s <> None /\ outputNode s = true.

(** The session-owned resources of the service, as one tuple. *)
Definition resources (s : Service) :=
  (sessionPromise s, inputAudioContext s, outputAudioContext s, mediaStream s,
   inputSource s, processor s, outputNode s).

(** ** Sample instances of the imported utilities

    Concrete stand-ins for [createPcmBlob], [decodeAudioData] and [Math.sqrt],
    used to run the model on explicit inputs: a square root rounded down to
    four decimals, a constant payload, and a decoder that rejects payloads
    starting with ['!'] and otherwise gives a quarter of a second per
    character. *)
Definition sqrt_4dp (q : Q) : Q :=
  Z.sqrt (Qnum q * 100000000 / Zpos (Qden q)) # 10000.

Definition pcm_sample (inputData : list Q) : Blob :=
  mkBlob "UklGRg==" "audio/pcm;rate=16000".

Definition decode_sample (data : string) : option AudioBuffer :=
  match data with
  | String "!"%char _ => None
  | _ => Some (mkAudioBuffer (Z.of_nat (String.length data) # 4))
  end.

Definition sample_imports : Imports :=
  mkImports pcm_sample decode_sample sqrt_4dp.

Definition loud_samples : list Q := [(1 # 20)%Q; (-1 # 20)%Q].
Definition quiet_samples : list Q := [0%Q; (1 # 1000)%Q].

Definition audio_message (data : string) : LiveServerMessage :=
  mkMessage None None false (Some data) false.

Definition turn_complete_message : LiveServerMessage :=
  mkMessage None None true None false.

Definition interrupted_message : LiveServerMessage :=
  mkMessage None None false None true.

(** The App after a successful connection was opened. *)
Definition connected_World : World :=
  run (handle_all sample_imports
         [ToggleConnection 0 Connects; Open]) initial_World.

(** The connected App once the mic button has muted the gate. *)
Definition muted_World : World :=
  run (handle_all sample_imports
         [ToggleConnection 0 Connects; Open; MicToggle 10]) initial_World.

(** The connected App with two chunks scheduled. *)
Definition playing_World : World :=
  run (handle_all sample_imports
         [Message (audio_message "AAAA") (1 # 2); Message (audio_message "BB") 1])
    connected_World.

(** The connected App after a block of speech at time 1000. *)
Definition spoken_World : World :=
  run (handle_all sample_imports [AudioProcess loud_samples 1000]) connected_World.

Definition sample_chunks : list (LiveServerMessage * Q) :=
  [(audio_message "AAAA", 1 # 2); (audio_message "BB", 1%Q); (audio_message "CCCC", 3 # 2)].

(** ** Derived descriptions of the handlers' results *)

(** The cursor after the catch-up of [handleMessage]:
    [if (nextStartTime < currentTime) nextStartTime = currentTime]. *)
Definition caught_up (s : Service) (currentTime : Q) : Q :=
  if Qlt_bool (nextStartTime s) currentTime then currentTime else nextStartTime s.

(** The fields of the Mic Gate. *)
Definition gate (s : Service) : bool * Z * bool :=
  (isMicMuted s, lastSpeechTime s, hasSpokenSinceLastTurn s).

(** The fields of the playback scheduler. *)
Definition playback (s : Service) : Q * list SourceId * nat :=
  (nextStartTime s, activeSources s, sourcesCreated s).

(** The React state the turn handling never writes. *)
Definition link (a : App) : ConnectionState * option string * bool :=
  (connectionState a, error a, serviceRef a).

(** The world after the App's "end user turn": [handleTurnComplete]. *)
Definition end_user_turn (w : World) : World :=
  if serviceRef (app w)
  then mkWorld (set_hasSpokenSinceLastTurn false (set_isMicMuted true (svc w)))
               (set_volume 0%Q (set_isMicOn false (app w)))
  else w.

(** The world and the effects of the scheduling of one payload. *)
Definition scheduled (imports : Imports) (data : string) (t : Q) (w : World)
    : World * list Effect :=
  match outputAudioContext (svc w) with
  | Some _ =>
      if outputNode (svc w) then
        let c := caught_up (svc w) t in
        match decodeAudioData imports data with
        | Some buf =>
            (mkWorld
               (set_nextStartTime (c + duration buf)%Q
                  (set_activeSources
                     (Set_add (sourcesCreated (svc w)) (activeSources (svc w)))
                     (set_sourcesCreated (S (sourcesCreated (svc w))) (svc w))))
               (app w),
             [SourceStart (sourcesCreated (svc w)) c])
        | None =>
            (mkWorld (set_nextStartTime c (svc w)) (app w),
             [ConsoleError "Error decoding audio"])
        end
      else (w, [])
  | None => (w, [])
  end.

(** The world and the effects of the audio part of [handleMessage]. *)
Definition audio_result (imports : Imports) (m : LiveServerMessage) (t : Q)
    (w : World) : World * list Effect :=
  match inlineData m with
  | Some data =>
      if truthy data then
        let w1 := if isMicMuted (svc w) then w else end_user_turn w in
        (fst (scheduled imports data t w1),
         (if isMicMuted (svc w) then [] else [OnTurnComplete]) ++
         snd (scheduled imports data t w1))
      else (w, [])
  | None => (w, [])
  end.

Definition transcripts (m : LiveServerMessage) : list Effect :=
  match inputTranscription m with
  | Some text => [OnTranscript text true false]
  | None => []
  end ++
  match outputTranscription m with
  | Some text => [OnTranscript text false false]
  | None => []
  end.

(** The world and the effects of [handleMessage] with the App's callbacks. *)
Definition message_result (imports : Imports) (m : LiveServerMessage) (t : Q)
    (w : World) : World * list Effect :=
  let w1 := if turnComplete m then end_user_turn w else w in
  let a := audio_result imports m t w1 in
  let w2 := fst a in
  (if interrupted m
   then mkWorld (set_nextStartTime 0%Q (set_activeSources [] (svc w2))) (app w2)
   else w2,
   transcripts m ++
   (if turnComplete m then [OnTurnComplete] else []) ++
   snd a ++
   (if interrupted m then map SourceStop (activeSources (svc w2)) else [])).

(** The world and the effects of the block handler with the App's
    callbacks. *)
Definition block_result (imports : Imports) (inputData : list Q) (now : Z)
    (w : World) : World * list Effect :=
  if isMicMuted (svc w) then
    (mkWorld (svc w) (set_volume 0%Q (app w)), [OnVolumeUpdate 0%Q])
  else
    let rms := rms_of imports inputData in
    let w1 := mkWorld (svc w) (set_volume rms (app w)) in
    let sent :=
      if sessionPromise (svc w)
      then [SendRealtimeInput (createPcmBlob imports inputData)]
      else [] in
    if Qlt_bool SILENCE_THRESHOLD rms then
      (mkWorld (set_hasSpokenSinceLastTurn true (set_lastSpeechTime now (svc w)))
         (app w1),
       OnVolumeUpdate rms :: sent)
    else if hasSpokenSinceLastTurn (svc w)
            && (SILENCE_DURATION_MS <? now - lastSpeechTime (svc w))
    then (end_user_turn w1, [OnVolumeUpdate rms; OnTurnComplete])
    else (w1, OnVolumeUpdate rms :: sent).

(** A message carries an audio payload the handler acts on. *)
Definition has_audio (m : LiveServerMessage) : bool :=
  match inlineData m with
  | Some data => truthy data
  | None => false
  end.

(** What the end of the user's turn sets: the gate, the mic indicator and
    the displayed volume. *)
Definition turn_view (w : World) : bool * Z * bool * bool * Q :=
  (gate (svc w), isMicOn (app w), volume (app w)).

(** Events that act on the gate or belong to the audio streams. *)
Definition keeps_capture (e : Event) : bool :=
  match e with
  | MuteMic | UnmuteMic _ | MicToggle _ | AudioProcess _ _ | Message _ _
  | SourceEnded _ => true
  | _ => false
  end.

(** A block at or below the silence threshold. *)
Definition silent (imports : Imports) (inputData : list Q) : Prop :=
  Qlt_bool SILENCE_THRESHOLD (rms_of imports inputData) = false.

(** The state in which the silence timer runs: blocks are delivered, the
    gate is open and wired to the service, the user has spoken, last at [t0]. *)
Definition listening_since (t0 : Z) (w : World) : Prop :=
  delivers_blocks (svc w) = true /\
  isMicMuted (svc w) = false /\
  serviceRef (app w) = true /\
  hasSpokenSinceLastTurn (svc w) = true /\
  lastSpeechTime (svc w) = t0.

(** What can be handled while the user is silent without a bearing on the
    turn: a silent block no later than [SILENCE_DURATION_MS] after [t0], a
    server message that carries neither audio nor the turn-complete flag
    (transcriptions, an interruption), a chunk that finishes playing. *)
Definition within_silence (imports : Imports) (t0 : Z) (e : Event) : Prop :=
  match e with
  | AudioProcess inputData now =>
      silent imports inputData /\ now - t0 <= SILENCE_DURATION_MS
  | Message m _ => turnComplete m = false /\ has_audio m = false
  | SourceEnded _ => True
  | _ => False
  end.

(** ** Further observations on traces *)

Definition is_OnVolumeUpdate (e : Effect) : bool :=
  match e with OnVolumeUpdate _ => true | _ => false end.

Definition is_OnTranscript (e : Effect) : bool :=
  match e with OnTranscript _ _ _ => true | _ => false end.

(** The payloads passed to [session.sendRealtimeInput], in order. *)
Fixpoint sends (l : list Effect) : list Blob :=
  match l with
  | [] => []
  | SendRealtimeInput media :: l' => media :: sends l'
  | _ :: l' => sends l'
  end.

(** [l1] is [l2] with some elements left out, the order kept. *)
Inductive subsequence {A : Type} : list A -> list A -> Prop :=
  | subsequence_nil : subsequence [] []
  | subsequence_skip (x : A) (l1 l2 : list A) :
      subsequence l1 l2 -> subsequence l1 (x :: l2)
  | subsequence_take (x : A) (l1 l2 : list A) :
      subsequence l1 l2 -> subsequence (x :: l1) (x :: l2).

(** The state in which the turn detector waits for speech: the gate is open
    and nothing was said since it opened. *)
Definition awaiting_speech (w : World) : Prop :=
  isMicMuted (svc w) = false /\ hasSpokenSinceLastTurn (svc w) = false.

(** The service once [disconnect] has run: no session, every resource held
    released, nothing left to play; the fields are not nulled. *)
Definition released (s : Service) : Service :=
  mkService false
    (option_map (fun _ => Closed) (inputAudioContext s))
    (option_map (fun _ => Closed) (outputAudioContext s))
    (option_map (fun _ => TracksStopped) (mediaStream s))
    (option_map (fun _ => SourceDisconnected) (inputSource s))
    (option_map (fun _ => mkProcessor false false) (processor s))
    (outputNode s) (nextStartTime s) [] (isMicMuted s) (lastSpeechTime s)
    (hasSpokenSinceLastTurn s) (sourcesCreated s).

(** The service after the four assignments that open [connect]. *)
Definition reset_for_connect (now : Z) (s : Service) : Service :=
  set_hasSpokenSinceLastTurn false
    (set_lastSpeechTime now (set_isMicMuted false (set_nextStartTime 0%Q s))).

(** The service after the statements of the [try] block that completed. *)
Definition acquired (o : ConnectOutcome) (s : Service) : Service :=
  let s1 := if completes NewInputContext o
            then set_inputAudioContext (Some Running) s else s in
  let s2 := if completes NewOutputContext o
            then set_outputNode true (set_outputAudioContext (Some Running) s1)
            else s1 in
  let s3 := if completes GetUserMedia o
            then set_mediaStream (Some TracksLive) s2 else s2 in
  if completes LiveConnect o then set_sessionPromise true s3 else s3.

(** The payloads of the captured blocks of a run, in order. *)
Fixpoint captured (imports : Imports) (es : list Event) : list Blob :=
  match es with
  | [] => []
  | AudioProcess inputData _ :: es' => createPcmBlob imports inputData :: captured imports es'
  | _ :: es' => captured imports es'
  end.

(** Events that open a session: a (re)connection. *)
Definition connects (e : Event) : bool :=
  match e with
  | Connect _ _ | ToggleConnection _ _ => true
  | _ => false
  end.

(** The mic indicator of a connected App shows the gate. *)
Definition indicator_in_sync (w : World) : Prop :=
  connectionState (app w) = CONNECTED /\
  serviceRef (app w) = true /\
  isMicOn (app w) = negb (isMicMuted (svc w)).

(** What happens during a conversation: the mic button, captured blocks,
    server messages and chunks that finish playing. *)
Definition in_conversation (e : Event) : bool :=
  match e with
  | MicToggle _ | AudioProcess _ _ | Message _ _ | SourceEnded _ => true
  | _ => false
  end.

(** The handles of the Active Playback Set are distinct and were all
    handed out by [createBufferSource]. *)
Definition handles_fresh (s : Service) : Prop :=
  NoDup (activeSources s) /\
  Forall (fun id => (id < sourcesCreated s)%nat) (activeSources s).

(** Start times against arrivals: every chunk starts no earlier than the
    playback clock at its arrival and no earlier than [cursor], the end of the
    chunk before it. *)
Fixpoint well_spaced (cursor : Q) (chunks : list (Q * Q)) (starts : list Q) : Prop :=
  match chunks, starts with
  | [], [] => True
  | (t_now, d) :: rest, s :: starts' =>
      (t_now <= s)%Q /\ (cursor <= s)%Q /\ well_spaced (s + d)%Q rest starts'
  | _, _ => False
  end.

(** The decoder yields buffers of non-negative duration. *)
Definition durations_nonnegative (imports : Imports) : Prop :=
  forall data buf, decodeAudioData imports data = Some buf -> (0 <= duration buf)%Q.

(** The effects of turn handling and playback. *)
Definition is_turn_or_playback (e : Effect) : bool :=
  match e with
  | OnTurnComplete | SourceStart _ _ | SourceStop _ | ConsoleError _ => true
  | _ => false
  end.

(** ** The App's transcript: [cleanTranscriptText] and the [onTranscript] callback

    A JavaScript string is its sequence of UTF-16 code units.  The regular
    expressions of [cleanTranscriptText] are written as terms and run by a
    backtracking matcher that follows the ECMAScript semantics of the
    constructs they use (ordered alternation, greedy repetition with the
    empty-iteration check, [\b]); none has the [u] or [y] flag. *)
Module Chat.

Definition JsString : Type := list N.

(** A string literal of ASCII characters. *)
Definition js (s : string) : JsString :=
  map N_of_ascii (list_ascii_of_string s).

(** [\s], and what [trim] strips: WhiteSpace and LineTerminator. *)
Definition is_space (c : N) : bool :=
  ((9 <=? c) && (c <=? 13) || (c =? 32) || (c =? 160) || (c =? 5760)
   || (8192 <=? c) && (c <=? 8202) || (c =? 8232) || (c =? 8233) || (c =? 8239)
   || (c =? 8287) || (c =? 12288) || (c =? 65279))%N.

(** [\w] without the [u] flag: [A-Za-z0-9_]. *)
Definition is_word (c : N) : bool :=
  ((48 <=? c) && (c <=? 57) || (65 <=? c) && (c <=? 90) || (c =? 95)
   || (97 <=? c) && (c <=? 122))%N.

Inductive Regex : Type :=
  | Empty
  | Class (p : N -> bool)
  | Concat (r1 r2 : Regex)
  | Alt (r1 r2 : Regex)
  | Star (r : Regex)
  | Boundary.

Definition Plus (r : Regex) : Regex := Concat r (Star r).

(** A position in the subject: the code unit before it, if any, and the
    code units from it on. *)
Definition Position : Type := option N * list N.

Definition ahead (x : Position) : nat := List.length (snd x).

Definition is_word_at (c : option N) : bool :=
  match c with Some c => is_word c | None => false end.

Definition at_boundary (x : Position) : bool :=
  xorb (is_word_at (fst x)) (is_word_at (hd_error (snd x))).

(** The matcher in continuation-passing style: the continuation is what
    remains to be matched.  A repetition first tries one more iteration,
    which must consume something, and otherwise goes on with the
    continuation; an iteration consumes at least one code unit, so the
    count of those ahead bounds the iterations. *)
Definition Continuation : Type := Position -> option Position.

Fixpoint repeat_matcher (m : Position -> Continuation -> option Position)
    (k : Continuation) (fuel : nat) (x : Position) : option Position :=
  match fuel with
  | O => k x
  | S fuel' =>
      match m x (fun y => if Nat.ltb (ahead y) (ahead x)
                          then repeat_matcher m k fuel' y else None) with
      | Some z => Some z
      | None => k x
      end
  end.

Fixpoint matcher (r : Regex) (x : Position) (k : Continuation)
    : option Position :=
  match r with
  | Empty => k x
  | Class p =>
      match snd x with
      | c :: rest => if p c then k (Some c, rest) else None
      | [] => None
      end
  | Concat r1 r2 => matcher r1 x (fun y => matcher r2 y k)
  | Alt r1 r2 =>
      match matcher r1 x k with
      | Some z => Some z
      | None => matcher r2 x k
      end
  | Star r1 => repeat_matcher (matcher r1) k (S (ahead x)) x
  | Boundary => if at_boundary x then k x else None
  end.

(** The end of the match of [r] that starts at [x], if there is one. *)
Definition match_at (r : Regex) (x : Position) : option Position :=
  matcher r x Some.

(** [subject.replace(r, replacement)] for a global [r] and a replacement
    without [$]: the subject is scanned from the left; [inside] counts the
    code units of the current match still to be dropped. *)
Fixpoint replace_from (r : Regex) (replacement : JsString) (prev : option N)
    (rest : list N) (inside : nat) : JsString :=
  match rest with
  | [] =>
      match inside, match_at r (prev, []) with
      | O, Some _ => replacement
      | _, _ => []
      end
  | c :: rest' =>
      match inside with
      | S n => replace_from r replacement (Some c) rest' n
      | O =>
          match match_at r (prev, rest) with
          | Some y =>
              match (List.length rest - ahead y)%nat with
              | O => replacement ++ c :: replace_from r replacement (Some c) rest' 0
              | S n => replacement ++ replace_from r replacement (Some c) rest' n
              end
          | None => c :: replace_from r replacement (Some c) rest' 0
          end
      end
  end.

Definition replace_all (r : Regex) (replacement : JsString) (s : JsString)
    : JsString :=
  replace_from r replacement None s 0.

(** A letter of a pattern with the [i] flag: either case of an ASCII
    letter, the code unit itself otherwise. *)
Definition letter (a : ascii) : Regex :=
  let c := N_of_ascii a in
  Class (fun x =>
           if ((97 <=? c) && (c <=? 122))%N then (x =? c)%N || (x =? c - 32)%N
           else if ((65 <=? c) && (c <=? 90))%N then (x =? c)%N || (x =? c + 32)%N
           else (x =? c)%N).

Fixpoint word (s : string) : Regex :=
  match s with
  | EmptyString => Empty
  | String a s' => Concat (letter a) (word s')
  end.

Definition one_of (s : string) : Regex :=
  Class (fun x => existsb (N.eqb x) (js s)).

(** [/[\(\[]\s*(noise|silence|unintelligible|background noise|background)\s*[\)\]]/gi] *)
Definition bracketed_noise : Regex :=
  Concat (one_of "([")
    (Concat (Star (Class is_space))
       (Concat (Alt (word "noise")
                  (Alt (word "silence")
                     (Alt (word "unintelligible")
                        (Alt (word "background noise") (word "background")))))
          (Concat (Star (Class is_space)) (one_of ")]")))).

(** [/\b(noise|silence|background)\b/gi] *)
Definition noise_word : Regex :=
  Concat Boundary
    (Concat (Alt (word "noise") (Alt (word "silence") (word "background")))
       Boundary).

(** [/\*[^*]+\*/g] *)
Definition starred : Regex :=
  Concat (one_of "*")
    (Concat (Plus (Class (fun x => negb (x =? 42)%N))) (one_of "*")).

(** [/[<>]/g] *)
Definition angle_bracket : Regex := one_of "<>".

(** The code units the class [\x20-\x7E], [\xA0-\xFF], [\u2000-\u206F]
    keeps. *)
Definition is_kept (c : N) : bool :=
  ((32 <=? c) && (c <=? 126) || (160 <=? c) && (c <=? 255)
   || (8192 <=? c) && (c <=? 8303))%N.

(** [/[^\x20-\x7E\xA0-\xFF\u2000-\u206F]/g] *)
Definition not_kept : Regex := Class (fun x => negb (is_kept x)).

(** [/\s+/g] *)
Definition spaces : Regex := Plus (Class is_space).

(** [cleanTranscriptText] *)
Definition cleanTranscriptText (text : JsString) : JsString :=
  match text with
  | [] => []
  | _ =>
      let cleaned := text in
      let cleaned := replace_all bracketed_noise [] cleaned in
      let cleaned := replace_all noise_word [] cleaned in
      let cleaned := replace_all starred [] cleaned in
      let cleaned := replace_all angle_bracket [] cleaned in
      let cleaned := replace_all not_kept [] cleaned in
      replace_all spaces (js " ") cleaned
  end.


(** [trimStart], [trimEnd] and [trim]. *)
Fixpoint trimStart (s : JsString) : JsString :=
  match s with
  | c :: s' => if is_space c then trimStart s' else s
  | [] => []
  end.

Definition trimEnd (s : JsString) : JsString := rev (trimStart (rev s)).

Definition trim (s : JsString) : JsString := trimEnd (trimStart s).

(** [!s.trim()] *)
Definition is_blank (s : JsString) : bool :=
  match trim s with [] => true | _ :: _ => false end.

Inductive Role : Type := user | model.

Definition Role_eqb (a b : Role) : bool :=
  match a, b with
  | user, user | model, model => true
  | _, _ => false
  end.

(** [ChatMessage]; the [id] is the decimal string of a clock reading and is
    kept as that reading. *)
Record ChatMessage : Type := mkChatMessage {
  id : Z;
  role : Role;
  text : JsString;
  isFinal : bool;
  timestamp : Z
}.

Definition add_text (m : ChatMessage) (s : JsString) : ChatMessage :=
  mkChatMessage (id m) (role m) (text m ++ s) (isFinal m) (timestamp m).

(** [newMessages[newMessages.length - 1]] *)
Definition last_message (messages : list ChatMessage) : option ChatMessage :=
  match messages with
  | [] => None
  | _ => nth_error messages (List.length messages - 1)
  end.

(** The function [onTranscript] hands to [setMessages], applied once to the
    messages before; [now_id] and [now_ts] are its two readings of
    [Date.now()]. *)
Definition merge_transcript (now_id now_ts : Z) (cleanText : JsString)
    (isUser isFinal : bool) (prev : list ChatMessage) : list ChatMessage :=
  let role' := if isUser then user else model in
  let fresh :=
    if is_blank cleanText then prev
    else prev ++ [mkChatMessage now_id role' (trimStart cleanText) isFinal now_ts] in
  match last_message prev with
  | Some lastMessage =>
      if Role_eqb (role lastMessage) role'
      then removelast prev ++ [add_text lastMessage cleanText]
      else fresh
  | None => fresh
  end.

(** The [onTranscript] callback of the App, on the messages of its state. *)
Definition onTranscript (now_id now_ts : Z) (text : JsString)
    (isUser isFinal : bool) (messages : list ChatMessage) : list ChatMessage :=
  let cleanText := cleanTranscriptText text in
  if is_blank cleanText && negb isFinal then messages
  else merge_transcript now_id now_ts cleanText isUser isFinal messages.

(** [clearChat] *)
Definition clearChat (messages : list ChatMessage) : list ChatMessage := [].

(** What reaches the transcript: a transcription from the service, or the
    clear button. *)
Inductive ChatEvent : Type :=
  | Transcript (now_id now_ts : Z) (text : JsString) (isUser isFinal : bool)
  | ClearChat.

Definition chat_step (messages : list ChatMessage) (e : ChatEvent)
    : list ChatMessage :=
  match e with
  | Transcript now_id now_ts text isUser isFinal =>
      onTranscript now_id now_ts text isUser isFinal messages
  | ClearChat => clearChat messages
  end.

(** The messages after a run of events, from the empty transcript the App
    starts with. *)
Definition chat_run (events : list ChatEvent) : list ChatMessage :=
  fold_left chat_step events [].

(** *** Observations on cleaned text and on the transcript *)

(** One space for each run of white space; [after_space] tells that the
    code unit before was white space. *)
Fixpoint squeeze (after_space : bool) (s : JsString) : JsString :=
  match s with
  | [] => []
  | c :: s' =>
      if is_space c
      then (if after_space then squeeze true s' else 32%N :: squeeze true s')
      else c :: squeeze false s'
  end.

Definition is_angle (c : N) : bool := ((c =? 60) || (c =? 62))%N.

(** A code unit the cleaning lets through. *)
Definition is_clean (c : N) : bool :=
  is_kept c && negb (is_angle c) && (negb (is_space c) || (c =? 32)%N).

Fixpoint single_spaced (s : JsString) : Prop :=
  match s with
  | a :: (b :: _) as s' => is_space a && is_space b = false /\ single_spaced s'
  | _ => True
  end.


Definition starts_with_text (m : ChatMessage) : Prop :=
  match text m with
  | c :: _ => is_space c = false
  | [] => False
  end.

Definition is_prefix (s t : JsString) : Prop := exists more, t = s ++ more.

(** [m'] is [m] with, possibly, more text. *)
Definition extends (m m' : ChatMessage) : Prop :=
  id m' = id m /\ role m' = role m /\ isFinal m' = isFinal m
  /\ timestamp m' = timestamp m /\ is_prefix (text m) (text m').

End Chat.

(** ** The scheduler as the specification words it

    [schedule(chunk)]: with [t_now] the playback-clock time, if the cursor is
    behind [t_now] it is set to [t_now]; the chunk starts at the cursor, its
    handle joins the Active Playback Set, and the cursor advances by the
    chunk's duration.  The result is the start time, the new cursor and the
    new set. *)
Definition spec_schedule (t_now d : Q) (handle : SourceId)
    (cursor : Q) (active : list SourceId) : Q * Q * list SourceId :=
  let cursor1 := if Qlt_bool cursor t_now then t_now else cursor in
  (cursor1, (cursor1 + d)%Q, Set_add handle active).

(** A sequence of chunks, each given by its arrival time on the playback
    clock and its duration; handles are numbered in schedule order. *)
Fixpoint spec_schedule_all (chunks : list (Q * Q)) (handle : SourceId)
    (cursor : Q) (active : list SourceId) : list Q * Q * list SourceId :=
  match chunks with
  | [] => ([], cursor, active)
  | (t_now, d) :: rest =>
      match spec_schedule t_now d handle cursor active with
      | (start, cursor1, active1) =>
          match spec_schedule_all rest (S handle) cursor1 active1 with
          | (starts, c, a) => (start :: starts, c, a)
          end
      end
  end.

(** [interrupt()]: every handle of the set is stopped and discarded, the set
    is cleared and the cursor reset to 0.  The result is the handles stopped,
    the new cursor and the new set. *)
Definition spec_interrupt (cursor : Q) (active : list SourceId)
    : list SourceId * Q * list SourceId :=
  (active, 0%Q, []).

(** The duration of the chunk a message carries (0 when it carries none or
    the payload does not decode). *)
Definition chunk_duration (imports : Imports) (m : LiveServerMessage) : Q :=
  match inlineData m with
  | Some data =>
      match decodeAudioData imports data with
      | Some buf => duration buf
      | None => 0%Q
      end
  | None => 0%Q
  end.

(** A message whose audio payload is scheduled: truthy, decoded with
    success, and no interruption in the same message. *)
Definition schedulable (imports : Imports) (m : LiveServerMessage) : Prop :=
  exists data buf,
    inlineData m = Some data /\ truthy data = true /\
    decodeAudioData imports data = Some buf /\ interrupted m = false.

(** Captured blocks, each with the time it is handled at. *)
Definition blocks_as_events (blocks : list (list Q * Z)) : list Event :=
  map (fun b => AudioProcess (fst b) (snd b)) blocks.

Definition messages_as_events (ms : list (LiveServerMessage * Q)) : list Event :=
  map (fun c => Message (fst c) (snd c)) ms.

Definition arrivals (imports : Imports) (ms : list (LiveServerMessage * Q))
    : list (Q * Q) :=
  map (fun c => (snd c, chunk_duration imports (fst c))) ms.

(** ** Reasoning about handlers *)

Lemma Qlt_bool_iff (x y : Q) : Qlt_bool x y = true <-> (x < y)%Q.
Proof.
  unfold Qlt_bool. rewrite negb_true_iff, <- not_true_iff_false, Qle_bool_iff.
  split; [apply Qnot_le_lt | apply Qlt_not_le].
Qed.

Lemma Qlt_bool_false_iff (x y : Q) : Qlt_bool x y = false <-> (y <= x)%Q.
Proof.
  unfold Qlt_bool. rewrite negb_false_iff. apply Qle_bool_iff.
Qed.

Section Sequencing.
Context {A B : Type}.

Lemma run_bind (c : M A) (k : A -> M B) (w : World) :
  run (bind c k) w = run (k (value c w)) (run c w).
Proof.
  unfold run, value, bind. destruct (c w) as [[x w1] e1]. cbn.
  destruct (k x w1) as [[y w2] e2]. reflexivity.
Qed.

Lemma effects_bind (c : M A) (k : A -> M B) (w : World) :
  effects (bind c k) w = effects c w ++ effects (k (value c w)) (run c w).
Proof.
  unfold run, value, effects, bind. destruct (c w) as [[x w1] e1]. cbn.
  destruct (k x w1) as [[y w2] e2]. reflexivity.
Qed.
End Sequencing.

Lemma stop_each_run (l : list SourceId) (w : World) :
  stop_each l w = (tt, w, map SourceStop l).
Proof.
  revert w; induction l as [|id l IH]; intros w; cbn; [reflexivity|].
  unfold bind, emit. rewrite IH. reflexivity.
Qed.

(** Symbolic execution of one handler on a world given field by field. *)
Ltac open_world w :=
  destruct w as [[f_session f_inctx f_outctx f_stream f_insrc f_proc f_outnode
                  f_cursor f_active f_muted f_last f_spoken f_created]
                 [u_state u_mic u_volume u_error u_ref]].

Ltac exec :=
  cbv [run effects value bind ret this react emit assign setState when
       sessionPromise_then call_onStateChange call_onError call_onVolumeUpdate call_onTranscript
       App_callbacks onStateChange onError onVolumeUpdate onTranscript
       onTurnComplete handleTurnComplete muteMic unmuteMic
       connect connect_reset connect_acquire disconnect handleOpen
       startAudioStreaming handleError handleClose handleMessage
       forward_transcriptions forward_turn_complete handle_audio_output
       handle_interruption
       schedule_audio source_ended onaudioprocess silence_detection
       deliver_block delivers_blocks handleMicToggle toggleConnection handle
       svc app resources capture_session_exists
       sessionPromise inputAudioContext outputAudioContext mediaStream
       inputSource processor outputNode nextStartTime activeSources
       isMicMuted lastSpeechTime hasSpokenSinceLastTurn sourcesCreated
       connectionState isMicOn volume error serviceRef
       set_sessionPromise set_inputAudioContext set_outputAudioContext
       set_mediaStream set_inputSource set_processor set_outputNode
       set_nextStartTime set_activeSources set_isMicMuted set_lastSpeechTime
       set_hasSpokenSinceLastTurn set_sourcesCreated
       set_connectionState set_isMicOn set_volume set_error set_serviceRef
       inputTranscription outputTranscription turnComplete inlineData
       interrupted onaudioprocess_set proc_connected
       completes step_index Nat.ltb Nat.leb or_else
       fst snd is_CONNECTED andb negb];
  cbn [List.app]; rewrite ?app_nil_r.

Ltac case_step :=
  match goal with
  | |- context [stop_each ?l ?w] => rewrite (stop_each_run l w)
  | |- context [match ?x with _ => _ end] => is_var x; destruct x
  | |- context [if ?x then _ else _] => is_var x; destruct x
  end.

Ltac exec_all := exec; repeat (case_step; exec).

(** *** The parts of [handleMessage] with the App's callbacks *)

Lemma handleTurnComplete_run (w : World) :
  handleTurnComplete w = (tt, end_user_turn w, []).
Proof. unfold end_user_turn. open_world w. exec_all; reflexivity. Qed.

Lemma end_user_turn_frame (w : World) :
  resources (svc (end_user_turn w)) = resources (svc w) /\
  playback (svc (end_user_turn w)) = playback (svc w) /\
  link (app (end_user_turn w)) = link (app w) /\
  lastSpeechTime (svc (end_user_turn w)) = lastSpeechTime (svc w).
Proof. unfold end_user_turn. open_world w. exec_all; auto. Qed.

Lemma end_user_turn_mutes (w : World) :
  serviceRef (app w) = true ->
  isMicMuted (svc (end_user_turn w)) = true /\
  hasSpokenSinceLastTurn (svc (end_user_turn w)) = false.
Proof. unfold end_user_turn. intros ->. auto. Qed.

Lemma end_user_turn_idempotent (w : World) :
  end_user_turn (end_user_turn w) = end_user_turn w.
Proof. unfold end_user_turn. open_world w. exec_all; reflexivity. Qed.

Lemma forward_transcriptions_run (m : LiveServerMessage) (w : World) :
  forward_transcriptions App_callbacks m w = (tt, w, transcripts m).
Proof. unfold transcripts. destruct m as [[i|] [o|] ? ? ?]; exec; reflexivity. Qed.

Lemma forward_turn_complete_run (m : LiveServerMessage) (w : World) :
  forward_turn_complete App_callbacks m w =
  if turnComplete m then (tt, end_user_turn w, [OnTurnComplete]) else (tt, w, []).
Proof.
  unfold forward_turn_complete, when. destruct (turnComplete m); [|reflexivity].
  cbn [onTurnComplete App_callbacks]. unfold bind, emit.
  now rewrite handleTurnComplete_run.
Qed.

Lemma handle_interruption_run (m : LiveServerMessage) (w : World) :
  handle_interruption m w =
  if interrupted m
  then (tt,
        mkWorld (set_nextStartTime 0%Q (set_activeSources [] (svc w))) (app w),
        map SourceStop (activeSources (svc w)))
  else (tt, w, []).
Proof.
  unfold handle_interruption, when. destruct (interrupted m); [|reflexivity].
  unfold bind, this. rewrite stop_each_run. cbn. now rewrite app_nil_r.
Qed.

Lemma schedule_audio_run (imports : Imports) (data : string) (t : Q) (w : World) :
  schedule_audio imports data t w =
  (tt, fst (scheduled imports data t w), snd (scheduled imports data t w)).
Proof.
  unfold scheduled, caught_up. open_world w.
  exec. destruct f_outctx; [|reflexivity].
  destruct f_outnode; [|reflexivity]. exec.
  destruct (Qlt_bool f_cursor t); exec;
    destruct (decodeAudioData imports data); reflexivity.
Qed.

Lemma handle_audio_output_run (imports : Imports) (m : LiveServerMessage)
    (t : Q) (w : World) :
  handle_audio_output App_callbacks imports m t w =
  (tt, fst (audio_result imports m t w), snd (audio_result imports m t w)).
Proof.
  unfold handle_audio_output, audio_result, when.
  destruct (inlineData m) as [data|]; [|reflexivity].
  destruct (truthy data); [|reflexivity].
  cbn [onTurnComplete App_callbacks]. unfold bind at 1 2. unfold this at 1.
  destruct (isMicMuted (svc w)); cbn [negb].
  - unfold ret. rewrite schedule_audio_run. reflexivity.
  - unfold bind, emit. rewrite handleTurnComplete_run, schedule_audio_run.
    reflexivity.
Qed.

Lemma handleMessage_run (imports : Imports) (m : LiveServerMessage) (t : Q)
    (w : World) :
  handleMessage App_callbacks imports m t w =
  (tt, fst (message_result imports m t w), snd (message_result imports m t w)).
Proof.
  unfold handleMessage, message_result, bind.
  rewrite forward_transcriptions_run, forward_turn_complete_run.
  destruct (turnComplete m);
    rewrite handle_audio_output_run, handle_interruption_run;
    destruct (interrupted m); cbn [fst snd]; rewrite ?app_nil_r; reflexivity.
Qed.

Lemma run_handleMessage (imports : Imports) (m : LiveServerMessage) (t : Q)
    (w : World) :
  run (handleMessage App_callbacks imports m t) w =
  fst (message_result imports m t w).
Proof. unfold run. now rewrite handleMessage_run. Qed.

Lemma effects_handleMessage (imports : Imports) (m : LiveServerMessage) (t : Q)
    (w : World) :
  effects (handleMessage App_callbacks imports m t) w =
  snd (message_result imports m t w).
Proof. unfold effects. now rewrite handleMessage_run. Qed.

(** *** The block handler with the App's callbacks *)

Lemma onaudioprocess_run (imports : Imports) (inputData : list Q) (now : Z)
    (w : World) :
  onaudioprocess App_callbacks imports inputData now w =
  (tt, fst (block_result imports inputData now w),
   snd (block_result imports inputData now w)).
Proof.
  unfold block_result, end_user_turn. open_world w. exec.
  destruct f_muted; [reflexivity|]. exec.
  destruct (Qlt_bool SILENCE_THRESHOLD (rms_of imports inputData)); exec.
  - destruct f_session; reflexivity.
  - destruct f_spoken, (SILENCE_DURATION_MS <? now - f_last), u_ref, f_session;
      reflexivity.
Qed.

Lemma deliver_block_run (imports : Imports) (inputData : list Q) (now : Z)
    (w : World) :
  deliver_block App_callbacks imports inputData now w =
  if delivers_blocks (svc w)
  then (tt, fst (block_result imports inputData now w),
        snd (block_result imports inputData now w))
  else (tt, w, []).
Proof.
  unfold deliver_block, bind, this, when. cbn [svc].
  destruct (delivers_blocks (svc w)); [|reflexivity].
  rewrite onaudioprocess_run. reflexivity.
Qed.

Section Runs_facts.

Variable imports : Imports.

Lemma run_handle_all_cons (e : Event) (es : list Event) (w : World) :
  run (handle_all imports (e :: es)) w =
  run (handle_all imports es) (run (handle imports e) w).
Proof. cbn [handle_all]. now rewrite run_bind. Qed.

Lemma effects_handle_all_cons (e : Event) (es : list Event) (w : World) :
  effects (handle_all imports (e :: es)) w =
  effects (handle imports e) w ++
  effects (handle_all imports es) (run (handle imports e) w).
Proof. cbn [handle_all]. now rewrite effects_bind. Qed.

Lemma run_handle_all_app (es1 es2 : list Event) (w : World) :
  run (handle_all imports (es1 ++ es2)) w =
  run (handle_all imports es2) (run (handle_all imports es1) w).
Proof.
  revert w; induction es1 as [|e es1 IH]; intros w; [reflexivity|].
  rewrite <- app_comm_cons, !run_handle_all_cons. apply IH.
Qed.

Lemma effects_per_event_app (es1 es2 : list Event) (w : World) :
  effects_per_event imports (es1 ++ es2) w =
  effects_per_event imports es1 w ++
  effects_per_event imports es2 (run (handle_all imports es1) w).
Proof.
  revert w; induction es1 as [|e es1 IH]; intros w; [reflexivity|].
  rewrite <- app_comm_cons. cbn [effects_per_event]. rewrite IH.
  now rewrite run_handle_all_cons.
Qed.

End Runs_facts.

(** ** Connecting *)

Lemma connect_reset_effects (w : World) (now : Z) :
  effects (connect_reset App_callbacks now) w = [OnStateChange CONNECTING].
Proof. open_world w. now exec. Qed.

Lemma disconnect_keeps_gate (w : World) :
  let w1 := run (disconnect App_callbacks) w in
  nextStartTime (svc w1) = nextStartTime (svc w) /\
  isMicMuted (svc w1) = isMicMuted (svc w) /\
  lastSpeechTime (svc w1) = lastSpeechTime (svc w) /\
  hasSpokenSinceLastTurn (svc w1) = hasSpokenSinceLastTurn (svc w).
Proof. open_world w. exec_all; auto. Qed.

Lemma connect_acquire_keeps_gate (w : World) (o : ConnectOutcome) :
  let w1 := run (connect_acquire App_callbacks o) w in
  nextStartTime (svc w1) = nextStartTime (svc w) /\
  isMicMuted (svc w1) = isMicMuted (svc w) /\
  lastSpeechTime (svc w1) = lastSpeechTime (svc w) /\
  hasSpokenSinceLastTurn (svc w1) = hasSpokenSinceLastTurn (svc w).
Proof.
  destruct o as [|at_step message]; cbv zeta.
  - open_world w. exec. auto.
  - unfold connect_acquire.
    repeat (rewrite run_bind; cbv beta).
    match goal with
    | |- context [run (disconnect App_callbacks) ?x] =>
        destruct (disconnect_keeps_gate x) as (D1 & D2 & D3 & D4);
        rewrite D1, D2, D3, D4
    end.
    open_world w. destruct at_step; exec; auto.
Qed.

(** C9. Every call of [connect] notifies [CONNECTING] first and then, with
    no resource of the service touched yet, sets the playback cursor to 0,
    clears the mute flag, sets [lastSpeechTime] to the current time and clears
    [hasSpokenSinceLastTurn]; the acquisition that follows starts from that
    state, and whatever its outcome the four fields keep the reset values. *)
Theorem connect_resets_session_state (w : World) (now : Z) (o : ConnectOutcome) :
  let w0 := run (connect_reset App_callbacks now) w in
  let w1 := run (connect App_callbacks now o) w in
  (exists rest,
     effects (connect App_callbacks now o) w = OnStateChange CONNECTING :: rest) /\
  effects (connect_reset App_callbacks now) w = [OnStateChange CONNECTING] /\
  connectionState (app w0) = CONNECTING /\
  resources (svc w0) = resources (svc w) /\
  (nextStartTime (svc w0) = 0%Q /\ isMicMuted (svc w0) = false /\
   lastSpeechTime (svc w0) = now /\ hasSpokenSinceLastTurn (svc w0) = false) /\
  w1 = run (connect_acquire App_callbacks o) w0 /\
  (nextStartTime (svc w1) = 0%Q /\ isMicMuted (svc w1) = false /\
   lastSpeechTime (svc w1) = now /\ hasSpokenSinceLastTurn (svc w1) = false).
Proof.
  intros w0 w1.
  assert (Hseq : w1 = run (connect_acquire App_callbacks o) w0).
  { subst w0 w1. unfold connect. now rewrite run_bind. }
  split.
  { unfold connect. rewrite effects_bind, connect_reset_effects.
    eexists. reflexivity. }
  split; [apply connect_reset_effects|].
  assert (Hreset : nextStartTime (svc w0) = 0%Q /\ isMicMuted (svc w0) = false /\
                   lastSpeechTime (svc w0) = now /\
                   hasSpokenSinceLastTurn (svc w0) = false).
  { subst w0. open_world w. exec. auto. }
  split; [subst w0; open_world w; now exec|].
  split; [subst w0; open_world w; now exec|].
  split; [exact Hreset|].
  split; [exact Hseq|].
  rewrite Hseq. destruct (connect_acquire_keeps_gate w0 o) as (A1 & A2 & A3 & A4).
  rewrite A1, A2, A3, A4. exact Hreset.
Qed.

(** ** The block handler *)

(** C10. A block on which the silence detection raises the turn-complete
    notification yields exactly its volume update followed by that
    notification: the handler returns there, and the block is neither encoded
    nor sent. *)
Theorem silence_timeout_block_is_not_sent
    (imports : Imports) (w : World) (inputData : list Q) (now : Z) :
  let effs := effects (onaudioprocess App_callbacks imports inputData now) w in
  In OnTurnComplete effs ->
  effs = [OnVolumeUpdate (rms_of imports inputData); OnTurnComplete] /\
  count is_SendRealtimeInput effs = 0%nat.
Proof.
  cbv zeta. unfold effects. rewrite onaudioprocess_run. cbn [snd].
  unfold block_result.
  assert (Hsent : forall rms,
            ~ In OnTurnComplete
                (OnVolumeUpdate rms ::
                 (if sessionPromise (svc w)
                  then [SendRealtimeInput (createPcmBlob imports inputData)]
                  else []))).
  { intros rms H. destruct (sessionPromise (svc w));
      repeat (destruct H as [H|H]; try discriminate H); exact H. }
  destruct (isMicMuted (svc w)).
  - cbn [snd]. intros [H|[]]. discriminate H.
  - destruct (Qlt_bool SILENCE_THRESHOLD (rms_of imports inputData)).
    + cbn [snd]. intros H. now apply Hsent in H.
    + destruct (hasSpokenSinceLastTurn (svc w)
                && (SILENCE_DURATION_MS <? now - lastSpeechTime (svc w))).
      * cbn [snd]. intros _. split; reflexivity.
      * cbn [snd]. intros H. now apply Hsent in H.
Qed.

(** A block handled while the mute flag is set: one volume update of 0,
    and the whole state of the service and of the App's connection is left as
    it was. *)
Lemma muted_block (imports : Imports) (w : World) (inputData : list Q) (now : Z) :
  isMicMuted (svc w) = true ->
  effects (deliver_block App_callbacks imports inputData now) w =
    (if delivers_blocks (svc w) then [OnVolumeUpdate 0%Q] else []) /\
  svc (run (deliver_block App_callbacks imports inputData now) w) = svc w /\
  connectionState (app (run (deliver_block App_callbacks imports inputData now) w)) =
    connectionState (app w).
Proof.
  open_world w. cbn [svc isMicMuted]. intros ->. exec_all; auto.
Qed.

(** C3 (amended). While the mute flag is set and the block handler is
    registered, every delivered block produces exactly one volume update, of
    value 0, and nothing else (no block is sent), on every block of any further
    sequence of blocks; the blocks keep being delivered, and the service's
    state, [lastSpeechTime] and [hasSpokenSinceLastTurn] included, is left
    unchanged by them. *)
Theorem muted_blocks_report_zero_and_freeze
    (imports : Imports) (blocks : list (list Q * Z)) (w : World) :
  isMicMuted (svc w) = true ->
  delivers_blocks (svc w) = true ->
  let w' := run (handle_all imports (blocks_as_events blocks)) w in
  effects_per_event imports (blocks_as_events blocks) w =
    map (fun e => (e, [OnVolumeUpdate 0%Q])) (blocks_as_events blocks) /\
  svc w' = svc w /\
  lastSpeechTime (svc w') = lastSpeechTime (svc w) /\
  hasSpokenSinceLastTurn (svc w') = hasSpokenSinceLastTurn (svc w) /\
  isMicMuted (svc w') = true /\
  delivers_blocks (svc w') = true.
Proof.
  intros Hm Hd. cbv zeta.
  assert (H : effects_per_event imports (blocks_as_events blocks) w =
              map (fun e => (e, [OnVolumeUpdate 0%Q])) (blocks_as_events blocks) /\
              svc (run (handle_all imports (blocks_as_events blocks)) w) = svc w).
  { revert w Hm Hd. induction blocks as [|[inputData now] blocks IH]; intros w Hm Hd.
    - split; reflexivity.
    - change (blocks_as_events ((inputData, now) :: blocks))
        with (AudioProcess inputData now :: blocks_as_events blocks).
      rewrite run_handle_all_cons. cbn [effects_per_event map].
      cbn [handle].
      destruct (muted_block imports w inputData now Hm) as (He & Hs & _).
      rewrite Hd in He.
      destruct (IH (run (deliver_block App_callbacks imports inputData now) w))
        as (IHe & IHs); rewrite ?Hs; auto.
      rewrite He, IHe, IHs, Hs. split; reflexivity. }
  destruct H as (He & Hs). rewrite Hs. repeat split; assumption.
Qed.

(** ** The playback scheduler *)

Lemma Set_add_keeps (x id : SourceId) (l : list SourceId) :
  In id l -> In id (Set_add x l).
Proof.
  unfold Set_add. destruct (existsb (Nat.eqb x) l); [auto|].
  intros H. apply in_or_app. now left.
Qed.

Lemma Set_add_In (x : SourceId) (l : list SourceId) : In x (Set_add x l).
Proof.
  unfold Set_add. destruct (existsb (Nat.eqb x) l) eqn:E.
  - apply existsb_exists in E. destruct E as (y & Hy & Hxy).
    apply Nat.eqb_eq in Hxy. now subst.
  - apply in_or_app. right. now left.
Qed.

Lemma caught_up_ge_cursor (s : Service) (t : Q) :
  (nextStartTime s <= caught_up s t)%Q.
Proof.
  unfold caught_up. destruct (Qlt_bool (nextStartTime s) t) eqn:E.
  - apply Qlt_bool_iff in E. now apply Qlt_le_weak.
  - apply Qle_refl.
Qed.

Lemma caught_up_ge_clock (s : Service) (t : Q) : (t <= caught_up s t)%Q.
Proof.
  unfold caught_up. destruct (Qlt_bool (nextStartTime s) t) eqn:E.
  - apply Qle_refl.
  - now apply Qlt_bool_false_iff in E.
Qed.

(** The world the scheduling of a payload starts from: the turn-complete
    signal and the payload itself may have ended the user's turn. *)
Lemma before_scheduling_frame (m : LiveServerMessage) (w : World) :
  let w1 := if turnComplete m then end_user_turn w else w in
  let w2 := if isMicMuted (svc w1) then w1 else end_user_turn w1 in
  resources (svc w2) = resources (svc w) /\
  playback (svc w2) = playback (svc w) /\
  link (app w2) = link (app w) /\
  lastSpeechTime (svc w2) = lastSpeechTime (svc w).
Proof.
  cbv zeta.
  destruct (end_user_turn_frame w) as (R1 & P1 & L1 & T1).
  destruct (end_user_turn_frame (end_user_turn w)) as (R2 & P2 & L2 & T2).
  destruct (turnComplete m).
  - destruct (isMicMuted (svc (end_user_turn w))); repeat split; congruence.
  - destruct (isMicMuted (svc w)); repeat split; congruence.
Qed.

Lemma scheduled_decoded (imports : Imports) (data : string) (t : Q) (w : World)
    (buf : AudioBuffer) :
  output_ready (svc w) ->
  decodeAudioData imports data = Some buf ->
  scheduled imports data t w =
  (mkWorld
     (set_nextStartTime (caught_up (svc w) t + duration buf)%Q
        (set_activeSources
           (Set_add (sourcesCreated (svc w)) (activeSources (svc w)))
           (set_sourcesCreated (S (sourcesCreated (svc w))) (svc w))))
     (app w),
   [SourceStart (sourcesCreated (svc w)) (caught_up (svc w) t)]).
Proof.
  intros [Hctx Hnode] Hdec. unfold scheduled. rewrite Hnode, Hdec.
  destruct (outputAudioContext (svc w)); [reflexivity | congruence].
Qed.

Lemma scheduled_failed (imports : Imports) (data : string) (t : Q) (w : World) :
  output_ready (svc w) ->
  decodeAudioData imports data = None ->
  scheduled imports data t w =
  (mkWorld (set_nextStartTime (caught_up (svc w) t) (svc w)) (app w),
   [ConsoleError "Error decoding audio"]).
Proof.
  intros [Hctx Hnode] Hdec. unfold scheduled. rewrite Hnode, Hdec.
  destruct (outputAudioContext (svc w)); [reflexivity | congruence].
Qed.

Lemma output_ready_resources (s1 s2 : Service) :
  resources s1 = resources s2 -> output_ready s2 -> output_ready s1.
Proof.
  unfold resources, output_ready. intros H. injection H as _ _ H1 _ _ _ H2.
  now rewrite H1, H2.
Qed.

Lemma output_ready_scheduled (s : Service) (c : Q) (a : list SourceId) (n : nat) :
  output_ready s ->
  output_ready (set_nextStartTime c (set_activeSources a (set_sourcesCreated n s))).
Proof. destruct s. exact (fun H => H). Qed.

Lemma caught_up_playback (s1 s2 : Service) (t : Q) :
  playback s1 = playback s2 -> caught_up s1 t = caught_up s2 t.
Proof.
  unfold playback, caught_up. intros H. injection H as H _ _. now rewrite H.
Qed.

Lemma start_times_transcripts (m : LiveServerMessage) :
  start_times (transcripts m) = [].
Proof. destruct m as [[i|] [o|] ? ? ?]; reflexivity. Qed.

Lemma start_times_app (l1 l2 : list Effect) :
  start_times (l1 ++ l2) = start_times l1 ++ start_times l2.
Proof.
  induction l1 as [|e l1 IH]; [reflexivity|].
  destruct e; cbn [List.app start_times]; rewrite IH; reflexivity.
Qed.

Lemma start_times_turn (b : bool) :
  start_times (if b then [OnTurnComplete] else []) = [].
Proof. now destruct b. Qed.

Lemma start_times_unmuted (b : bool) :
  start_times (if b then [] else [OnTurnComplete]) = [].
Proof. now destruct b. Qed.

(** One message that carries a decodable chunk and no interruption. *)
Lemma scheduled_message (imports : Imports) (w : World) (m : LiveServerMessage)
    (t : Q) (data : string) (buf : AudioBuffer) :
  output_ready (svc w) ->
  inlineData m = Some data -> truthy data = true ->
  decodeAudioData imports data = Some buf ->
  interrupted m = false ->
  let w' := run (handleMessage App_callbacks imports m t) w in
  let effs := effects (handleMessage App_callbacks imports m t) w in
  let start := caught_up (svc w) t in
  let source := sourcesCreated (svc w) in
  start_times effs = [start] /\
  In (SourceStart source start) effs /\
  nextStartTime (svc w') = (start + duration buf)%Q /\
  activeSources (svc w') = Set_add source (activeSources (svc w)) /\
  sourcesCreated (svc w') = S source /\
  output_ready (svc w').
Proof.
  intros Hready Hdata Htruthy Hdec Hint. cbv zeta.
  rewrite run_handleMessage, effects_handleMessage.
  unfold message_result, audio_result. rewrite Hdata, Htruthy, Hint.
  destruct (before_scheduling_frame m w) as (R & P & _).
  cbv zeta in R, P.
  set (w1 := if turnComplete m then end_user_turn w else w) in *.
  set (w2 := if isMicMuted (svc w1) then w1 else end_user_turn w1) in *.
  assert (Hready2 : output_ready (svc w2))
    by (eapply output_ready_resources; eassumption).
  rewrite (scheduled_decoded imports data t w2 buf Hready2 Hdec).
  rewrite (caught_up_playback _ _ t P).
  unfold playback in P. injection P as Pc Pa Pn. rewrite Pa, Pn.
  cbn [fst snd]. rewrite app_nil_r.
  rewrite !start_times_app, start_times_transcripts, start_times_turn,
    start_times_unmuted.
  refine (conj eq_refl (conj _ (conj eq_refl (conj eq_refl (conj eq_refl _))))).
  - rewrite !in_app_iff. right; right; right. now left.
  - now apply output_ready_scheduled.
Qed.

(** A run of schedulable messages does to the cursor, to the set and to the
    start times what [spec_schedule_all] says. *)
Lemma schedule_refines_spec (imports : Imports) (ms : list (LiveServerMessage * Q)) :
  forall w : World,
  output_ready (svc w) ->
  Forall (fun c => schedulable imports (fst c)) ms ->
  let w' := run (handle_all imports (messages_as_events ms)) w in
  (start_times (effects (handle_all imports (messages_as_events ms)) w),
   nextStartTime (svc w'), activeSources (svc w')) =
  spec_schedule_all (arrivals imports ms) (sourcesCreated (svc w))
    (nextStartTime (svc w)) (activeSources (svc w)) /\
  output_ready (svc w').
Proof.
  induction ms as [|[m t] ms IH]; intros w Hready Hall; cbv zeta.
  - split; [reflexivity | exact Hready].
  - inversion Hall as [|c cs Hm Hms]; subst. cbn [fst] in Hm.
    destruct Hm as (data & buf & Hdata & Htruthy & Hdec & Hint).
    change (messages_as_events ((m, t) :: ms))
      with (Message m t :: messages_as_events ms).
    rewrite run_handle_all_cons, effects_handle_all_cons. cbn [handle].
    destruct (scheduled_message imports w m t data buf Hready Hdata Htruthy Hdec Hint)
      as (Hstart & _ & Hcur & Hact & Hcreated & Hready').
    destruct (IH _ Hready' Hms) as (IHeq & IHready).
    split; [|exact IHready].
    rewrite start_times_app, Hstart.
    cbn [arrivals map spec_schedule_all fst snd spec_schedule].
    fold (arrivals imports ms).
    rewrite Hcur, Hact, Hcreated in IHeq.
    unfold chunk_duration at 1. rewrite Hdata, Hdec.
    unfold caught_up in IHeq.
    rewrite <- IHeq. reflexivity.
Qed.

Lemma spec_schedule_all_cursor_grows (chunks : list (Q * Q)) :
  forall (handle : SourceId) (cursor : Q) (active : list SourceId),
  Forall (fun c => (0 <= snd c)%Q) chunks ->
  (cursor <= snd (fst (spec_schedule_all chunks handle cursor active)))%Q.
Proof.
  induction chunks as [|[t d] chunks IH]; intros handle cursor active Hd.
  - apply Qle_refl.
  - inversion Hd as [|c cs Hd0 Hds]; subst. cbn [snd] in Hd0.
    cbn [spec_schedule_all spec_schedule].
    specialize (IH (S handle)
                  ((if Qlt_bool cursor t then t else cursor) + d)%Q
                  (Set_add handle active) Hds).
    destruct (spec_schedule_all chunks (S handle) _ _) as [[starts c] a].
    cbn [fst snd] in *.
    eapply Qle_trans; [|exact IH].
    destruct (Qlt_bool cursor t) eqn:E.
    + apply Qlt_bool_iff in E. lra.
    + lra.
Qed.

Lemma started_app (l1 l2 : list Effect) :
  started (l1 ++ l2) = started l1 ++ started l2.
Proof.
  induction l1 as [|e l1 IH]; [reflexivity|].
  destruct e; cbn [List.app started]; rewrite IH; reflexivity.
Qed.

Lemma no_start_time_no_start (l : list Effect) :
  start_times l = [] -> started l = [].
Proof.
  induction l as [|e l IH]; [reflexivity|].
  destruct e; cbn [start_times started]; try exact IH. discriminate.
Qed.

(** A trace with one start: its source is the one started. *)
Lemma started_single (l : list Effect) (id : SourceId) (t t0 : Q) :
  start_times l = [t0] -> In (SourceStart id t) l -> started l = [id].
Proof.
  induction l as [|e l IH]; [discriminate|].
  destruct e; cbn [start_times started In];
    try (intros H [E | Hin]; [discriminate E | now apply IH]).
  intros H [E | Hin].
  - injection E as -> _. injection H as _ H.
    now rewrite (no_start_time_no_start l H).
  - injection H as _ H. exfalso. clear IH.
    induction l as [|e l IH]; [contradiction|].
    destruct e; cbn [start_times In] in *;
      try (destruct Hin as [E | Hin]; [discriminate E | now apply IH]).
    discriminate.
Qed.

Lemma Set_add_iff (x id : SourceId) (l : list SourceId) :
  In id (Set_add x l) <-> In id l \/ id = x.
Proof.
  split.
  - unfold Set_add. destruct (existsb (Nat.eqb x) l); [now left|].
    rewrite in_app_iff. cbn [In]. intuition.
  - intros [H | ->]; [now apply Set_add_keeps | apply Set_add_In].
Qed.

(** A run of schedulable messages starts one new source per chunk, numbered
    in order from the count of sources created, and the Active Playback Set
    afterwards holds what it held and the sources started. *)
Lemma schedule_adds_handles (imports : Imports)
    (ms : list (LiveServerMessage * Q)) :
  forall w : World,
  output_ready (svc w) ->
  Forall (fun c => schedulable imports (fst c)) ms ->
  let w' := run (handle_all imports (messages_as_events ms)) w in
  let effs := effects (handle_all imports (messages_as_events ms)) w in
  started effs = seq (sourcesCreated (svc w)) (List.length ms) /\
  (forall id, In id (activeSources (svc w')) <->
              In id (activeSources (svc w)) \/ In id (started effs)).
Proof.
  induction ms as [|[m t] ms IH]; intros w Hready Hall; cbv zeta.
  - split; [reflexivity|]. cbn. intuition.
  - inversion Hall as [|c cs Hm Hms]; subst. cbn [fst] in Hm.
    destruct Hm as (data & buf & Hdata & Htruthy & Hdec & Hint).
    change (messages_as_events ((m, t) :: ms))
      with (Message m t :: messages_as_events ms).
    rewrite run_handle_all_cons, effects_handle_all_cons. cbn [handle].
    destruct (scheduled_message imports w m t data buf Hready Hdata Htruthy Hdec Hint)
      as (Hstart & Hin & _ & Hact & Hcreated & Hready').
    cbv zeta in Hstart, Hin, Hact, Hcreated, Hready'.
    pose proof (started_single _ _ _ _ Hstart Hin) as Hone.
    destruct (IH _ Hready' Hms) as (IHs & IHa). cbv zeta in IHs, IHa.
    rewrite started_app, Hone, IHs, Hcreated.
    split; [reflexivity|].
    intros id. rewrite IHa, IHs, Hcreated, Hact, Set_add_iff.
    cbn [List.app List.length seq In]. intuition.
Qed.

(** C4. For every sequence of successfully decoded chunks scheduled with no
    interruption, the code does what [schedule] says chunk after chunk: the
    cursor is first caught up to the playback clock if it is behind, the chunk
    starts at the cursor, its handle joins the Active Playback Set and the
    cursor advances by the chunk's duration.  Each chunk is started under a
    source of its own, and afterwards the set holds what it held before and
    the sources started.  The cursor never decreases along the sequence, and
    three chunks of durations d1, d2, d3 that arrive back to back (none after
    the cursor) start at s, s + d1, s + d1 + d2, where s is the clock time of
    the first call whenever the cursor was not ahead of it. *)
Theorem schedule_chunks_back_to_back
    (imports : Imports) (ms : list (LiveServerMessage * Q)) (w : World) :
  output_ready (svc w) ->
  Forall (fun c => schedulable imports (fst c)) ms ->
  Forall (fun c => (0 <= chunk_duration imports (fst c))%Q) ms ->
  let after (l : list (LiveServerMessage * Q)) :=
    run (handle_all imports (messages_as_events l)) w in
  let effs := effects (handle_all imports (messages_as_events ms)) w in
  let starts := start_times effs in
  (starts, nextStartTime (svc (after ms)), activeSources (svc (after ms))) =
    spec_schedule_all (arrivals imports ms) (sourcesCreated (svc w))
      (nextStartTime (svc w)) (activeSources (svc w)) /\
  started effs = seq (sourcesCreated (svc w)) (List.length ms) /\
  (forall id, In id (activeSources (svc (after ms))) <->
              In id (activeSources (svc w)) \/ In id (started effs)) /\
  (forall ms1 ms2, ms = ms1 ++ ms2 ->
     (nextStartTime (svc (after ms1)) <= nextStartTime (svc (after ms)))%Q) /\
  (forall m1 t1 m2 t2 m3 t3,
     ms = [(m1, t1); (m2, t2); (m3, t3)] ->
     let d1 := chunk_duration imports m1 in
     let d2 := chunk_duration imports m2 in
     let s := caught_up (svc w) t1 in
     (t2 <= s + d1)%Q -> (t3 <= s + d1 + d2)%Q ->
     starts = [s; (s + d1)%Q; (s + d1 + d2)%Q] /\
     ((nextStartTime (svc w) <= t1)%Q -> s == t1)).
Proof.
  intros Hready Hsched Hdur after effs starts.
  destruct (schedule_refines_spec imports ms w Hready Hsched) as (Hspec & _).
  destruct (schedule_adds_handles imports ms w Hready Hsched) as (Hnew & Hset).
  split; [exact Hspec|].
  split; [exact Hnew|].
  split; [exact Hset|]. split.
  - intros ms1 ms2 ->. subst after. cbv beta.
    apply Forall_app in Hsched. destruct Hsched as (Hs1 & Hs2).
    apply Forall_app in Hdur. destruct Hdur as (_ & Hd2).
    destruct (schedule_refines_spec imports ms1 w Hready Hs1) as (_ & Hready1).
    unfold messages_as_events at 2. rewrite map_app.
    fold (messages_as_events ms1) (messages_as_events ms2).
    rewrite run_handle_all_app.
    set (w1 := run (handle_all imports (messages_as_events ms1)) w) in *.
    destruct (schedule_refines_spec imports ms2 w1 Hready1 Hs2) as (Hspec2 & _).
    assert (Hgrow := spec_schedule_all_cursor_grows (arrivals imports ms2)
                       (sourcesCreated (svc w1)) (nextStartTime (svc w1))
                       (activeSources (svc w1))).
    rewrite <- Hspec2 in Hgrow. cbn [fst snd] in Hgrow. apply Hgrow.
    unfold arrivals. rewrite Forall_map. exact Hd2.
  - intros m1 t1 m2 t2 m3 t3 -> d1 d2 s H2 H3.
    cbn [arrivals map fst snd spec_schedule_all spec_schedule] in Hspec.
    fold d1 d2 in Hspec. fold (caught_up (svc w) t1) in Hspec. fold s in Hspec.
    assert (E2 : Qlt_bool (s + d1) t2 = false) by now apply Qlt_bool_false_iff.
    rewrite E2 in Hspec.
    assert (E3 : Qlt_bool (s + d1 + d2) t3 = false) by now apply Qlt_bool_false_iff.
    rewrite E3 in Hspec.
    split; [subst starts; now injection Hspec|].
    intros Hc. subst s. unfold caught_up.
    destruct (Qlt_bool (nextStartTime (svc w)) t1) eqn:E; [reflexivity|].
    apply Qlt_bool_false_iff in E. now apply Qle_antisym.
Qed.

Lemma scheduled_active (imports : Imports) (data : string) (t : Q) (w : World) :
  (forall id, In id (activeSources (svc w)) ->
              In id (activeSources (svc (fst (scheduled imports data t w))))) /\
  (forall id t0, In (SourceStart id t0) (snd (scheduled imports data t w)) ->
                 In id (activeSources (svc (fst (scheduled imports data t w))))).
Proof.
  unfold scheduled. open_world w. cbn [svc app].
  cbv [outputAudioContext outputNode].
  destruct f_outctx; [|now split].
  destruct f_outnode; [|now split].
  destruct (decodeAudioData imports data) as [buf|]; cbn; split.
  - intros id H. now apply Set_add_keeps.
  - intros id t0 [H|[]]. injection H as <- _. apply Set_add_In.
  - auto.
  - intros id t0 [H|[]]. discriminate H.
Qed.

Lemma audio_result_active (imports : Imports) (m : LiveServerMessage) (t : Q)
    (w : World) :
  (forall id, In id (activeSources (svc w)) ->
              In id (activeSources (svc (fst (audio_result imports m t w))))) /\
  (forall id t0, In (SourceStart id t0) (snd (audio_result imports m t w)) ->
                 In id (activeSources (svc (fst (audio_result imports m t w))))).
Proof.
  unfold audio_result. destruct (inlineData m) as [data|]; [|now split].
  destruct (truthy data); [|now split]. cbn [fst snd].
  destruct (isMicMuted (svc w)).
  - exact (scheduled_active imports data t w).
  - destruct (scheduled_active imports data t (end_user_turn w)) as (K & S).
    destruct (end_user_turn_frame w) as (_ & P & _).
    unfold playback in P. injection P as _ Pa _. rewrite Pa in K.
    split; [exact K|].
    intros id t0 [H|H]; [discriminate H | eauto].
Qed.

Lemma filter_transcripts_OnError (m : LiveServerMessage) :
  filter is_OnError (transcripts m) = [].
Proof. destruct m as [[i|] [o|] ? ? ?]; reflexivity. Qed.

Lemma filter_transcripts_OnStateChange (m : LiveServerMessage) :
  filter is_OnStateChange (transcripts m) = [].
Proof. destruct m as [[i|] [o|] ? ? ?]; reflexivity. Qed.

Lemma no_start_in_transcripts (m : LiveServerMessage) (id : SourceId) (t0 : Q) :
  ~ In (SourceStart id t0) (transcripts m).
Proof.
  destruct m as [[i|] [o|] ? ? ?]; cbn; intros H;
    repeat (destruct H as [H|H]; try discriminate H); exact H.
Qed.

Lemma stopped_app (l1 l2 : list Effect) :
  stopped (l1 ++ l2) = stopped l1 ++ stopped l2.
Proof.
  induction l1 as [|e l1 IH]; [reflexivity|].
  destruct e; cbn [List.app stopped]; rewrite IH; reflexivity.
Qed.

Lemma stopped_stops (l : list SourceId) : stopped (map SourceStop l) = l.
Proof. induction l as [|x l IH]; [reflexivity|]. cbn. now rewrite IH. Qed.

Lemma stopped_transcripts (m : LiveServerMessage) : stopped (transcripts m) = [].
Proof. destruct m as [[i|] [o|] ? ? ?]; reflexivity. Qed.

(** C5. A message with the interruption signal stops every handle that was
    in the Active Playback Set when the message arrived (and the handle of a
    chunk the same message scheduled), leaves the set empty and the cursor at
    0, whatever the set held; when the message carries no audio of its own
    this is exactly [spec_interrupt]. *)
Theorem interruption_flushes_playback
    (imports : Imports) (w : World) (m : LiveServerMessage) (t : Q) :
  interrupted m = true ->
  let w' := run (handleMessage App_callbacks imports m t) w in
  let effs := effects (handleMessage App_callbacks imports m t) w in
  (forall id, In id (activeSources (svc w)) -> In (SourceStop id) effs) /\
  (forall id t0, In (SourceStart id t0) effs -> In (SourceStop id) effs) /\
  activeSources (svc w') = [] /\
  nextStartTime (svc w') = 0%Q /\
  (has_audio m = false ->
   (stopped effs, nextStartTime (svc w'), activeSources (svc w')) =
   spec_interrupt (nextStartTime (svc w)) (activeSources (svc w))).
Proof.
  intros Hint. cbv zeta. rewrite run_handleMessage, effects_handleMessage.
  unfold message_result. rewrite Hint. cbn [fst snd svc].
  set (w1 := if turnComplete m then end_user_turn w else w).
  assert (Hact : activeSources (svc w1) = activeSources (svc w)).
  { subst w1. destruct (turnComplete m); [|reflexivity].
    destruct (end_user_turn_frame w) as (_ & P & _).
    unfold playback in P. now injection P. }
  destruct (audio_result_active imports m t w1) as (Hkeep & Hnew).
  rewrite Hact in Hkeep.
  set (a := audio_result imports m t w1) in *.
  split; [|split].
  - intros id Hid. rewrite !in_app_iff. do 3 right.
    apply in_map. now apply Hkeep.
  - intros id t0. rewrite !in_app_iff.
    intros [H|[H|[H|H]]].
    + now apply no_start_in_transcripts in H.
    + destruct (turnComplete m); cbn in H; [destruct H as [H|[]]; discriminate H | easy].
    + do 3 right. apply in_map. eapply Hnew. exact H.
    + apply in_map_iff in H. destruct H as (x & Hx & _). discriminate Hx.
  - assert (Hend : activeSources
                     (set_nextStartTime 0%Q (set_activeSources [] (svc (fst a))))
                   = [] /\
                   nextStartTime
                     (set_nextStartTime 0%Q (set_activeSources [] (svc (fst a))))
                   = 0%Q)
      by (generalize (svc (fst a)); intros s; destruct s; split; reflexivity).
    destruct Hend as (E1 & E2). rewrite E1, E2.
    split; [reflexivity|]. split; [reflexivity|].
    intros Hna. subst a. unfold audio_result, has_audio in *.
    destruct (inlineData m) as [data|]; [rewrite Hna|]; cbn [fst snd];
      rewrite !stopped_app, stopped_transcripts, stopped_stops, Hact;
      destruct (turnComplete m); reflexivity.
Qed.

(** C7 (amended). A chunk whose decoding fails is logged and skipped: no
    source is started, the Active Playback Set and the handle counter are
    unchanged, the cursor is not advanced by any duration and not reset; it is
    only caught up to the playback clock when it was behind, so that a chunk
    arriving later starts where it would have started anyway.  The Connection
    state and the user-visible error are untouched and no error or state
    notification is made. *)
Theorem failed_chunk_is_skipped
    (imports : Imports) (w : World) (m : LiveServerMessage) (t : Q)
    (data : string) :
  output_ready (svc w) ->
  inlineData m = Some data -> truthy data = true ->
  decodeAudioData imports data = None ->
  interrupted m = false ->
  let w' := run (handleMessage App_callbacks imports m t) w in
  let effs := effects (handleMessage App_callbacks imports m t) w in
  In (ConsoleError "Error decoding audio") effs /\
  start_times effs = [] /\
  nextStartTime (svc w') = caught_up (svc w) t /\
  (forall t', (t <= t')%Q -> caught_up (svc w') t' == caught_up (svc w) t') /\
  activeSources (svc w') = activeSources (svc w) /\
  sourcesCreated (svc w') = sourcesCreated (svc w) /\
  connectionState (app w') = connectionState (app w) /\
  error (app w') = error (app w) /\
  count is_OnError effs = 0%nat /\
  count is_OnStateChange effs = 0%nat.
Proof.
  intros Hready Hdata Htruthy Hdec Hint w' effs.
  assert (H : In (ConsoleError "Error decoding audio") effs /\
              start_times effs = [] /\
              nextStartTime (svc w') = caught_up (svc w) t /\
              activeSources (svc w') = activeSources (svc w) /\
              sourcesCreated (svc w') = sourcesCreated (svc w) /\
              connectionState (app w') = connectionState (app w) /\
              error (app w') = error (app w) /\
              count is_OnError effs = 0%nat /\
              count is_OnStateChange effs = 0%nat).
  { subst w' effs. rewrite run_handleMessage, effects_handleMessage.
    unfold message_result, audio_result. rewrite Hdata, Htruthy, Hint.
    destruct (before_scheduling_frame m w) as (R & P & L & _).
    cbv zeta in R, P, L.
    set (w1 := if turnComplete m then end_user_turn w else w) in *.
    set (w2 := if isMicMuted (svc w1) then w1 else end_user_turn w1) in *.
    assert (Hready2 : output_ready (svc w2))
      by (eapply output_ready_resources; eassumption).
    rewrite (scheduled_failed imports data t w2 Hready2 Hdec).
    rewrite (caught_up_playback _ _ t P).
    unfold playback in P. injection P as Pc Pa Pn.
    unfold link in L. injection L as Lc Le _.
    cbn [fst snd svc app]. rewrite app_nil_r.
    rewrite !start_times_app, start_times_transcripts, start_times_turn,
      start_times_unmuted.
    unfold count. rewrite !filter_app, !length_app.
    rewrite filter_transcripts_OnError, filter_transcripts_OnStateChange.
    refine (conj _ (conj eq_refl (conj _ (conj _ (conj _
              (conj Lc (conj Le (conj _ _)))))))).
    - rewrite !in_app_iff. do 3 right. now left.
    - now destruct (svc w2).
    - destruct (svc w2); exact Pa.
    - destruct (svc w2); exact Pn.
    - destruct (turnComplete m), (isMicMuted (svc w1)); reflexivity.
    - destruct (turnComplete m), (isMicMuted (svc w1)); reflexivity. }
  destruct H as (H1 & H2 & H3 & H4 & H5 & H6 & H7 & H8 & H9).
  repeat split; try assumption.
  intros t' Ht'. unfold caught_up at 1. rewrite H3.
  assert (Hc := caught_up_ge_clock (svc w) t).
  assert (Hc' := caught_up_ge_cursor (svc w) t).
  unfold caught_up at 3.
  destruct (Qlt_bool (caught_up (svc w) t) t') eqn:E1;
    destruct (Qlt_bool (nextStartTime (svc w)) t') eqn:E2;
    try reflexivity.
  - apply Qlt_bool_iff in E1. apply Qlt_bool_false_iff in E2. lra.
  - apply Qlt_bool_false_iff in E1. apply Qlt_bool_iff in E2.
    unfold caught_up in *.
    destruct (Qlt_bool (nextStartTime (svc w)) t) eqn:E3.
    + lra.
    + lra.
  - apply Qlt_bool_false_iff in E1. apply Qlt_bool_false_iff in E2.
    unfold caught_up in *.
    destruct (Qlt_bool (nextStartTime (svc w)) t) eqn:E3.
    + apply Qlt_bool_iff in E3. lra.
    + reflexivity.
Qed.

(** ** Teardown and the Capture Session *)

Lemma or_else_truthy (message : option string) (fallback : string) :
  truthy fallback = true -> truthy (or_else message fallback) = true.
Proof.
  intros H. unfold or_else. destruct message as [s|]; [|exact H].
  destruct (truthy s) eqn:E; assumption.
Qed.

(** What [disconnect] does, from any state. *)
Lemma disconnect_tears_down (w : World) :
  let w' := run (disconnect App_callbacks) w in
  effects (disconnect App_callbacks) w =
    close_job (svc w) ++ teardown_effects (svc w) ++
    [OnStateChange DISCONNECTED] /\
  torn_down (svc w') /\
  connectionState (app w') = DISCONNECTED /\
  error (app w') = error (app w).
Proof.
  unfold torn_down, teardown_effects, close_job. open_world w.
  exec_all; cbn [List.app]; rewrite ?app_nil_r;
    repeat split; try reflexivity; try discriminate;
    rewrite <- ?app_assoc; reflexivity.
Qed.

(** [handleClose] notifies and leaves the service as it is. *)
Lemma handleClose_keeps_service (w : World) :
  svc (run (handleClose App_callbacks) w) = svc w.
Proof. open_world w. now exec. Qed.

Lemma filter_app_both (f : Effect -> bool) (l1 l2 : list Effect) :
  filter f (l1 ++ l2) = filter f l1 ++ filter f l2.
Proof. apply filter_app. Qed.

Lemma teardown_has_no_job (s : Service) :
  filter is_session_job (teardown_effects s) = [] /\
  filter (fun e => negb (is_session_job e)) (teardown_effects s)
  = teardown_effects s.
Proof.
  unfold teardown_effects.
  assert (S1 : forall l, filter is_session_job (map SourceStop l) = []).
  { induction l as [|x l IH]; [reflexivity | exact IH]. }
  assert (S2 : forall l, filter (fun e => negb (is_session_job e))
                           (map SourceStop l) = map SourceStop l).
  { induction l as [|x l IH]; [reflexivity|]. cbn. now rewrite IH. }
  rewrite !filter_app, S1, S2.
  destruct (processor s), (inputSource s), (mediaStream s),
    (inputAudioContext s), (outputAudioContext s); split; reflexivity.
Qed.

Lemma close_job_is_job (s : Service) :
  filter is_session_job (close_job s) = close_job s /\
  filter (fun e => negb (is_session_job e)) (close_job s) = [].
Proof. unfold close_job. destruct (sessionPromise s); split; reflexivity. Qed.

Lemma no_job_filter (l : list Effect) :
  filter is_session_job l = [] ->
  filter (fun e => negb (is_session_job e)) l = l.
Proof.
  induction l as [|e l IH]; [reflexivity|]. cbn [filter].
  destruct (is_session_job e); [discriminate|].
  intros H. cbn [negb]. now rewrite IH.
Qed.

(** A step that does [before], then [disconnect]: the teardown and the
    notification come first, the close of the session last, if at all. *)
Lemma executed_disconnect (p : Settlement) (before : list Effect) (s : Service) :
  filter is_session_job before = [] ->
  executed p (before ++ close_job s ++ teardown_effects s ++
              [OnStateChange DISCONNECTED])
  = before ++ teardown_effects s ++ [OnStateChange DISCONNECTED] ++
    settled p (close_job s).
Proof.
  intros Hb. unfold executed.
  destruct (teardown_has_no_job s) as (T1 & T2).
  destruct (close_job_is_job s) as (C1 & C2).
  rewrite !filter_app, Hb, T1, T2, C1, C2, (no_job_filter before Hb).
  cbn [filter is_session_job negb List.app].
  now rewrite app_nil_r, <- !app_assoc.
Qed.

Lemma settled_close_job (p : Settlement) (s : Service) (e : Effect) :
  In e (settled p (close_job s)) ->
  (e = SessionClose /\ p = Fulfilled /\ sessionPromise s = true) \/
  (exists reason, e = ConsoleError reason /\ p = Rejected reason).
Proof.
  unfold close_job. destruct (sessionPromise s); [|now destruct p].
  destruct p as [| |reason]; cbn; intros H.
  - contradiction.
  - destruct H as [<- | []]. now left.
  - destruct H as [<- | []]. right. now exists reason.
Qed.

Lemma teardown_has_no_close (s : Service) : ~ In SessionClose (teardown_effects s).
Proof.
  intros H.
  assert (F : In SessionClose (filter is_session_job (teardown_effects s)))
    by (apply filter_In; now split).
  now rewrite (proj1 (teardown_has_no_job s)) in F.
Qed.

Lemma teardown_has_no_state (s : Service) (st : ConnectionState) :
  ~ In (OnStateChange st) (teardown_effects s).
Proof.
  unfold teardown_effects. rewrite !in_app_iff, in_map_iff.
  destruct (processor s), (inputSource s), (mediaStream s),
    (inputAudioContext s), (outputAudioContext s); cbn [In];
    intuition (try discriminate);
    match goal with H : exists _, _ |- _ => destruct H as (? & ? & _) end;
    discriminate.
Qed.

(** C2 (amended). On a transport error the handler first passes a
    descriptive message upward (the event's message, or a generic one when it
    has none), then tears down capture, playback and the contexts and drops
    the session promise, and last notifies the Connection state, which is
    [DISCONNECTED]: this path never notifies [ERROR].  The session itself is
    closed by the job handed to the session promise: after that notification
    when the promise is fulfilled, never when it rejects (the reason is
    logged) and not yet while it is pending.  On a transport close the
    Connection is notified [DISCONNECTED]. *)
Theorem transport_error_tears_down_and_disconnects
    (w : World) (message : option string) (p : Settlement) :
  let msg := or_else message "Connection error occurred." in
  let w1 := run (handleError App_callbacks message) w in
  let w2 := run (handleClose App_callbacks) w in
  let order := executed p (effects (handleError App_callbacks message) w) in
  order =
    ConsoleError "Gemini Live Error:" :: OnError msg ::
    teardown_effects (svc w) ++ [OnStateChange DISCONNECTED] ++
    (if sessionPromise (svc w)
     then match p with
          | Pending => []
          | Fulfilled => [SessionClose]
          | Rejected reason => [ConsoleError reason]
          end
     else []) /\
  (In SessionClose order -> p = Fulfilled /\ sessionPromise (svc w) = true) /\
  ~ In (OnStateChange ERROR) order /\
  truthy msg = true /\
  error (app w1) = Some msg /\
  torn_down (svc w1) /\
  connectionState (app w1) = DISCONNECTED /\
  effects (handleClose App_callbacks) w =
    [ConsoleLog "Gemini Live Closed"; OnStateChange DISCONNECTED] /\
  connectionState (app w2) = DISCONNECTED.
Proof.
  intros msg w1 w2 order.
  assert (Hmsg : truthy msg = true) by (apply or_else_truthy; reflexivity).
  assert (Hraw : effects (handleError App_callbacks message) w =
                 [ConsoleError "Gemini Live Error:"; OnError msg] ++
                 close_job (svc w) ++ teardown_effects (svc w) ++
                 [OnStateChange DISCONNECTED]
                 /\ error (app w1) = Some msg /\ torn_down (svc w1)
                 /\ connectionState (app w1) = DISCONNECTED).
  { subst w1. unfold handleError.
    change (or_else message "Connection error occurred.") with msg.
    clearbody msg.
    repeat (rewrite ?effects_bind, ?run_bind; cbv beta).
    set (w0 := run (call_onError App_callbacks msg)
                 (run (emit (ConsoleError "Gemini Live Error:")) w)).
    assert (Hsvc : svc w0 = svc w) by (subst w0; open_world w; now exec).
    assert (Herr : error (app w0) = Some msg)
      by (subst w0; open_world w; now exec).
    destruct (disconnect_tears_down w0) as (He & Ht & Hc & Her).
    rewrite He, Hsvc, Her, Herr.
    repeat split; try assumption; apply Ht. }
  destruct Hraw as (Hraw & Herr & Ht & Hc).
  assert (Horder : order =
            [ConsoleError "Gemini Live Error:"; OnError msg] ++
            teardown_effects (svc w) ++ [OnStateChange DISCONNECTED] ++
            settled p (close_job (svc w))).
  { subst order. rewrite Hraw. now apply executed_disconnect. }
  split.
  { rewrite Horder. cbn [List.app]. do 4 f_equal.
    unfold close_job. destruct (sessionPromise (svc w)); now destruct p. }
  split.
  { rewrite Horder, !in_app_iff. cbn [In].
    intros [[H | [H | []]] | [H | [[H | []] | H]]]; try discriminate.
    - now apply teardown_has_no_close in H.
    - apply settled_close_job in H as [(_ & -> & ->) | (reason & H & _)];
        [now split | discriminate]. }
  split.
  { rewrite Horder, !in_app_iff. cbn [In].
    intros [[H | [H | []]] | [H | [[H | []] | H]]]; try discriminate.
    - now apply teardown_has_no_state in H.
    - apply settled_close_job in H as [(H & _) | (reason & H & _)];
        discriminate. }
  repeat split; try assumption; apply Ht.
Qed.

(** ** Frames: what the stream handlers leave alone *)

Lemma scheduled_frame (imports : Imports) (data : string) (t : Q) (w : World) :
  let w' := fst (scheduled imports data t w) in
  resources (svc w') = resources (svc w) /\
  gate (svc w') = gate (svc w) /\
  app w' = app w.
Proof.
  unfold scheduled. open_world w. cbn [svc app].
  cbv [outputAudioContext outputNode].
  destruct f_outctx; [|now repeat split].
  destruct f_outnode; [|now repeat split].
  destruct (decodeAudioData imports data); now repeat split.
Qed.

Lemma end_user_turn_view (w : World) :
  turn_view (end_user_turn (end_user_turn w)) = turn_view (end_user_turn w).
Proof. now rewrite end_user_turn_idempotent. Qed.

Lemma end_user_turn_when_muted (w : World) :
  isMicMuted (svc w) = true -> isMicMuted (svc (end_user_turn w)) = true.
Proof.
  unfold end_user_turn. destruct (serviceRef (app w)); [|auto].
  intros _. now destruct (svc w).
Qed.

Lemma audio_result_frame (imports : Imports) (m : LiveServerMessage) (t : Q)
    (w : World) :
  let w' := fst (audio_result imports m t w) in
  resources (svc w') = resources (svc w) /\
  link (app w') = link (app w) /\
  lastSpeechTime (svc w') = lastSpeechTime (svc w) /\
  (isMicMuted (svc w) = true -> turn_view w' = turn_view w) /\
  (has_audio m = true -> isMicMuted (svc w) = false ->
   turn_view w' = turn_view (end_user_turn w)) /\
  (has_audio m = false -> w' = w).
Proof.
  unfold audio_result, has_audio. destruct (inlineData m) as [data|].
  2:{ cbn [fst]. repeat split; auto; discriminate. }
  destruct (truthy data).
  2:{ cbn [fst]. repeat split; auto; discriminate. }
  cbn [fst].
  destruct (isMicMuted (svc w)) eqn:Hm.
  - destruct (scheduled_frame imports data t w) as (R & G & A).
    cbv zeta in R, G, A. unfold turn_view, link. rewrite R, G, A.
    unfold gate in G. injection G as _ G _. rewrite G.
    repeat split; discriminate.
  - destruct (scheduled_frame imports data t (end_user_turn w)) as (R & G & A).
    destruct (end_user_turn_frame w) as (R' & _ & L' & T').
    cbv zeta in R, G, A. unfold turn_view, link. rewrite R, G, A.
    unfold gate in G. injection G as _ G _. rewrite G.
    repeat split; try discriminate; assumption.
Qed.

Lemma interruption_frame (s : Service) :
  resources (set_nextStartTime 0%Q (set_activeSources [] s)) = resources s /\
  gate (set_nextStartTime 0%Q (set_activeSources [] s)) = gate s.
Proof. destruct s. split; reflexivity. Qed.

Lemma turn_view_muted (w1 w2 : World) :
  turn_view w1 = turn_view w2 -> isMicMuted (svc w1) = isMicMuted (svc w2).
Proof. unfold turn_view, gate. intros H. now injection H. Qed.

Lemma message_result_frame (imports : Imports) (m : LiveServerMessage) (t : Q)
    (w : World) :
  let w' := fst (message_result imports m t w) in
  resources (svc w') = resources (svc w) /\
  link (app w') = link (app w) /\
  lastSpeechTime (svc w') = lastSpeechTime (svc w) /\
  (isMicMuted (svc w) = true -> isMicMuted (svc w') = true) /\
  (turnComplete m = true \/ (has_audio m = true /\ isMicMuted (svc w) = false) ->
   turn_view w' = turn_view (end_user_turn w)) /\
  (turnComplete m = false -> has_audio m = false ->
   isMicMuted (svc w') = isMicMuted (svc w)).
Proof.
  unfold message_result. cbn [fst].
  set (w1 := if turnComplete m then end_user_turn w else w).
  destruct (audio_result_frame imports m t w1) as (R & L & T & Vm & Va & Vn).
  cbv zeta in R, L, T, Vm, Va, Vn.
  set (w2 := fst (audio_result imports m t w1)) in *.
  assert (F : resources (svc w1) = resources (svc w) /\
              link (app w1) = link (app w) /\
              lastSpeechTime (svc w1) = lastSpeechTime (svc w)).
  { subst w1. destruct (turnComplete m); [|auto].
    destruct (end_user_turn_frame w) as (? & _ & ? & ?). auto. }
  destruct F as (R1 & L1 & T1).
  assert (W : resources (svc w2) = resources (svc w) /\
              link (app w2) = link (app w) /\
              lastSpeechTime (svc w2) = lastSpeechTime (svc w) /\
              (isMicMuted (svc w) = true -> isMicMuted (svc w2) = true) /\
              (turnComplete m = true \/
               (has_audio m = true /\ isMicMuted (svc w) = false) ->
               turn_view w2 = turn_view (end_user_turn w)) /\
              (turnComplete m = false -> has_audio m = false ->
               isMicMuted (svc w2) = isMicMuted (svc w))).
  { split; [congruence|]. split; [congruence|]. split; [congruence|].
    split; [|split].
    - intros Hm. rewrite (turn_view_muted _ _ (Vm ltac:(
        subst w1; destruct (turnComplete m);
        [now apply end_user_turn_when_muted | exact Hm]))).
      subst w1; destruct (turnComplete m);
        [now apply end_user_turn_when_muted | exact Hm].
    - intros [Htc | (Ha & Hm)].
      + subst w1. rewrite Htc in *.
        destruct (isMicMuted (svc (end_user_turn w))) eqn:E.
        * now apply Vm.
        * destruct (has_audio m) eqn:Ha.
          -- rewrite (Va eq_refl eq_refl). apply end_user_turn_view.
          -- now rewrite (Vn eq_refl).
      + subst w1. destruct (turnComplete m).
        * destruct (isMicMuted (svc (end_user_turn w))) eqn:E.
          -- now apply Vm.
          -- rewrite (Va Ha eq_refl). apply end_user_turn_view.
        * now apply Va.
    - intros Htc Ha. subst w1. rewrite Htc in *. now rewrite (Vn Ha). }
  destruct (interrupted m); [|exact W].
  destruct W as (W1 & W2 & W3 & W4 & W5 & W6).
  destruct (interruption_frame (svc w2)) as (IR & IG).
  cbn [svc app]. unfold turn_view in *. cbn [svc app].
  rewrite IR, IG.
  assert (IM : isMicMuted (set_nextStartTime 0%Q (set_activeSources [] (svc w2)))
               = isMicMuted (svc w2)) by now destruct (svc w2).
  assert (IT : lastSpeechTime (set_nextStartTime 0%Q (set_activeSources [] (svc w2)))
               = lastSpeechTime (svc w2)) by now destruct (svc w2).
  rewrite IM, IT. repeat split; assumption.
Qed.

(** ** Counting notifications *)

Lemma count_app (p : Effect -> bool) (l1 l2 : list Effect) :
  count p (l1 ++ l2) = (count p l1 + count p l2)%nat.
Proof. unfold count. now rewrite filter_app, length_app. Qed.

Lemma count_transcripts (m : LiveServerMessage) :
  count is_OnTurnComplete (transcripts m) = 0%nat.
Proof. destruct m as [[i|] [o|] ? ? ?]; reflexivity. Qed.

Lemma count_stops (l : list SourceId) :
  count is_OnTurnComplete (map SourceStop l) = 0%nat.
Proof. induction l as [|x l IH]; [reflexivity | exact IH]. Qed.

Lemma count_scheduled (imports : Imports) (data : string) (t : Q) (w : World) :
  count is_OnTurnComplete (snd (scheduled imports data t w)) = 0%nat.
Proof.
  unfold scheduled. destruct (outputAudioContext (svc w)); [|reflexivity].
  destruct (outputNode (svc w)); [|reflexivity].
  destruct (decodeAudioData imports data); reflexivity.
Qed.

(** How often one message raises the turn-complete notification: once for
    the turn-complete signal, once for an audio payload met with the gate
    open. *)
Lemma message_turn_completes (imports : Imports) (m : LiveServerMessage) (t : Q)
    (w : World) :
  let w1 := if turnComplete m then end_user_turn w else w in
  count is_OnTurnComplete (snd (message_result imports m t w)) =
  ((if turnComplete m then 1 else 0) +
   (if has_audio m && negb (isMicMuted (svc w1)) then 1 else 0))%nat.
Proof.
  unfold message_result. cbn [snd].
  set (w1 := if turnComplete m then end_user_turn w else w).
  rewrite !count_app, count_transcripts.
  assert (Hi : count is_OnTurnComplete
                 (if interrupted m
                  then map SourceStop
                         (activeSources (svc (fst (audio_result imports m t w1))))
                  else []) = 0%nat).
  { destruct (interrupted m); [apply count_stops | reflexivity]. }
  rewrite Hi, Nat.add_0_r. cbn [Nat.add].
  f_equal; [now destruct (turnComplete m)|].
  unfold audio_result, has_audio.
  destruct (inlineData m) as [data|]; [|reflexivity].
  destruct (truthy data); [|reflexivity].
  cbn [snd andb]. rewrite count_app, count_scheduled.
  now destruct (isMicMuted (svc w1)).
Qed.

(** ** The block handler, case by case *)

Lemma block_result_frame (imports : Imports) (inputData : list Q) (now : Z)
    (w : World) :
  let w' := fst (block_result imports inputData now w) in
  resources (svc w') = resources (svc w) /\ link (app w') = link (app w).
Proof.
  unfold block_result. destruct (isMicMuted (svc w)); [now split|].
  destruct (Qlt_bool SILENCE_THRESHOLD (rms_of imports inputData)).
  { cbn [fst svc app]. destruct (svc w), (app w). now split. }
  destruct (hasSpokenSinceLastTurn (svc w)
            && (SILENCE_DURATION_MS <? now - lastSpeechTime (svc w))).
  - cbn [fst].
    destruct (end_user_turn_frame
                (mkWorld (svc w) (set_volume (rms_of imports inputData) (app w))))
      as (R & _ & L & _).
    rewrite R, L. cbn [svc app]. destruct (app w). now split.
  - cbn [fst svc app]. destruct (app w). now split.
Qed.

(** A block above the threshold while the gate is open. *)
Lemma loud_block (imports : Imports) (inputData : list Q) (now : Z) (w : World) :
  isMicMuted (svc w) = false ->
  Qlt_bool SILENCE_THRESHOLD (rms_of imports inputData) = true ->
  let w' := fst (block_result imports inputData now w) in
  svc w' = set_hasSpokenSinceLastTurn true (set_lastSpeechTime now (svc w)) /\
  count is_OnTurnComplete (snd (block_result imports inputData now w)) = 0%nat.
Proof.
  intros Hm Hl. unfold block_result. rewrite Hm, Hl. cbn [fst snd svc].
  split; [reflexivity|]. now destruct (sessionPromise (svc w)).
Qed.

(** A silent block while the gate is open and the timeout has not passed. *)
Lemma quiet_block (imports : Imports) (inputData : list Q) (now : Z) (w : World) :
  isMicMuted (svc w) = false ->
  silent imports inputData ->
  hasSpokenSinceLastTurn (svc w) = false \/
    now - lastSpeechTime (svc w) <= SILENCE_DURATION_MS ->
  let w' := fst (block_result imports inputData now w) in
  svc w' = svc w /\
  count is_OnTurnComplete (snd (block_result imports inputData now w)) = 0%nat.
Proof.
  intros Hm Hs Hc. unfold block_result. rewrite Hm, Hs.
  assert (E : hasSpokenSinceLastTurn (svc w)
              && (SILENCE_DURATION_MS <? now - lastSpeechTime (svc w)) = false).
  { destruct Hc as [-> | Hc]; [reflexivity|].
    apply andb_false_iff. right. apply Z.ltb_ge. exact Hc. }
  rewrite E. cbn [fst snd svc].
  split; [reflexivity|]. now destruct (sessionPromise (svc w)).
Qed.

(** The silent block that arrives after the timeout. *)
Lemma timeout_block (imports : Imports) (inputData : list Q) (now : Z) (w : World) :
  isMicMuted (svc w) = false ->
  silent imports inputData ->
  hasSpokenSinceLastTurn (svc w) = true ->
  SILENCE_DURATION_MS < now - lastSpeechTime (svc w) ->
  block_result imports inputData now w =
  (end_user_turn (mkWorld (svc w) (set_volume (rms_of imports inputData) (app w))),
   [OnVolumeUpdate (rms_of imports inputData); OnTurnComplete]).
Proof.
  intros Hm Hs Hsp Ht. unfold block_result. rewrite Hm, Hs, Hsp.
  apply Z.ltb_lt in Ht. rewrite Ht. reflexivity.
Qed.

(** ** Events one by one *)

Lemma capture_of_resources (s1 s2 : Service) :
  resources s1 = resources s2 ->
  capture_session_exists s1 = capture_session_exists s2 /\
  delivers_blocks s1 = delivers_blocks s2.
Proof.
  unfold resources, capture_session_exists, delivers_blocks.
  intros H. injection H as _ _ _ H1 _ H2 _. now rewrite H1, H2.
Qed.

Lemma run_deliver_block (imports : Imports) (inputData : list Q) (now : Z)
    (w : World) :
  run (deliver_block App_callbacks imports inputData now) w =
  if delivers_blocks (svc w)
  then fst (block_result imports inputData now w) else w.
Proof.
  unfold run. rewrite deliver_block_run. now destruct (delivers_blocks (svc w)).
Qed.

Lemma effects_deliver_block (imports : Imports) (inputData : list Q) (now : Z)
    (w : World) :
  effects (deliver_block App_callbacks imports inputData now) w =
  if delivers_blocks (svc w)
  then snd (block_result imports inputData now w) else [].
Proof.
  unfold effects. rewrite deliver_block_run. now destruct (delivers_blocks (svc w)).
Qed.

Lemma event_keeps_resources (imports : Imports) (e : Event) (w : World) :
  keeps_capture e = true ->
  resources (svc (run (handle imports e) w)) = resources (svc w).
Proof.
  destruct e; cbn [keeps_capture handle]; try discriminate; intros _.
  - open_world w. exec_all; reflexivity.
  - open_world w. now exec.
  - open_world w. now exec.
  - rewrite run_handleMessage. apply message_result_frame.
  - rewrite run_deliver_block. destruct (delivers_blocks (svc w)); [|reflexivity].
    apply block_result_frame.
  - open_world w. now exec.
Qed.

Lemma handleError_keeps_gate (w : World) (message : option string) :
  isMicMuted (svc (run (handleError App_callbacks message) w)) = isMicMuted (svc w).
Proof.
  unfold handleError. repeat (rewrite run_bind; cbv beta).
  match goal with
  | |- context [run (disconnect App_callbacks) ?x] =>
      destruct (disconnect_keeps_gate x) as (_ & D & _); rewrite D
  end.
  open_world w. now exec.
Qed.

(** While the mute flag is set, an event that is neither an unmute nor a
    (re)connection leaves it set, and a block raises no notification. *)
Lemma event_keeps_muted (imports : Imports) (e : Event) (w : World) :
  may_unmute e = false ->
  isMicMuted (svc w) = true ->
  isMicMuted (svc (run (handle imports e) w)) = true /\
  (is_AudioProcess e = true ->
   count is_OnTurnComplete (effects (handle imports e) w) = 0%nat).
Proof.
  intros He Hm.
  destruct e; cbn [may_unmute handle is_AudioProcess] in *; try discriminate;
    (split; [|try discriminate]).
  - destruct (disconnect_keeps_gate w) as (_ & D & _). now rewrite D.
  - open_world w. now exec.
  - revert Hm. open_world w. exec_all; auto.
  - rewrite run_handleMessage. now apply message_result_frame.
  - now rewrite handleError_keeps_gate.
  - now rewrite handleClose_keeps_service.
  - destruct (muted_block imports w inputData now Hm) as (_ & S & _).
    now rewrite S.
  - intros _. destruct (muted_block imports w inputData now Hm) as (E & _).
    rewrite E. now destruct (delivers_blocks (svc w)).
  - revert Hm. open_world w. now exec.
Qed.

Lemma silence_turn_completes_app (l1 l2 : list (Event * list Effect)) :
  silence_turn_completes (l1 ++ l2) =
  (silence_turn_completes l1 + silence_turn_completes l2)%nat.
Proof.
  induction l1 as [|[e effs] l1 IH]; [reflexivity|].
  cbn [List.app silence_turn_completes]. rewrite IH. lia.
Qed.

(** Once muted, a run with no unmute and no (re)connection stays muted and
    its blocks raise no turn-complete notification. *)
Lemma muted_run (imports : Imports) (es : list Event) :
  forall w : World,
  isMicMuted (svc w) = true ->
  Forall (fun e => may_unmute e = false) es ->
  silence_turn_completes (effects_per_event imports es w) = 0%nat /\
  isMicMuted (svc (run (handle_all imports es) w)) = true.
Proof.
  induction es as [|e es IH]; intros w Hm Hes.
  - split; [reflexivity | exact Hm].
  - inversion Hes as [|e' es' He Hes']; subst.
    destruct (event_keeps_muted imports e w He Hm) as (Hm' & Hc).
    destruct (IH _ Hm' Hes') as (IHc & IHm).
    rewrite run_handle_all_cons. cbn [effects_per_event silence_turn_completes].
    rewrite IHc. split; [|exact IHm].
    destruct (is_AudioProcess e); [now rewrite Hc | reflexivity].
Qed.

(** ** The turn detector *)

(** A message with neither the turn-complete flag nor audio for an open
    gate leaves the turn as it is. *)
Lemma message_result_no_trigger (imports : Imports) (m : LiveServerMessage)
    (t : Q) (w : World) :
  turnComplete m = false ->
  has_audio m = false \/ isMicMuted (svc w) = true ->
  turn_view (fst (message_result imports m t w)) = turn_view w.
Proof.
  intros Htc H. unfold message_result. rewrite Htc. cbn [fst].
  destruct (audio_result_frame imports m t w) as (_ & _ & _ & Vm & _ & Vn).
  cbv zeta in Vm, Vn.
  assert (V : turn_view (fst (audio_result imports m t w)) = turn_view w).
  { destruct H as [H | H]; [now rewrite (Vn H) | now apply Vm]. }
  destruct (interrupted m); [|exact V].
  rewrite <- V. unfold turn_view. cbn [svc app].
  now destruct (interruption_frame (svc (fst (audio_result imports m t w))))
    as (_ & ->).
Qed.

(** Events within the silence leave the silence timer running: nothing is
    raised and the turn stays as it is. *)
Lemma silent_events_run (imports : Imports) (t0 : Z) (es : list Event) :
  forall w : World,
  listening_since t0 w ->
  Forall (within_silence imports t0) es ->
  listening_since t0 (run (handle_all imports es) w) /\
  silence_turn_completes (effects_per_event imports es w) = 0%nat.
Proof.
  induction es as [|e es IH]; intros w Hw Hes.
  - split; [exact Hw | reflexivity].
  - inversion Hes as [|e' es' He Hes']; subst.
    rewrite run_handle_all_cons.
    cbn [effects_per_event silence_turn_completes].
    assert (Step : listening_since t0 (run (handle imports e) w) /\
                   (if is_AudioProcess e
                    then count is_OnTurnComplete (effects (handle imports e) w)
                    else 0%nat) = 0%nat).
    { destruct Hw as (Hd & Hm & Hr & Hsp & Hl).
      destruct e as [| | | | | | |m t| | |inputData now|source];
        cbn [within_silence] in He; try contradiction;
        cbn [is_AudioProcess handle].
      - (* a server message *)
        destruct He as (Htc & Ha). split; [|reflexivity].
        rewrite run_handleMessage.
        destruct (message_result_frame imports m t w) as (R & L & _).
        pose proof (message_result_no_trigger imports m t w Htc (or_introl Ha))
          as V.
        cbv zeta in R, L.
        set (w' := fst (message_result imports m t w)) in *.
        destruct (capture_of_resources _ _ R) as (_ & D).
        unfold link in L. injection L as _ _ L.
        unfold turn_view, gate in V. injection V as V1 V2 V3 _ _.
        unfold listening_since. rewrite D, L, V1, V2, V3. auto.
      - (* a silent block *)
        destruct He as (Hs & Ht).
        rewrite run_deliver_block, effects_deliver_block, Hd.
        destruct (quiet_block imports inputData now w Hm Hs) as (Hsvc & Hc).
        { right. now rewrite Hl. }
        destruct (block_result_frame imports inputData now w) as (_ & L).
        cbv zeta in Hsvc, L.
        split; [|exact Hc].
        unfold listening_since. rewrite Hsvc.
        unfold link in L. injection L as _ _ L. rewrite L. auto.
      - (* a chunk that finishes *)
        split; [|reflexivity].
        revert Hd Hm Hr Hsp Hl. unfold listening_since.
        open_world w. exec. auto. }
    destruct Step as (Hw' & Hc).
    destruct (IH _ Hw' Hes') as (IHw & IHc).
    split; [exact IHw|]. now rewrite Hc, IHc.
Qed.

(** C1 (amended). The user speaks while unmuted (a block above the
    threshold at [t0]), then stays silent, with nothing handled in between but
    silent blocks, server messages that carry neither audio nor the
    turn-complete flag, and chunks that finish playing: the silent blocks that
    arrive up to [SILENCE_DURATION_MS] after [t0], the bound included, raise
    nothing, and the first silent block that arrives more than
    [SILENCE_DURATION_MS] after [t0] raises the turn-complete notification,
    once; the Mic Gate is muted by it, and as long as no unmute and no
    (re)connection intervenes, whatever else happens, no block raises the
    notification again. *)
Theorem silence_timeout_fires_once
    (imports : Imports) (w : World) (loud : list Q) (t0 : Z)
    (quiet : list Event) (last : list Q) (T : Z) (rest : list Event) :
  delivers_blocks (svc w) = true ->
  isMicMuted (svc w) = false ->
  serviceRef (app w) = true ->
  Qlt_bool SILENCE_THRESHOLD (rms_of imports loud) = true ->
  Forall (within_silence imports t0) quiet ->
  silent imports last ->
  SILENCE_DURATION_MS < T - t0 ->
  Forall (fun e => may_unmute e = false) rest ->
  let speaking := AudioProcess loud t0 :: quiet in
  let w1 := run (handle_all imports speaking) w in
  let w2 := run (handle imports (AudioProcess last T)) w1 in
  silence_turn_completes (effects_per_event imports speaking w) = 0%nat /\
  isMicMuted (svc w1) = false /\
  effects (handle imports (AudioProcess last T)) w1 =
    [OnVolumeUpdate (rms_of imports last); OnTurnComplete] /\
  silence_turn_completes
    (effects_per_event imports (speaking ++ [AudioProcess last T] ++ rest) w)
    = 1%nat /\
  isMicMuted (svc w2) = true /\ isMicOn (app w2) = false /\
  silence_turn_completes (effects_per_event imports rest w2) = 0%nat /\
  isMicMuted (svc (run (handle_all imports rest) w2)) = true.
Proof.
  intros Hd Hm Hr Hl Hq Hs HT Hrest speaking w1 w2.
  (* the loud block *)
  destruct (loud_block imports loud t0 w Hm Hl) as (Hsvc0 & Hc0).
  destruct (block_result_frame imports loud t0 w) as (R0 & L0).
  cbv zeta in Hsvc0, R0, L0.
  set (wa := fst (block_result imports loud t0 w)) in *.
  assert (Hwa : run (handle imports (AudioProcess loud t0)) w = wa).
  { cbn [handle]. now rewrite run_deliver_block, Hd. }
  assert (Hla : listening_since t0 wa).
  { unfold listening_since.
    destruct (capture_of_resources _ _ R0) as (_ & D). rewrite D.
    unfold link in L0. injection L0 as _ _ L0. rewrite L0, Hsvc0.
    destruct (svc w). cbn in *. auto. }
  (* the silent blocks within the timeout *)
  destruct (silent_events_run imports t0 quiet wa Hla Hq) as (Hl1 & Hc1).
  assert (Hw1 : w1 = run (handle_all imports quiet) wa).
  { subst w1 speaking. now rewrite run_handle_all_cons, Hwa. }
  assert (Hcs : silence_turn_completes (effects_per_event imports speaking w)
                = 0%nat).
  { subst speaking.
    cbn [effects_per_event silence_turn_completes is_AudioProcess handle].
    rewrite effects_deliver_block, Hd, Hc0.
    change (deliver_block App_callbacks imports loud t0)
      with (handle imports (AudioProcess loud t0)).
    rewrite Hwa, Hc1. reflexivity. }
  rewrite <- Hw1 in Hl1. destruct Hl1 as (Hd1 & Hm1 & Hr1 & Hsp1 & Hlast1).
  (* the block after the timeout *)
  assert (Hfire := timeout_block imports last T w1 Hm1 Hs Hsp1
                     ltac:(now rewrite Hlast1)).
  assert (He2 : effects (handle imports (AudioProcess last T)) w1 =
                [OnVolumeUpdate (rms_of imports last); OnTurnComplete]).
  { cbn [handle]. now rewrite effects_deliver_block, Hd1, Hfire. }
  assert (Hw2 : w2 = end_user_turn
                  (mkWorld (svc w1) (set_volume (rms_of imports last) (app w1)))).
  { subst w2. cbn [handle]. now rewrite run_deliver_block, Hd1, Hfire. }
  assert (Hm2 : isMicMuted (svc w2) = true /\ isMicOn (app w2) = false).
  { rewrite Hw2. unfold end_user_turn. cbn [svc app].
    assert (E : serviceRef (set_volume (rms_of imports last) (app w1)) = true)
      by (destruct (app w1); exact Hr1).
    rewrite E. cbn [svc app]. destruct (svc w1), (app w1). split; reflexivity. }
  destruct Hm2 as (Hm2 & Hon2).
  destruct (muted_run imports rest w2 Hm2 Hrest) as (Hc3 & Hm3).
  repeat split; try assumption.
  rewrite effects_per_event_app, silence_turn_completes_app, Hcs.
  fold w1. cbn [List.app effects_per_event silence_turn_completes is_AudioProcess].
  rewrite He2. fold w2. rewrite Hc3. reflexivity.
Qed.

(** ** Remote triggers of the end of the user's turn *)

Lemma at_most_once_from_audio (imports : Imports) (ms : list (LiveServerMessage * Q)) :
  forall w : World,
  serviceRef (app w) = true ->
  Forall (fun c => turnComplete (fst c) = false) ms ->
  (count is_OnTurnComplete
     (effects (handle_all imports (messages_as_events ms)) w)
   <= (if isMicMuted (svc w) then 0 else 1))%nat.
Proof.
  induction ms as [|[m t] ms IH]; intros w Hr Hms.
  - cbn. destruct (isMicMuted (svc w)); lia.
  - inversion Hms as [|c cs Htc Hms']; subst. cbn [fst] in Htc.
    change (messages_as_events ((m, t) :: ms))
      with (Message m t :: messages_as_events ms).
    rewrite effects_handle_all_cons, count_app. cbn [handle].
    rewrite run_handleMessage, effects_handleMessage, message_turn_completes.
    rewrite Htc. cbn [Nat.add].
    destruct (message_result_frame imports m t w) as (_ & L & _ & Hkeep & Hend & Hsame).
    cbv zeta in L, Hkeep, Hend, Hsame.
    set (w' := fst (message_result imports m t w)) in *.
    assert (Hr' : serviceRef (app w') = true).
    { unfold link in L. injection L as _ _ L. now rewrite L. }
    specialize (IH w' Hr' Hms').
    destruct (isMicMuted (svc w)) eqn:Hm.
    + rewrite (Hkeep eq_refl) in IH. rewrite andb_false_r. lia.
    + destruct (has_audio m) eqn:Ha; cbn [andb negb].
      * assert (Hm' : isMicMuted (svc w') = true).
        { rewrite (turn_view_muted _ _ (Hend (or_intror (conj eq_refl eq_refl)))).
          now apply end_user_turn_mutes. }
        rewrite Hm' in IH. lia.
      * rewrite (Hsame Htc eq_refl) in IH. lia.
Qed.

(** C6 (amended). With the App's wiring, a remote turn-complete signal
    always raises the end-of-user-turn notification, and an audio payload
    raises it when it meets the gate open (the code does not track the first
    payload of a turn); both end the user's turn in the same way, leaving the
    gate muted, and doing so again changes nothing.  Audio payloads alone
    raise it at most once until the gate is opened again; a turn-complete
    signal raises it whether or not the gate is already muted. *)
Theorem remote_triggers_end_user_turn (imports : Imports) (w : World) :
  serviceRef (app w) = true ->
  (forall m t,
     turnComplete m = true ->
     In OnTurnComplete (effects (handleMessage App_callbacks imports m t) w) /\
     turn_view (run (handleMessage App_callbacks imports m t) w) =
       turn_view (end_user_turn w)) /\
  (forall m t,
     has_audio m = true -> isMicMuted (svc w) = false ->
     In OnTurnComplete (effects (handleMessage App_callbacks imports m t) w) /\
     turn_view (run (handleMessage App_callbacks imports m t) w) =
       turn_view (end_user_turn w)) /\
  (forall m t,
     has_audio m = true -> turnComplete m = false -> isMicMuted (svc w) = true ->
     count is_OnTurnComplete
       (effects (handleMessage App_callbacks imports m t) w) = 0%nat /\
     isMicMuted (svc (run (handleMessage App_callbacks imports m t) w)) = true) /\
  isMicMuted (svc (end_user_turn w)) = true /\
  end_user_turn (end_user_turn w) = end_user_turn w /\
  (forall ms,
     Forall (fun c => turnComplete (fst c) = false) ms ->
     (count is_OnTurnComplete
        (effects (handle_all imports (messages_as_events ms)) w) <= 1)%nat).
Proof.
  intros Hr.
  assert (Hin : forall l, (0 < count is_OnTurnComplete l)%nat -> In OnTurnComplete l).
  { intros l. unfold count. intros H.
    destruct (filter is_OnTurnComplete l) as [|e l'] eqn:E; [cbn in H; lia|].
    assert (He : In e (filter is_OnTurnComplete l)) by (rewrite E; now left).
    apply filter_In in He. destruct He as (He & Hp). now destruct e. }
  split; [|split; [|split; [|split; [|split]]]].
  - intros m t Htc. rewrite run_handleMessage, effects_handleMessage. split.
    + apply Hin. rewrite message_turn_completes, Htc. lia.
    + apply message_result_frame. now left.
  - intros m t Ha Hm. rewrite run_handleMessage, effects_handleMessage. split.
    + apply Hin. rewrite message_turn_completes, Ha.
      destruct (turnComplete m); [lia|]. rewrite Hm. cbn. lia.
    + apply message_result_frame. now right.
  - intros m t Ha Htc Hm. rewrite run_handleMessage, effects_handleMessage. split.
    + rewrite message_turn_completes, Htc, Hm, andb_false_r. reflexivity.
    + now apply message_result_frame.
  - now apply end_user_turn_mutes.
  - apply end_user_turn_idempotent.
  - intros ms Hms.
    eapply Nat.le_trans; [apply at_most_once_from_audio; assumption|].
    destruct (isMicMuted (svc w)); lia.
Qed.

(** ** The Capture Session *)

Lemma handleOpen_starts_capture (w : World) :
  inputAudioContext (svc w) <> None ->
  mediaStream (svc w) = Some TracksLive ->
  capture_session_exists (svc (run (handleOpen App_callbacks) w)) = true /\
  delivers_blocks (svc (run (handleOpen App_callbacks) w)) = true /\
  connectionState (app (run (handleOpen App_callbacks) w)) = CONNECTED.
Proof.
  open_world w. cbn [svc inputAudioContext mediaStream]. intros Hc ->.
  destruct f_inctx; [|congruence]. exec. auto.
Qed.

Lemma gate_events_keep_capture (imports : Imports) (es : list Event) :
  forall w : World,
  Forall (fun e => keeps_capture e = true) es ->
  resources (svc (run (handle_all imports es) w)) = resources (svc w).
Proof.
  induction es as [|e es IH]; intros w Hes; [reflexivity|].
  inversion Hes as [|e' es' He Hes']; subst.
  rewrite run_handle_all_cons, IH by assumption.
  now apply event_keeps_resources.
Qed.

(** C8 (amended). The Capture Session is started by [handleOpen] once the
    input context and the microphone stream were acquired, and it is torn down
    by [disconnect]; muting and unmuting, by command or by the end of the
    user's turn, leave it as it is, as does any run of gate commands, captured
    blocks and server messages: while muted the block handler stays
    registered and gates each block. *)
Theorem capture_session_ignores_the_gate (imports : Imports) (w : World) :
  capture_session_exists (svc (run muteMic w)) = capture_session_exists (svc w) /\
  (forall now,
     capture_session_exists (svc (run (unmuteMic now) w)) =
     capture_session_exists (svc w)) /\
  capture_session_exists (svc (run handleTurnComplete w)) =
    capture_session_exists (svc w) /\
  (forall es,
     Forall (fun e => keeps_capture e = true) es ->
     capture_session_exists (svc (run (handle_all imports es) w)) =
     capture_session_exists (svc w)) /\
  (inputAudioContext (svc w) <> None ->
   mediaStream (svc w) = Some TracksLive ->
   capture_session_exists (svc (run (handleOpen App_callbacks) w)) = true /\
   connectionState (app (run (handleOpen App_callbacks) w)) = CONNECTED) /\
  capture_session_exists (svc (run (disconnect App_callbacks) w)) = false /\
  connectionState (app (run (disconnect App_callbacks) w)) = DISCONNECTED.
Proof.
  split; [|split; [|split; [|split; [|split; [|split]]]]].
  - apply capture_of_resources.
    exact (event_keeps_resources imports MuteMic w eq_refl).
  - intros now. apply capture_of_resources.
    exact (event_keeps_resources imports (UnmuteMic now) w eq_refl).
  - unfold run. rewrite handleTurnComplete_run. cbn [fst snd].
    apply capture_of_resources. apply end_user_turn_frame.
  - intros es Hes. apply capture_of_resources.
    now apply gate_events_keep_capture.
  - intros Hc Hs. destruct (handleOpen_starts_capture w Hc Hs) as (H1 & _ & H3).
    now split.
  - apply (disconnect_tears_down w).
  - apply (disconnect_tears_down w).
Qed.

(** ** The claims on explicit runs *)

Ltac each_element tac :=
  repeat (apply Forall_cons; [tac|]); apply Forall_nil.

(** After speech at 0 and silence observed up to 2500 ms, the bound
    included, nothing was raised and the gate is still open. *)
Lemma silence_of_exactly_the_duration_counterexample :
  let turn := [AudioProcess loud_samples 0; AudioProcess quiet_samples 1000;
               AudioProcess quiet_samples 2000;
               AudioProcess quiet_samples SILENCE_DURATION_MS] in
  Qlt_bool SILENCE_THRESHOLD (rms_of sample_imports loud_samples) = true /\
  silent sample_imports quiet_samples /\
  silence_turn_completes (effects_per_event sample_imports turn connected_World)
    = 0%nat /\
  ~ (silence_turn_completes (effects_per_event sample_imports turn connected_World)
       = 1%nat /\
     isMicMuted (svc (run (handle_all sample_imports turn) connected_World)) = true).
Proof.
  cbv zeta. split; [reflexivity|]. split; [reflexivity|]. split; [reflexivity|].
  intros [H _]. vm_compute in H. discriminate H.
Qed.

Lemma silence_timeout_fires_once_witness :
  silence_turn_completes
    (effects_per_event sample_imports
       ((AudioProcess loud_samples 1000 ::
         [AudioProcess quiet_samples 2000;
          Message (mkMessage (Some "hello"%string) None false None false) 0;
          SourceEnded 0%nat; AudioProcess quiet_samples 3500]) ++
        [AudioProcess quiet_samples 3501] ++
        [AudioProcess quiet_samples 9000; Message turn_complete_message 0;
         MuteMic; AudioProcess loud_samples 9500; Close])
       connected_World) = 1%nat.
Proof.
  refine (proj1 (proj2 (proj2 (proj2
    (silence_timeout_fires_once sample_imports connected_World loud_samples 1000
       [AudioProcess quiet_samples 2000;
        Message (mkMessage (Some "hello"%string) None false None false) 0;
        SourceEnded 0%nat; AudioProcess quiet_samples 3500]
       quiet_samples 3501
       [AudioProcess quiet_samples 9000; Message turn_complete_message 0;
        MuteMic; AudioProcess loud_samples 9500; Close]
       _ _ _ _ _ _ _ _))))).
  - reflexivity.
  - reflexivity.
  - reflexivity.
  - reflexivity.
  - apply Forall_cons; [split; [reflexivity | vm_compute; discriminate]|].
    apply Forall_cons; [split; reflexivity|].
    apply Forall_cons; [exact I|].
    apply Forall_cons; [split; [reflexivity | vm_compute; discriminate]|].
    apply Forall_nil.
  - reflexivity.
  - reflexivity.
  - each_element ltac:(reflexivity).
Defined.

(** A transport error on the connected App ends in [DISCONNECTED], never
    notifying [ERROR]; a transport close leaves the capture running. *)
Lemma transport_error_is_not_errored_counterexample :
  let w1 := run (handleError App_callbacks (Some "socket failure"%string))
              connected_World in
  let effs := effects (handleError App_callbacks (Some "socket failure"%string))
                connected_World in
  connectionState (app connected_World) = CONNECTED /\
  connectionState (app w1) = DISCONNECTED /\
  ~ connectionState (app w1) = ERROR /\
  ~ In (OnStateChange ERROR) effs /\
  ~ torn_down (svc (run (handleClose App_callbacks) connected_World)).
Proof.
  cbv zeta. split; [reflexivity|]. split; [reflexivity|].
  split; [vm_compute; discriminate|]. split.
  - vm_compute. intros H.
    repeat (destruct H as [H|H]; [discriminate H|]). exact H.
  - intros (H & _). vm_compute in H. discriminate H.
Qed.

(** A loud block delivered while muted does not reach the turn detector. *)
Lemma muted_block_skips_turn_detection_counterexample :
  let w' := run (handle sample_imports (AudioProcess loud_samples 5000))
              muted_World in
  isMicMuted (svc muted_World) = true /\
  delivers_blocks (svc muted_World) = true /\
  Qlt_bool SILENCE_THRESHOLD (rms_of sample_imports loud_samples) = true /\
  effects (handle sample_imports (AudioProcess loud_samples 5000)) muted_World
    = [OnVolumeUpdate 0%Q] /\
  ~ (lastSpeechTime (svc w') = 5000 /\ hasSpokenSinceLastTurn (svc w') = true).
Proof.
  cbv zeta. repeat (split; [reflexivity|]).
  intros (H & _). vm_compute in H. discriminate H.
Qed.

Lemma muted_blocks_report_zero_and_freeze_witness :
  effects_per_event sample_imports
    (blocks_as_events [(loud_samples, 5000); (quiet_samples, 9000)]) muted_World =
  map (fun e => (e, [OnVolumeUpdate 0%Q]))
    (blocks_as_events [(loud_samples, 5000); (quiet_samples, 9000)]).
Proof.
  refine (proj1 (muted_blocks_report_zero_and_freeze sample_imports
                   [(loud_samples, 5000); (quiet_samples, 9000)] muted_World _ _)).
  - reflexivity.
  - reflexivity.
Defined.

Lemma schedule_chunks_back_to_back_witness :
  let effs :=
    effects (handle_all sample_imports (messages_as_events sample_chunks))
      connected_World in
  let w' :=
    run (handle_all sample_imports (messages_as_events sample_chunks))
      connected_World in
  start_times effs =
  [caught_up (svc connected_World) (1 # 2);
   (caught_up (svc connected_World) (1 # 2)
    + chunk_duration sample_imports (audio_message "AAAA"))%Q;
   (caught_up (svc connected_World) (1 # 2)
    + chunk_duration sample_imports (audio_message "AAAA")
    + chunk_duration sample_imports (audio_message "BB"))%Q] /\
  started effs = [0; 1; 2]%nat /\
  (forall id, In id (activeSources (svc w')) <-> In id [0; 1; 2]%nat).
Proof.
  cbv zeta.
  destruct (schedule_chunks_back_to_back sample_imports sample_chunks
              connected_World) as (_ & Hnew & Hset & _ & Hthree).
  - split; [discriminate | reflexivity].
  - each_element ltac:(eexists; eexists; repeat split; reflexivity).
  - each_element ltac:(vm_compute; discriminate).
  - cbv zeta in Hnew, Hset, Hthree.
    refine (conj _ (conj Hnew _)).
    + refine (proj1 (Hthree _ _ _ _ _ _ eq_refl _ _));
        vm_compute; discriminate.
    + intros id. rewrite Hset, Hnew.
      change (activeSources (svc connected_World)) with (@nil SourceId).
      cbn [In seq List.length sample_chunks]. intuition.
Defined.

Lemma interruption_flushes_playback_witness :
  activeSources
    (svc (run (handleMessage App_callbacks sample_imports interrupted_message 2)
            playing_World)) = [] /\
  nextStartTime
    (svc (run (handleMessage App_callbacks sample_imports interrupted_message 2)
            playing_World)) = 0%Q.
Proof.
  destruct (interruption_flushes_playback sample_imports playing_World
              interrupted_message 2 eq_refl) as (_ & _ & H1 & H2 & _).
  exact (conj H1 H2).
Defined.

(** One remote turn, its audio first and its turn-complete signal last,
    raises the notification twice. *)
Lemma remote_turn_fires_twice_counterexample :
  let remote_turn := [(audio_message "AAAA", (1 # 2)%Q); (turn_complete_message, 1%Q)] in
  count is_OnTurnComplete
    (effects (handle_all sample_imports (messages_as_events remote_turn))
       connected_World) = 2%nat /\
  ~ (count is_OnTurnComplete
       (effects (handle_all sample_imports (messages_as_events remote_turn))
          connected_World) <= 1)%nat.
Proof.
  cbv zeta. split; [reflexivity|]. vm_compute. lia.
Qed.

Lemma remote_triggers_end_user_turn_witness :
  isMicMuted (svc (end_user_turn connected_World)) = true /\
  end_user_turn (end_user_turn connected_World) = end_user_turn connected_World.
Proof.
  destruct (remote_triggers_end_user_turn sample_imports connected_World eq_refl)
    as (_ & _ & _ & H1 & H2 & _).
  exact (conj H1 H2).
Defined.

(** A chunk that fails to decode while the cursor is behind the clock moves
    the cursor. *)
Lemma failed_chunk_moves_the_cursor_counterexample :
  let w' := run (handleMessage App_callbacks sample_imports (audio_message "!") 5)
              connected_World in
  decodeAudioData sample_imports "!" = None /\
  nextStartTime (svc connected_World) == 0 /\
  nextStartTime (svc w') == 5 /\
  ~ nextStartTime (svc w') == nextStartTime (svc connected_World).
Proof.
  cbv zeta. repeat (split; [reflexivity|]). vm_compute. discriminate.
Qed.

Lemma failed_chunk_is_skipped_witness :
  nextStartTime
    (svc (run (handleMessage App_callbacks sample_imports (audio_message "!") 5)
            connected_World)) =
  caught_up (svc connected_World) 5.
Proof.
  refine (proj1 (proj2 (proj2
    (failed_chunk_is_skipped sample_imports connected_World (audio_message "!") 5
       "!" _ _ _ _ _)))).
  - split; [discriminate | reflexivity].
  - reflexivity.
  - reflexivity.
  - reflexivity.
  - reflexivity.
Defined.

(** Reached by connecting, opening and pressing the mic button: the
    Capture Session exists, the Connection is [CONNECTED], the gate is
    muted. *)
Lemma capture_session_while_muted_counterexample :
  capture_session_exists (svc muted_World) = true /\
  connectionState (app muted_World) = CONNECTED /\
  isMicMuted (svc muted_World) = true /\
  ~ (capture_session_exists (svc muted_World) = true <->
     connectionState (app muted_World) = CONNECTED /\
     isMicMuted (svc muted_World) = false).
Proof.
  repeat (split; [reflexivity|]).
  intros [H _]. destruct (H eq_refl) as (_ & Hm). vm_compute in Hm. discriminate Hm.
Qed.

Lemma silence_timeout_block_is_not_sent_witness :
  effects (onaudioprocess App_callbacks sample_imports quiet_samples 3501)
    spoken_World =
  [OnVolumeUpdate (rms_of sample_imports quiet_samples); OnTurnComplete] /\
  count is_SendRealtimeInput
    (effects (onaudioprocess App_callbacks sample_imports quiet_samples 3501)
       spoken_World) = 0%nat.
Proof.
  apply (silence_timeout_block_is_not_sent sample_imports spoken_World
           quiet_samples 3501).
  vm_compute. right. left. reflexivity.
Defined.

(** ** More on the capture pipeline *)

(** X1. A delivered block above the silence threshold, met with the gate
    open, reports its RMS once, stamps [lastSpeechTime] with the current time,
    sets [hasSpokenSinceLastTurn], leaves the gate open, raises no
    turn-complete notification, and is sent exactly when a session exists. *)
Theorem speech_block_marks_the_turn
    (imports : Imports) (w : World) (inputData : list Q) (now : Z) :
  delivers_blocks (svc w) = true ->
  isMicMuted (svc w) = false ->
  Qlt_bool SILENCE_THRESHOLD (rms_of imports inputData) = true ->
  let w' := run (handle imports (AudioProcess inputData now)) w in
  effects (handle imports (AudioProcess inputData now)) w =
    OnVolumeUpdate (rms_of imports inputData) ::
    (if sessionPromise (svc w)
     then [SendRealtimeInput (createPcmBlob imports inputData)] else []) /\
  gate (svc w') = (false, now, true) /\
  volume (app w') = rms_of imports inputData /\
  playback (svc w') = playback (svc w) /\
  resources (svc w') = resources (svc w).
Proof.
  intros Hd Hm Hl. cbv zeta. cbn [handle].
  rewrite run_deliver_block, effects_deliver_block, Hd.
  unfold block_result. rewrite Hm, Hl. cbn [fst snd svc app].
  destruct (svc w), (app w). cbn in *. subst. repeat split.
Qed.

Lemma speech_block_marks_the_turn_witness :
  gate (svc (run (handle sample_imports (AudioProcess loud_samples 1000))
               connected_World)) = (false, 1000, true).
Proof.
  refine (proj1 (proj2
    (speech_block_marks_the_turn sample_imports connected_World loud_samples 1000
       _ _ _))); reflexivity.
Defined.

Lemma count_handle_all_cons (imports : Imports) (p : Effect -> bool) (e : Event)
    (es : list Event) (w : World) :
  count p (effects (handle_all imports (e :: es)) w) =
  (count p (effects (handle imports e) w) +
   count p (effects (handle_all imports es) (run (handle imports e) w)))%nat.
Proof. now rewrite effects_handle_all_cons, count_app. Qed.

(** Silent blocks met while the detector waits for speech change nothing in
    the service and raise nothing. *)
Lemma silent_blocks_while_awaiting (imports : Imports) (blocks : list (list Q * Z)) :
  forall w : World,
  awaiting_speech w ->
  Forall (fun b => silent imports (fst b)) blocks ->
  count is_OnTurnComplete
    (effects (handle_all imports (blocks_as_events blocks)) w) = 0%nat /\
  svc (run (handle_all imports (blocks_as_events blocks)) w) = svc w.
Proof.
  induction blocks as [|[inputData now] blocks IH]; intros w Hw Hb.
  - split; reflexivity.
  - inversion Hb as [|b bs Hs Hbs]; subst. cbn [fst] in Hs.
    destruct Hw as (Hm & Hsp).
    change (blocks_as_events ((inputData, now) :: blocks))
      with (AudioProcess inputData now :: blocks_as_events blocks).
    rewrite count_handle_all_cons, run_handle_all_cons. cbn [handle].
    rewrite run_deliver_block, effects_deliver_block.
    destruct (quiet_block imports inputData now w Hm Hs (or_introl Hsp))
      as (Hsvc & Hc).
    cbv zeta in Hsvc.
    destruct (delivers_blocks (svc w)).
    + destruct (IH (fst (block_result imports inputData now w))) as (IHc & IHs).
      * unfold awaiting_speech. now rewrite Hsvc.
      * exact Hbs.
      * rewrite Hc, IHc, IHs, Hsvc. split; reflexivity.
    + destruct (IH w (conj Hm Hsp) Hbs) as (IHc & IHs).
      rewrite IHc, IHs. split; reflexivity.
Qed.

(** X2. Unmuting re-arms the turn detector: after [unmuteMic] (and after
    the reset of [connect]), silence alone, however long it lasts and whatever
    was said before, never raises the turn-complete notification and never
    mutes the gate; the gate stays as the unmute left it. *)
Theorem unmute_rearms_the_turn_detector
    (imports : Imports) (w0 : World) (now : Z) (blocks : list (list Q * Z)) :
  Forall (fun b => silent imports (fst b)) blocks ->
  let es := blocks_as_events blocks in
  let w := run (unmuteMic now) w0 in
  let wc := run (connect_reset App_callbacks now) w0 in
  (count is_OnTurnComplete (effects (handle_all imports es) w) = 0%nat /\
   gate (svc (run (handle_all imports es) w)) = (false, now, false)) /\
  (count is_OnTurnComplete (effects (handle_all imports es) wc) = 0%nat /\
   gate (svc (run (handle_all imports es) wc)) = (false, now, false)).
Proof.
  intros Hb es w wc.
  assert (Hw : awaiting_speech w /\ gate (svc w) = (false, now, false)).
  { subst w. open_world w0. exec. repeat split. }
  assert (Hwc : awaiting_speech wc /\ gate (svc wc) = (false, now, false)).
  { subst wc. open_world w0. exec. repeat split. }
  destruct Hw as (Hw & Hg). destruct Hwc as (Hwc & Hgc).
  destruct (silent_blocks_while_awaiting imports blocks w Hw Hb) as (C & S).
  destruct (silent_blocks_while_awaiting imports blocks wc Hwc Hb) as (Cc & Sc).
  subst es. rewrite C, S, Cc, Sc, Hg, Hgc. repeat split.
Qed.

Lemma unmute_rearms_the_turn_detector_witness :
  count is_OnTurnComplete
    (effects
       (handle_all sample_imports
          (blocks_as_events [(quiet_samples, 20000); (quiet_samples, 90000)]))
       (run (unmuteMic 10000) spoken_World)) = 0%nat.
Proof.
  refine (proj1 (proj1
    (unmute_rearms_the_turn_detector sample_imports spoken_World 10000
       [(quiet_samples, 20000); (quiet_samples, 90000)] _))).
  each_element ltac:(reflexivity).
Defined.

Lemma count_volume_block (imports : Imports) (inputData : list Q) (now : Z)
    (w : World) :
  exists v rest,
    snd (block_result imports inputData now w) = OnVolumeUpdate v :: rest /\
    count is_OnVolumeUpdate rest = 0%nat /\
    v = (if isMicMuted (svc w) then 0%Q else rms_of imports inputData).
Proof.
  unfold block_result. destruct (isMicMuted (svc w)).
  - exists 0%Q, []. repeat split.
  - exists (rms_of imports inputData).
    destruct (Qlt_bool SILENCE_THRESHOLD (rms_of imports inputData));
      [|destruct (hasSpokenSinceLastTurn (svc w)
                  && (SILENCE_DURATION_MS <? now - lastSpeechTime (svc w)))];
      cbn [snd]; eexists; (split; [reflexivity|]); split; try reflexivity;
      destruct (sessionPromise (svc w)); reflexivity.
Qed.

(** X3. As long as the block handler is registered, every captured block
    yields exactly one volume update, made before anything else the block
    causes: 0 when the gate is muted, the block's RMS otherwise; a run of n
    blocks yields n volume updates. *)
Theorem every_block_reports_one_volume
    (imports : Imports) (blocks : list (list Q * Z)) :
  forall w : World,
  delivers_blocks (svc w) = true ->
  count is_OnVolumeUpdate
    (effects (handle_all imports (blocks_as_events blocks)) w) =
    List.length blocks /\
  (forall inputData now,
     exists v rest,
       effects (handle imports (AudioProcess inputData now)) w =
         OnVolumeUpdate v :: rest /\
       count is_OnVolumeUpdate rest = 0%nat /\
       v = (if isMicMuted (svc w) then 0%Q else rms_of imports inputData)).
Proof.
  induction blocks as [|[inputData now] blocks IH]; intros w Hd.
  - split; [reflexivity|]. intros inputData now. cbn [handle].
    rewrite effects_deliver_block, Hd. apply count_volume_block.
  - split.
    + change (blocks_as_events ((inputData, now) :: blocks))
        with (AudioProcess inputData now :: blocks_as_events blocks).
      rewrite count_handle_all_cons. cbn [handle].
      rewrite run_deliver_block, effects_deliver_block, Hd.
      destruct (count_volume_block imports inputData now w) as (v & rest & E & C & _).
      rewrite E. unfold count at 1. cbn [filter is_OnVolumeUpdate List.length].
      fold (count is_OnVolumeUpdate rest). rewrite C.
      destruct (block_result_frame imports inputData now w) as (R & _).
      destruct (capture_of_resources _ _ R) as (_ & D).
      destruct (IH (fst (block_result imports inputData now w))) as (IHc & _).
      { now rewrite D. }
      rewrite IHc. reflexivity.
    + intros inputData' now'. cbn [handle].
      rewrite effects_deliver_block, Hd. apply count_volume_block.
Qed.

Lemma every_block_reports_one_volume_witness :
  count is_OnVolumeUpdate
    (effects
       (handle_all sample_imports
          (blocks_as_events
             [(loud_samples, 100); (quiet_samples, 400); (quiet_samples, 2700)]))
       connected_World) = 3%nat.
Proof.
  refine (proj1
    (every_block_reports_one_volume sample_imports
       [(loud_samples, 100); (quiet_samples, 400); (quiet_samples, 2700)]
       connected_World _)).
  reflexivity.
Defined.

(** ** More on the session lifecycle *)

Lemma disconnect_run (w : World) :
  disconnect App_callbacks w =
  (tt,
   mkWorld (released (svc w)) (set_connectionState DISCONNECTED (app w)),
   close_job (svc w) ++ teardown_effects (svc w) ++
   [OnStateChange DISCONNECTED]).
Proof.
  unfold released, teardown_effects, close_job. open_world w.
  exec_all; cbn [option_map List.app]; rewrite <- ?app_assoc; reflexivity.
Qed.

Lemma connect_run (now : Z) (o : ConnectOutcome) (w : World) :
  connect App_callbacks now o w =
  let a0 := set_connectionState CONNECTING (app w) in
  let s1 := acquired o (reset_for_connect now (svc w)) in
  match o with
  | Connects => (tt, mkWorld s1 a0, [OnStateChange CONNECTING])
  | Throws _ message =>
      let msg := or_else message "Failed to connect to microphone or API." in
      (tt,
       mkWorld (released s1)
         (set_connectionState DISCONNECTED
            (set_connectionState ERROR (set_error (Some msg) a0))),
       [OnStateChange CONNECTING; ConsoleError "Connection failed:";
        OnError msg; OnStateChange ERROR] ++
       close_job s1 ++ teardown_effects s1 ++ [OnStateChange DISCONNECTED])
  end.
Proof.
  destruct o as [|at_step message].
  - open_world w. reflexivity.
  - unfold connect, connect_reset, connect_acquire.
    unfold bind, when, call_onStateChange, call_onError, emit, assign, setState, ret.
    cbn -[disconnect or_else teardown_effects close_job released].
    destruct at_step; cbn -[disconnect or_else teardown_effects close_job released];
      rewrite disconnect_run; open_world w; reflexivity.
Qed.

Lemma run_disconnect (w : World) :
  run (disconnect App_callbacks) w =
  mkWorld (released (svc w)) (set_connectionState DISCONNECTED (app w)).
Proof. unfold run. now rewrite disconnect_run. Qed.

Lemma effects_disconnect (w : World) :
  effects (disconnect App_callbacks) w =
  close_job (svc w) ++ teardown_effects (svc w) ++
  [OnStateChange DISCONNECTED].
Proof. unfold effects. now rewrite disconnect_run. Qed.

Lemma released_twice (s : Service) : released (released s) = released s.
Proof.
  destruct s as [? [?|] [?|] [?|] [?|] [?|] ? ? ? ? ? ? ?]; reflexivity.
Qed.

Lemma released_has_no_job (s : Service) : close_job (released s) = [].
Proof. now destruct s. Qed.

(** X4. [disconnect] is idempotent on the state: a second call leaves the
    service and the App as the first left them.  It hands no further close
    to the session promise and stops no source again; what it does again is
    to disconnect the processor and the input source, to stop the microphone
    track and to close both contexts, each if the object exists (their
    fields are never cleared), and to notify [DISCONNECTED]. *)
Theorem disconnect_is_idempotent (w : World) :
  let w1 := run (disconnect App_callbacks) w in
  let again := effects (disconnect App_callbacks) w1 in
  run (disconnect App_callbacks) w1 = w1 /\
  again =
    match processor (svc w) with Some _ => [ProcessorDisconnect] | None => [] end ++
    match inputSource (svc w) with Some _ => [InputSourceDisconnect] | None => [] end ++
    match mediaStream (svc w) with Some _ => [TrackStop] | None => [] end ++
    match inputAudioContext (svc w) with
    | Some _ => [ContextClose InputCtx] | None => [] end ++
    match outputAudioContext (svc w) with
    | Some _ => [ContextClose OutputCtx] | None => [] end ++
    [OnStateChange DISCONNECTED] /\
  (forall p, executed p again = again) /\
  connectionState (app w1) = DISCONNECTED.
Proof.
  cbv zeta. rewrite !run_disconnect, effects_disconnect. cbn [svc app].
  rewrite released_twice, released_has_no_job.
  split; [now destruct (app w)|].
  assert (E : teardown_effects (released (svc w)) ++ [OnStateChange DISCONNECTED]
              = match processor (svc w) with
                | Some _ => [ProcessorDisconnect] | None => [] end ++
                match inputSource (svc w) with
                | Some _ => [InputSourceDisconnect] | None => [] end ++
                match mediaStream (svc w) with
                | Some _ => [TrackStop] | None => [] end ++
                match inputAudioContext (svc w) with
                | Some _ => [ContextClose InputCtx] | None => [] end ++
                match outputAudioContext (svc w) with
                | Some _ => [ContextClose OutputCtx] | None => [] end ++
                [OnStateChange DISCONNECTED]).
  { unfold teardown_effects, released.
    cbn [activeSources processor inputSource mediaStream inputAudioContext
         outputAudioContext map].
    destruct (processor (svc w)), (inputSource (svc w)), (mediaStream (svc w)),
      (inputAudioContext (svc w)), (outputAudioContext (svc w)); reflexivity. }
  cbn [List.app]. split; [exact E|]. split; [|now destruct (app w)].
  intros p.
  pose proof (executed_disconnect p [] (released (svc w)) eq_refl) as X.
  rewrite released_has_no_job in X. cbn [List.app] in X.
  rewrite X. destruct p; cbn [settled map List.app]; reflexivity.
Qed.

(** X5. A [connect] that fails at any statement of its [try] block reports
    the failure and backs out: the notifications are Connecting, then the
    error message (the exception's, or a generic one), then Errored, then
    Disconnected; whatever had been acquired is released, the Connection is
    left Disconnected (not Errored) with the message kept for display, and the
    gate and cursor keep the values the call reset them to. *)
Theorem failed_connect_reports_and_backs_out
    (w : World) (now : Z) (at_step : ConnectStep) (message : option string) :
  let msg := or_else message "Failed to connect to microphone or API." in
  let w' := run (connect App_callbacks now (Throws at_step message)) w in
  let effs := effects (connect App_callbacks now (Throws at_step message)) w in
  filter (fun e => is_OnStateChange e || is_OnError e) effs =
    [OnStateChange CONNECTING; OnError msg; OnStateChange ERROR;
     OnStateChange DISCONNECTED] /\
  truthy msg = true /\
  connectionState (app w') = DISCONNECTED /\
  error (app w') = Some msg /\
  torn_down (svc w') /\
  gate (svc w') = (false, now, false) /\
  nextStartTime (svc w') = 0%Q.
Proof.
  cbv zeta. unfold run, effects. rewrite connect_run. cbn [fst snd svc app].
  set (msg := or_else message "Failed to connect to microphone or API.").
  assert (Hmsg : truthy msg = true) by (apply or_else_truthy; reflexivity).
  clearbody msg.
  set (s1 := acquired (Throws at_step message) (reset_for_connect now (svc w))).
  assert (Hg : gate s1 = (false, now, false) /\ nextStartTime s1 = 0%Q).
  { subst s1. destruct (svc w). destruct at_step; split; reflexivity. }
  clearbody s1. destruct Hg as (Hg & Hc).
  assert (Hf : filter (fun e => is_OnStateChange e || is_OnError e)
                 (close_job s1 ++ teardown_effects s1) = []).
  { unfold teardown_effects, close_job.
    rewrite !filter_app.
    destruct (sessionPromise s1), (processor s1), (inputSource s1),
      (mediaStream s1), (inputAudioContext s1), (outputAudioContext s1);
      cbn [filter is_OnStateChange is_OnError orb List.app];
      rewrite ?app_nil_r;
      induction (activeSources s1) as [|x l IH]; cbn; auto. }
  split.
  { cbn [List.app filter is_OnStateChange is_OnError orb].
    rewrite (app_assoc (close_job s1)), filter_app, Hf. reflexivity. }
  split; [exact Hmsg|].
  split; [now destruct (app w)|].
  split; [now destruct (app w)|].
  split.
  { unfold torn_down, released, capture_session_exists, delivers_blocks.
    cbn [sessionPromise mediaStream processor activeSources inputAudioContext
         outputAudioContext].
    destruct (mediaStream s1), (processor s1), (inputAudioContext s1),
      (outputAudioContext s1); cbn; repeat split; try reflexivity;
      discriminate. }
  split; [|exact Hc].
  rewrite <- Hg. reflexivity.
Qed.

Lemma toggleConnection_run (now : Z) (o : ConnectOutcome) (w : World) :
  toggleConnection now o w =
  match connectionState (app w) with
  | DISCONNECTED | ERROR =>
      connect App_callbacks now o
        (mkWorld new_GeminiLiveService
           (set_serviceRef true (set_error None (app w))))
  | _ =>
      let w1 := if serviceRef (app w)
                then mkWorld (released (svc w))
                       (set_connectionState DISCONNECTED (app w))
                else w in
      (tt,
       mkWorld (svc w1)
         (set_isMicOn false
            (set_volume 0%Q (set_connectionState DISCONNECTED (app w1)))),
       if serviceRef (app w)
       then close_job (svc w) ++ teardown_effects (svc w) ++
            [OnStateChange DISCONNECTED]
       else [])
  end.
Proof.
  unfold toggleConnection, bind at 1, react.
  destruct (connectionState (app w)) eqn:E.
  - unfold bind, setState, assign. cbn [svc app].
    destruct (connect App_callbacks now o _) as [[u w'] e]. reflexivity.
  - unfold bind, when, setState. destruct (serviceRef (app w)).
    + rewrite disconnect_run. cbn [svc app]. now rewrite app_nil_r.
    + reflexivity.
  - unfold bind, when, setState. destruct (serviceRef (app w)).
    + rewrite disconnect_run. cbn [svc app]. now rewrite app_nil_r.
    + reflexivity.
  - unfold bind, setState, assign. cbn [svc app].
    destruct (connect App_callbacks now o _) as [[u w'] e]. reflexivity.
Qed.

Lemma handleError_run (message : option string) (w : World) :
  handleError App_callbacks message w =
  let msg := or_else message "Connection error occurred." in
  (tt,
   mkWorld (released (svc w))
     (set_connectionState DISCONNECTED (set_error (Some msg) (app w))),
   ConsoleError "Gemini Live Error:" :: OnError msg ::
   close_job (svc w) ++ teardown_effects (svc w) ++
   [OnStateChange DISCONNECTED]).
Proof.
  unfold handleError, bind, emit, call_onError. cbn [onError App_callbacks].
  unfold bind, emit, setState. rewrite disconnect_run. reflexivity.
Qed.

Lemma sends_app (l1 l2 : list Effect) : sends (l1 ++ l2) = sends l1 ++ sends l2.
Proof.
  induction l1 as [|e l1 IH]; [reflexivity|].
  destruct e; cbn [List.app sends]; rewrite IH; reflexivity.
Qed.

Lemma sends_stops (l : list SourceId) : sends (map SourceStop l) = [].
Proof. induction l as [|x l IH]; [reflexivity | exact IH]. Qed.

Lemma sends_teardown (s : Service) :
  sends (close_job s ++ teardown_effects s) = [].
Proof.
  unfold teardown_effects, close_job. rewrite !sends_app, sends_stops.
  destruct (sessionPromise s), (processor s), (inputSource s), (mediaStream s),
    (inputAudioContext s), (outputAudioContext s); reflexivity.
Qed.

Lemma sends_disconnecting (s : Service) :
  sends (close_job s ++ teardown_effects s ++ [OnStateChange DISCONNECTED]) = [].
Proof. now rewrite app_assoc, sends_app, sends_teardown. Qed.

Lemma sends_message (imports : Imports) (m : LiveServerMessage) (t : Q) (w : World) :
  sends (snd (message_result imports m t w)) = [].
Proof.
  unfold message_result. cbn [snd]. rewrite !sends_app.
  assert (H1 : sends (transcripts m) = [])
    by (destruct m as [[i|] [o|] ? ? ?]; reflexivity).
  assert (H2 : forall w1, sends (snd (audio_result imports m t w1)) = []).
  { intros w1. unfold audio_result. destruct (inlineData m) as [data|]; [|reflexivity].
    destruct (truthy data); [|reflexivity]. cbn [snd]. rewrite sends_app.
    unfold scheduled.
    destruct (isMicMuted (svc w1)); cbn [sends List.app];
      match goal with
      | |- context [outputAudioContext (svc ?x)] =>
          destruct (outputAudioContext (svc x)); [|reflexivity];
          destruct (outputNode (svc x)); [|reflexivity]
      end;
      destruct (decodeAudioData imports data); reflexivity. }
  rewrite H1, H2.
  destruct (turnComplete m), (interrupted m); cbn [sends List.app];
    rewrite ?sends_stops; reflexivity.
Qed.

Lemma sends_connect (now : Z) (o : ConnectOutcome) (w : World) :
  sends (effects (connect App_callbacks now o) w) = [].
Proof.
  unfold effects. rewrite connect_run. destruct o; cbn [snd sends List.app].
  - reflexivity.
  - apply sends_disconnecting.
Qed.

(** Only a captured block makes the service send, and then that block. *)
Lemma event_sends (imports : Imports) (e : Event) (w : World) :
  sends (effects (handle imports e) w) = [] \/
  exists inputData now,
    e = AudioProcess inputData now /\
    sends (effects (handle imports e) w) = [createPcmBlob imports inputData] /\
    sessionPromise (svc w) = true /\ isMicMuted (svc w) = false.
Proof.
  destruct e; cbn [handle].
  - left. unfold effects. rewrite toggleConnection_run.
    destruct (connectionState (app w));
      try apply sends_connect; cbn [snd];
      destruct (serviceRef (app w)); try reflexivity;
      apply sends_disconnecting.
  - left. open_world w. exec_all; reflexivity.
  - left. apply sends_connect.
  - left. rewrite effects_disconnect. apply sends_disconnecting.
  - left. reflexivity.
  - left. reflexivity.
  - left. open_world w. exec_all; reflexivity.
  - left. rewrite effects_handleMessage. apply sends_message.
  - left. unfold effects. rewrite handleError_run. cbn [snd sends].
    apply sends_disconnecting.
  - left. reflexivity.
  - rewrite effects_deliver_block.
    destruct (delivers_blocks (svc w)); [|now left].
    unfold block_result. destruct (isMicMuted (svc w)); [now left|].
    destruct (Qlt_bool SILENCE_THRESHOLD (rms_of imports inputData));
      [|destruct (hasSpokenSinceLastTurn (svc w)
                  && (SILENCE_DURATION_MS <? now - lastSpeechTime (svc w)))];
      cbn [snd sends]; try (now left);
      destruct (sessionPromise (svc w)); cbn [sends]; try (now left);
      right; exists inputData, now; repeat split.
  - left. reflexivity.
Qed.

(** X6. Whatever happens in a run, the only payloads the service sends are
    captured blocks, each at most once and in the order captured: the sent
    payloads are the captured ones with some left out. *)
Theorem blocks_are_sent_in_capture_order (imports : Imports) (es : list Event) :
  forall w : World,
  subsequence (sends (effects (handle_all imports es) w)) (captured imports es).
Proof.
  induction es as [|e es IH]; intros w.
  - constructor.
  - rewrite effects_handle_all_cons, sends_app.
    specialize (IH (run (handle imports e) w)).
    destruct (event_sends imports e w)
      as [E | (inputData & now & -> & E & _)]; rewrite E; cbn [List.app].
    + destruct e; cbn [captured]; try exact IH. now constructor.
    + cbn [captured]. now constructor.
Qed.

Lemma session_of_resources (s1 s2 : Service) :
  resources s1 = resources s2 -> sessionPromise s1 = sessionPromise s2.
Proof. unfold resources. intros H. now injection H. Qed.

Lemma event_keeps_no_session (imports : Imports) (e : Event) (w : World) :
  connects e = false ->
  sessionPromise (svc w) = false ->
  sessionPromise (svc (run (handle imports e) w)) = false.
Proof.
  destruct e; cbn [connects handle]; try discriminate; intros _ Hs.
  - revert Hs. open_world w. exec_all; auto.
  - now rewrite run_disconnect.
  - revert Hs. open_world w. now exec.
  - revert Hs. open_world w. now exec.
  - revert Hs. open_world w. exec_all; auto.
  - rewrite run_handleMessage, <- Hs. apply session_of_resources.
    apply message_result_frame.
  - unfold run. now rewrite handleError_run.
  - now rewrite handleClose_keeps_service.
  - rewrite run_deliver_block. destruct (delivers_blocks (svc w)); [|exact Hs].
    rewrite <- Hs. apply session_of_resources. apply block_result_frame.
  - revert Hs. open_world w. now exec.
Qed.

(** X7. Without a session nothing is sent: from a state with no session
    (never connected, or after [disconnect] or a transport error) no run that
    lacks a (re)connection sends any audio, whatever blocks are captured and
    even if a late [onopen] registers the block handler again. *)
Theorem nothing_is_sent_without_a_session (imports : Imports) (es : list Event) :
  forall w : World,
  sessionPromise (svc w) = false ->
  Forall (fun e => connects e = false) es ->
  sends (effects (handle_all imports es) w) = [] /\
  sessionPromise (svc (run (handle_all imports es) w)) = false.
Proof.
  induction es as [|e es IH]; intros w Hs Hes.
  - split; [reflexivity | exact Hs].
  - inversion Hes as [|e' es' He Hes']; subst.
    rewrite effects_handle_all_cons, run_handle_all_cons, sends_app.
    destruct (IH _ (event_keeps_no_session imports e w He Hs) Hes') as (IHs & IHp).
    rewrite IHs, IHp, app_nil_r. split; [|reflexivity].
    destruct (event_sends imports e w) as [E | (? & ? & _ & _ & Hp & _)];
      [exact E | congruence].
Qed.

Lemma nothing_is_sent_without_a_session_witness :
  sends
    (effects
       (handle_all sample_imports
          [Open; AudioProcess loud_samples 100; Message turn_complete_message 0;
           UnmuteMic 200; AudioProcess loud_samples 300])
       (run (disconnect App_callbacks) connected_World)) = [].
Proof.
  refine (proj1
    (nothing_is_sent_without_a_session sample_imports
       [Open; AudioProcess loud_samples 100; Message turn_complete_message 0;
        UnmuteMic 200; AudioProcess loud_samples 300]
       (run (disconnect App_callbacks) connected_World) _ _)).
  - reflexivity.
  - each_element ltac:(reflexivity).
Defined.

Lemma handleOpen_run (w : World) :
  handleOpen App_callbacks w =
  (tt,
   mkWorld
     (match inputAudioContext (svc w), mediaStream (svc w) with
      | Some _, Some _ =>
          set_processor (Some (mkProcessor true true))
            (set_inputSource (Some SourceConnected) (svc w))
      | _, _ => svc w
      end)
     (set_isMicOn true (set_connectionState CONNECTED (app w))),
   [OnStateChange CONNECTED]).
Proof. open_world w. exec_all; reflexivity. Qed.

(** X8. Starting a session from idle: pressing the connect button while
    Disconnected or Errored clears the displayed error, makes a fresh service
    and leaves the App Connecting with the session and the microphone acquired
    but no block handler yet; the session's [onopen] then makes it Connected
    with the Capture Session running, the mic indicator on, the gate open and
    armed at the time of the press, and an empty playback schedule. *)
Theorem connecting_then_open_starts_capture (w : World) (now : Z) :
  connectionState (app w) = DISCONNECTED \/ connectionState (app w) = ERROR ->
  let w1 := run (toggleConnection now Connects) w in
  let w2 := run (handleOpen App_callbacks) w1 in
  effects (toggleConnection now Connects) w = [OnStateChange CONNECTING] /\
  (connectionState (app w1) = CONNECTING /\ error (app w1) = None /\
   serviceRef (app w1) = true /\ isMicOn (app w1) = isMicOn (app w) /\
   sessionPromise (svc w1) = true /\ mediaStream (svc w1) = Some TracksLive /\
   capture_session_exists (svc w1) = false /\ delivers_blocks (svc w1) = false) /\
  (connectionState (app w2) = CONNECTED /\ isMicOn (app w2) = true /\
   capture_session_exists (svc w2) = true /\ delivers_blocks (svc w2) = true /\
   output_ready (svc w2) /\
   gate (svc w2) = (false, now, false) /\ playback (svc w2) = (0%Q, [], 0%nat)).
Proof.
  intros Hc. cbv zeta.
  assert (E : toggleConnection now Connects w =
              (tt,
               mkWorld (acquired Connects (reset_for_connect now new_GeminiLiveService))
                 (set_connectionState CONNECTING
                    (set_serviceRef true (set_error None (app w)))),
               [OnStateChange CONNECTING])).
  { rewrite toggleConnection_run. destruct Hc as [-> | ->]; now rewrite connect_run. }
  assert (R : run (toggleConnection now Connects) w =
              mkWorld (acquired Connects (reset_for_connect now new_GeminiLiveService))
                (set_connectionState CONNECTING
                   (set_serviceRef true (set_error None (app w)))))
    by (unfold run; now rewrite E).
  assert (F : effects (toggleConnection now Connects) w = [OnStateChange CONNECTING])
    by (unfold effects; now rewrite E).
  rewrite R, F. unfold run. rewrite handleOpen_run.
  destruct (app w) as [st mic vol err ref]. cbn.
  repeat split; try reflexivity; discriminate.
Qed.

Lemma connecting_then_open_starts_capture_witness :
  capture_session_exists
    (svc (run (handleOpen App_callbacks)
            (run (toggleConnection 5 Connects) initial_World))) = true.
Proof.
  destruct (connecting_then_open_starts_capture initial_World 5 (or_introl eq_refl))
    as (_ & _ & _ & _ & H & _).
  exact H.
Defined.

(** X9. Ending a session: pressing the connect button while Connecting or
    Connected stops capture and every scheduled source, closes the contexts,
    drops the session promise and notifies Disconnected once; the App is left
    Disconnected with volume 0 and the mic indicator off, and the gate and the
    cursor of the service are not reset.  The session itself is closed by the
    job handed to the session promise: after the notification when the
    promise is fulfilled, never when it rejects. *)
Theorem toggle_while_connected_disconnects
    (w : World) (now : Z) (o : ConnectOutcome) (p : Settlement) :
  connectionState (app w) = CONNECTED \/ connectionState (app w) = CONNECTING ->
  serviceRef (app w) = true ->
  let w' := run (toggleConnection now o) w in
  let order := executed p (effects (toggleConnection now o) w) in
  order =
    teardown_effects (svc w) ++ [OnStateChange DISCONNECTED] ++
    (if sessionPromise (svc w)
     then match p with
          | Pending => []
          | Fulfilled => [SessionClose]
          | Rejected reason => [ConsoleError reason]
          end
     else []) /\
  (In SessionClose order -> p = Fulfilled /\ sessionPromise (svc w) = true) /\
  torn_down (svc w') /\
  connectionState (app w') = DISCONNECTED /\
  volume (app w') = 0%Q /\ isMicOn (app w') = false /\
  gate (svc w') = gate (svc w) /\
  nextStartTime (svc w') = nextStartTime (svc w).
Proof.
  intros Hc Hr. cbv zeta.
  assert (Horder : executed p (effects (toggleConnection now o) w) =
            teardown_effects (svc w) ++ [OnStateChange DISCONNECTED] ++
            settled p (close_job (svc w))).
  { unfold effects. rewrite toggleConnection_run.
    destruct Hc as [-> | ->]; rewrite Hr; cbn [snd];
      exact (executed_disconnect p [] (svc w) eq_refl). }
  split.
  { rewrite Horder. do 2 f_equal.
    unfold close_job. destruct (sessionPromise (svc w)); now destruct p. }
  split.
  { rewrite Horder, !in_app_iff. cbn [In].
    intros [H | [[H | []] | H]]; try discriminate.
    - now apply teardown_has_no_close in H.
    - apply settled_close_job in H as [(_ & -> & ->) | (reason & H & _)];
        [now split | discriminate]. }
  unfold run. rewrite toggleConnection_run.
  destruct Hc as [-> | ->]; rewrite Hr; cbn [fst snd svc app];
    (split; [|destruct (app w); repeat split]);
    unfold torn_down, released, capture_session_exists, delivers_blocks;
    cbn [sessionPromise mediaStream processor activeSources inputAudioContext
         outputAudioContext];
    destruct (mediaStream (svc w)), (processor (svc w)),
      (inputAudioContext (svc w)), (outputAudioContext (svc w));
    cbn; repeat split; try reflexivity; discriminate.
Qed.

Lemma toggle_while_connected_disconnects_witness :
  executed Fulfilled (effects (toggleConnection 9 Connects) playing_World)
  = teardown_effects (svc playing_World) ++
    [OnStateChange DISCONNECTED; SessionClose]
  /\ connectionState (app (run (toggleConnection 9 Connects) playing_World))
     = DISCONNECTED.
Proof.
  destruct (toggle_while_connected_disconnects playing_World 9 Connects
              Fulfilled (or_introl eq_refl) eq_refl) as (H1 & _ & _ & H & _).
  split; [exact H1 | exact H].
Defined.

(** X10. [onopen] without the means to stream: when the input context or
    the microphone stream is missing, [handleOpen] still notifies Connected
    (and the mic indicator turns on) but registers no block handler and leaves
    the service untouched. *)
Theorem open_without_microphone_starts_nothing (w : World) :
  inputAudioContext (svc w) = None \/ mediaStream (svc w) = None ->
  let w' := run (handleOpen App_callbacks) w in
  svc w' = svc w /\
  connectionState (app w') = CONNECTED /\ isMicOn (app w') = true /\
  effects (handleOpen App_callbacks) w = [OnStateChange CONNECTED].
Proof.
  intros H. cbv zeta. unfold run, effects. rewrite handleOpen_run.
  cbn [fst snd svc app].
  split; [|destruct (app w); repeat split].
  destruct H as [-> | ->]; [reflexivity|].
  now destruct (inputAudioContext (svc w)).
Qed.

Lemma open_without_microphone_starts_nothing_witness :
  svc (run (handleOpen App_callbacks) initial_World) = svc initial_World.
Proof.
  exact (proj1 (open_without_microphone_starts_nothing initial_World
                  (or_introl eq_refl))).
Defined.

(** X11. The microphone button does nothing at all unless the App shows
    CONNECTED and holds a service: no state changes and nothing is
    observed. *)
Theorem mic_button_needs_a_connection (w : World) (now : Z) :
  connectionState (app w) <> CONNECTED \/ serviceRef (app w) = false ->
  handleMicToggle now w = (tt, w, []).
Proof.
  open_world w. cbn [app svc connectionState serviceRef].
  intros [H | ->]; exec.
  - destruct u_ref; [|reflexivity]. destruct u_state; try reflexivity.
    now elim H.
  - reflexivity.
Qed.

Lemma mic_button_needs_a_connection_witness :
  handleMicToggle 5 initial_World = (tt, initial_World, []).
Proof.
  apply mic_button_needs_a_connection. left. discriminate.
Defined.

(** X12. While connected with the microphone on, the button mutes the gate
    and clears the turn detector, and a second press opens the gate again
    with the turn timer restarted at that press; devices, session and
    playback stay as they were. *)
Theorem mic_button_mutes_then_unmutes (w : World) (now t : Z) :
  connectionState (app w) = CONNECTED -> serviceRef (app w) = true ->
  isMicOn (app w) = true ->
  let w1 := run (handleMicToggle now) w in
  let w2 := run (handleMicToggle t) w1 in
  isMicMuted (svc w1) = true /\ isMicOn (app w1) = false /\
  hasSpokenSinceLastTurn (svc w1) = false /\
  gate (svc w2) = (false, t, false) /\ isMicOn (app w2) = true /\
  resources (svc w2) = resources (svc w) /\ playback (svc w2) = playback (svc w).
Proof.
  open_world w. cbn [app svc connectionState serviceRef isMicOn].
  intros -> -> ->. exec. repeat split.
Qed.

Lemma mic_button_mutes_then_unmutes_witness :
  let w1 := run (handleMicToggle 10) spoken_World in
  let w2 := run (handleMicToggle 20) w1 in
  isMicMuted (svc w1) = true /\ isMicOn (app w1) = false /\
  hasSpokenSinceLastTurn (svc w1) = false /\
  gate (svc w2) = (false, 20, false) /\ isMicOn (app w2) = true /\
  resources (svc w2) = resources (svc spoken_World) /\
  playback (svc w2) = playback (svc spoken_World).
Proof.
  apply (mic_button_mutes_then_unmutes spoken_World 10 20); reflexivity.
Defined.

(** ** More on the gate and its indicator *)

Lemma block_keeps_sync (imports : Imports) (inputData : list Q) (now : Z)
    (w : World) :
  indicator_in_sync w ->
  indicator_in_sync (fst (block_result imports inputData now w)).
Proof.
  unfold indicator_in_sync, block_result, end_user_turn. open_world w.
  cbn [svc app connectionState serviceRef isMicOn isMicMuted
       hasSpokenSinceLastTurn lastSpeechTime set_volume].
  intros (-> & -> & ->).
  destruct f_muted; [now repeat split|].
  destruct (Qlt_bool SILENCE_THRESHOLD (rms_of imports inputData));
    [now repeat split|].
  destruct (f_spoken && (SILENCE_DURATION_MS <? now - f_last));
    now repeat split.
Qed.

Lemma event_keeps_sync (imports : Imports) (e : Event) (w : World) :
  in_conversation e = true ->
  indicator_in_sync w ->
  indicator_in_sync (run (handle imports e) w).
Proof.
  destruct e; cbn [in_conversation handle]; try discriminate; intros _ Hw.
  - revert Hw. unfold indicator_in_sync. open_world w.
    cbn [svc app connectionState serviceRef isMicOn isMicMuted].
    intros (-> & -> & ->). destruct f_muted; exec; repeat split.
  - rewrite run_handleMessage.
    destruct Hw as (Hc & Hr & Hi).
    destruct (message_result_frame imports m currentTime w)
      as (_ & L & _ & _ & Hend & _).
    cbv zeta in L, Hend.
    set (w' := fst (message_result imports m currentTime w)) in *.
    unfold link in L. injection L as Lc _ Lr.
    unfold indicator_in_sync. rewrite Lc, Lr.
    split; [exact Hc|]. split; [exact Hr|].
    assert (Hsync : forall w1 w2 : World,
              turn_view w1 = turn_view w2 ->
              isMicOn (app w2) = negb (isMicMuted (svc w2)) ->
              isMicOn (app w1) = negb (isMicMuted (svc w1))).
    { intros w1 w2 V. unfold turn_view, gate in V. injection V as -> _ _ -> _.
      auto. }
    assert (Hended : isMicOn (app (end_user_turn w))
                     = negb (isMicMuted (svc (end_user_turn w)))).
    { unfold end_user_turn. rewrite Hr. cbn [svc app].
      now destruct (svc w), (app w). }
    destruct (turnComplete m) eqn:Htc.
    + eapply Hsync; [apply Hend; now left | exact Hended].
    + destruct (has_audio m) eqn:Ha.
      * destruct (isMicMuted (svc w)) eqn:Hm.
        -- eapply Hsync; [|rewrite Hm; exact Hi].
           subst w'. apply message_result_no_trigger; auto.
        -- eapply Hsync; [apply Hend; now right | exact Hended].
      * eapply Hsync; [|exact Hi].
        subst w'. apply message_result_no_trigger; auto.
  - rewrite run_deliver_block. destruct (delivers_blocks (svc w)); [|exact Hw].
    now apply block_keeps_sync.
  - revert Hw. unfold indicator_in_sync. open_world w. now exec.
Qed.

(** X13. During a conversation the mic indicator shows the gate: once the
    App is Connected with the indicator equal to "not muted" (as it is right
    after [onopen]), every press of the mic button, captured block, server
    message and finished chunk keeps the App Connected and the indicator equal
    to "not muted", including when the turn detector or the remote service
    ends the user's turn. *)
Theorem mic_indicator_follows_the_gate (imports : Imports) (es : list Event) :
  forall w : World,
  indicator_in_sync w ->
  Forall (fun e => in_conversation e = true) es ->
  indicator_in_sync (run (handle_all imports es) w).
Proof.
  induction es as [|e es IH]; intros w Hw Hes; [exact Hw|].
  inversion Hes as [|e' es' He Hes']; subst.
  rewrite run_handle_all_cons. apply IH; [|exact Hes'].
  now apply event_keeps_sync.
Qed.

Lemma mic_indicator_follows_the_gate_witness :
  indicator_in_sync
    (run (handle_all sample_imports
            [AudioProcess loud_samples 100; AudioProcess quiet_samples 2700;
             MicToggle 3000; Message (audio_message "AAAA") 1; MicToggle 4000])
       connected_World).
Proof.
  apply (mic_indicator_follows_the_gate sample_imports).
  - repeat split.
  - each_element ltac:(reflexivity).
Defined.

(** ** More on the playback scheduler *)

Lemma Set_add_fresh (n : SourceId) (l : list SourceId) :
  Forall (fun id => (id < n)%nat) l -> Set_add n l = l ++ [n].
Proof.
  intros H. unfold Set_add.
  destruct (existsb (Nat.eqb n) l) eqn:E; [|reflexivity].
  apply existsb_exists in E. destruct E as (x & Hx & Hnx).
  apply Nat.eqb_eq in Hnx. subst x.
  rewrite Forall_forall in H. specialize (H n Hx). lia.
Qed.

Lemma Set_delete_fresh (n : SourceId) (l : list SourceId) :
  Forall (fun id => (id < n)%nat) l -> Set_delete n (l ++ [n]) = l.
Proof.
  intros H. unfold Set_delete. rewrite filter_app. cbn [filter].
  rewrite Nat.eqb_refl. cbn [negb]. rewrite app_nil_r.
  induction H as [|x l Hx H IH]; [reflexivity|].
  cbn [filter]. rewrite IH.
  assert (E : Nat.eqb n x = false) by (apply Nat.eqb_neq; lia).
  now rewrite E.
Qed.

Lemma handles_fresh_grow (n : nat) (l : list SourceId) :
  NoDup l -> Forall (fun id => (id < n)%nat) l ->
  NoDup (l ++ [n]) /\ Forall (fun id => (id < S n)%nat) (l ++ [n]).
Proof.
  intros Hn Hb. split.
  - apply NoDup_app; [exact Hn | repeat constructor; intros [] |].
    intros x Hx [E | []]. rewrite Forall_forall in Hb. specialize (Hb x Hx). lia.
  - apply Forall_app. split.
    + eapply Forall_impl; [|exact Hb]. intros a Ha. cbv beta in *. lia.
    + repeat constructor.
Qed.

Lemma handles_fresh_playback (s1 s2 : Service) :
  activeSources s1 = activeSources s2 -> sourcesCreated s1 = sourcesCreated s2 ->
  handles_fresh s2 -> handles_fresh s1.
Proof. unfold handles_fresh. now intros -> ->. Qed.

Lemma handles_fresh_empty (s : Service) : activeSources s = [] -> handles_fresh s.
Proof. unfold handles_fresh. intros ->. split; constructor. Qed.

Lemma scheduled_fresh (imports : Imports) (data : string) (t : Q) (w : World) :
  handles_fresh (svc w) ->
  handles_fresh (svc (fst (scheduled imports data t w))).
Proof.
  unfold scheduled, handles_fresh. open_world w. cbn [svc outputAudioContext
    outputNode activeSources sourcesCreated].
  intros (Hn & Hb).
  destruct f_outctx; [|now split]. destruct f_outnode; [|now split].
  destruct (decodeAudioData imports data); cbn; [|now split].
  rewrite (Set_add_fresh _ _ Hb). now apply handles_fresh_grow.
Qed.

Lemma message_keeps_fresh (imports : Imports) (m : LiveServerMessage) (t : Q)
    (w : World) :
  handles_fresh (svc w) ->
  handles_fresh (svc (fst (message_result imports m t w))).
Proof.
  intros Hw. unfold message_result. cbn [fst].
  set (w1 := if turnComplete m then end_user_turn w else w).
  assert (H1 : handles_fresh (svc w1)).
  { subst w1. destruct (turnComplete m); [|exact Hw].
    destruct (end_user_turn_frame w) as (_ & P & _).
    unfold playback in P. injection P as _ Pa Pn.
    eapply handles_fresh_playback; eassumption. }
  assert (H2 : handles_fresh (svc (fst (audio_result imports m t w1)))).
  { unfold audio_result. destruct (inlineData m) as [data|]; [|exact H1].
    destruct (truthy data); [|exact H1]. cbn [fst].
    apply scheduled_fresh. destruct (isMicMuted (svc w1)); [exact H1|].
    destruct (end_user_turn_frame w1) as (_ & P & _).
    unfold playback in P. injection P as _ Pa Pn.
    eapply handles_fresh_playback; eassumption. }
  destruct (interrupted m); [|exact H2].
  apply handles_fresh_empty. cbn [svc].
  now destruct (svc (fst (audio_result imports m t w1))).
Qed.

Lemma block_keeps_playback (imports : Imports) (inputData : list Q) (now : Z)
    (w : World) :
  playback (svc (fst (block_result imports inputData now w))) = playback (svc w).
Proof.
  unfold block_result. destruct (isMicMuted (svc w)); [reflexivity|].
  destruct (Qlt_bool SILENCE_THRESHOLD (rms_of imports inputData)).
  { cbn [fst svc]. now destruct (svc w). }
  destruct (hasSpokenSinceLastTurn (svc w)
            && (SILENCE_DURATION_MS <? now - lastSpeechTime (svc w)));
    [|reflexivity].
  cbn [fst].
  now destruct (end_user_turn_frame
                  (mkWorld (svc w) (set_volume (rms_of imports inputData) (app w))))
    as (_ & P & _).
Qed.

Lemma released_fresh (s : Service) : handles_fresh (released s).
Proof. now apply handles_fresh_empty. Qed.

Lemma connect_keeps_fresh (now : Z) (o : ConnectOutcome) (w : World) :
  handles_fresh (svc w) ->
  handles_fresh (svc (run (connect App_callbacks now o) w)).
Proof.
  intros Hw. unfold run. rewrite connect_run. destruct o as [|at_step message].
  - cbn [fst snd svc]. revert Hw. unfold handles_fresh. now destruct (svc w).
  - cbn [fst snd svc]. apply released_fresh.
Qed.

Lemma event_keeps_fresh (imports : Imports) (e : Event) (w : World) :
  handles_fresh (svc w) ->
  handles_fresh (svc (run (handle imports e) w)).
Proof.
  intros Hw. destruct e; cbn [handle].
  - unfold run. rewrite toggleConnection_run.
    destruct (connectionState (app w));
      try (apply connect_keeps_fresh; apply handles_fresh_empty; reflexivity);
      cbn [fst snd svc]; destruct (serviceRef (app w)); cbn [svc];
      try exact Hw; apply released_fresh.
  - revert Hw. unfold handles_fresh. open_world w. exec_all; auto.
  - now apply connect_keeps_fresh.
  - rewrite run_disconnect. apply released_fresh.
  - revert Hw. unfold handles_fresh. open_world w. now exec.
  - revert Hw. unfold handles_fresh. open_world w. now exec.
  - unfold run. rewrite handleOpen_run. cbn [fst snd svc].
    revert Hw. unfold handles_fresh.
    destruct (inputAudioContext (svc w)), (mediaStream (svc w)); auto;
      now destruct (svc w).
  - rewrite run_handleMessage. now apply message_keeps_fresh.
  - unfold run. rewrite handleError_run. apply released_fresh.
  - now rewrite handleClose_keeps_service.
  - rewrite run_deliver_block. destruct (delivers_blocks (svc w)); [|exact Hw].
    assert (P := block_keeps_playback imports inputData now w).
    unfold playback in P. injection P as _ Pa Pn.
    eapply handles_fresh_playback; eassumption.
  - revert Hw. unfold handles_fresh. open_world w. exec.
    intros (Hn & Hb). split.
    + now apply NoDup_filter.
    + rewrite Forall_forall in *. intros x Hx. apply filter_In in Hx.
      now apply Hb.
Qed.

(** X14. In every state reached from the initial one, whatever the run,
    the handles of the Active Playback Set are pairwise distinct and all were
    handed out earlier; so scheduling a chunk always adds one new handle, at
    the end of the set. *)
Theorem active_handles_stay_distinct (imports : Imports) (es : list Event) :
  let w := run (handle_all imports es) initial_World in
  handles_fresh (svc w) /\
  (forall m t,
     schedulable imports m -> output_ready (svc w) ->
     activeSources (svc (run (handleMessage App_callbacks imports m t) w)) =
     activeSources (svc w) ++ [sourcesCreated (svc w)]).
Proof.
  cbv zeta.
  assert (H : forall w, handles_fresh (svc w) ->
                        handles_fresh (svc (run (handle_all imports es) w))).
  { induction es as [|e es IH]; intros w Hw; [exact Hw|].
    rewrite run_handle_all_cons. apply IH. now apply event_keeps_fresh. }
  specialize (H initial_World (handles_fresh_empty (svc initial_World) eq_refl)).
  split; [exact H|].
  intros m t (data & buf & Hd & Ht & Hdec & Hi) Hready.
  destruct (scheduled_message imports _ m t data buf Hready Hd Ht Hdec Hi)
    as (_ & _ & _ & Ha & _).
  rewrite Ha. apply Set_add_fresh. apply H.
Qed.

(** X15. A chunk that is scheduled and then plays to its end leaves the
    Active Playback Set as it was before the chunk arrived; an ['ended'] event
    for a handle that is no longer in the set (flushed by an interruption)
    changes nothing. *)
Theorem finished_chunk_leaves_the_set
    (imports : Imports) (w : World) (m : LiveServerMessage) (t : Q) :
  handles_fresh (svc w) ->
  output_ready (svc w) ->
  schedulable imports m ->
  let w1 := run (handleMessage App_callbacks imports m t) w in
  let w2 := run (source_ended (sourcesCreated (svc w))) w1 in
  In (sourcesCreated (svc w)) (activeSources (svc w1)) /\
  activeSources (svc w2) = activeSources (svc w) /\
  nextStartTime (svc w2) = nextStartTime (svc w1) /\
  (forall id w', ~ In id (activeSources (svc w')) ->
                 run (source_ended id) w' = w').
Proof.
  intros (Hn & Hb) Hready (data & buf & Hd & Ht & Hdec & Hi). cbv zeta.
  destruct (scheduled_message imports _ m t data buf Hready Hd Ht Hdec Hi)
    as (_ & _ & _ & Ha & _).
  set (w1 := run (handleMessage App_callbacks imports m t) w) in *.
  assert (E : forall id w', run (source_ended id) w' =
                mkWorld (set_activeSources (Set_delete id (activeSources (svc w')))
                           (svc w')) (app w'))
    by reflexivity.
  rewrite E. cbn [svc].
  assert (P : forall l s, activeSources (set_activeSources l s) = l /\
                          nextStartTime (set_activeSources l s) = nextStartTime s)
    by (intros l s; now destruct s).
  destruct (P (Set_delete (sourcesCreated (svc w)) (activeSources (svc w1))) (svc w1))
    as (P1 & P2).
  rewrite P1, P2, Ha, (Set_add_fresh _ _ Hb), (Set_delete_fresh _ _ Hb).
  split; [apply in_or_app; right; now left|].
  split; [reflexivity|]. split; [reflexivity|].
  intros id w' Hnot. rewrite E.
  assert (F : Set_delete id (activeSources (svc w')) = activeSources (svc w')).
  { unfold Set_delete. apply forallb_filter_id. apply forallb_forall.
    intros x Hx. apply negb_true_iff. apply Nat.eqb_neq. intros ->. now apply Hnot. }
  rewrite F. destruct w' as [s a]. now destruct s.
Qed.

Lemma finished_chunk_leaves_the_set_witness :
  activeSources
    (svc (run (source_ended (sourcesCreated (svc playing_World)))
            (run (handleMessage App_callbacks sample_imports
                    (audio_message "CCCC") 2) playing_World)))
  = activeSources (svc playing_World).
Proof.
  refine (proj1 (proj2
    (finished_chunk_leaves_the_set sample_imports playing_World
       (audio_message "CCCC") 2 _ _ _))).
  - unfold handles_fresh.
    change (activeSources (svc playing_World)) with [0%nat; 1%nat].
    change (sourcesCreated (svc playing_World)) with 2%nat.
    split.
    + apply NoDup_cons; [intros [H | []]; discriminate H|].
      apply NoDup_cons; [intros [] | apply NoDup_nil].
    + each_element ltac:(lia).
  - split; [discriminate | reflexivity].
  - exists "CCCC"%string, (mkAudioBuffer (4 # 4)). repeat split.
Defined.

Lemma spec_schedule_all_well_spaced (chunks : list (Q * Q)) :
  forall (handle : SourceId) (cursor : Q) (active : list SourceId),
  well_spaced cursor chunks
    (fst (fst (spec_schedule_all chunks handle cursor active))).
Proof.
  induction chunks as [|[t d] chunks IH]; intros handle cursor active.
  - exact I.
  - cbn [spec_schedule_all spec_schedule].
    specialize (IH (S handle)
                  ((if Qlt_bool cursor t then t else cursor) + d)%Q
                  (Set_add handle active)).
    destruct (spec_schedule_all chunks (S handle) _ _) as [[starts c] a].
    cbn [fst snd well_spaced] in *.
    split; [|split; [|exact IH]].
    + destruct (Qlt_bool cursor t) eqn:E; [apply Qle_refl|].
      now apply Qlt_bool_false_iff in E.
    + destruct (Qlt_bool cursor t) eqn:E; [|apply Qle_refl].
      apply Qlt_bool_iff in E. now apply Qlt_le_weak.
Qed.

(** X16. Chunks never overlap and never start in the past: along any
    sequence of decodable chunk messages with no interruption, every chunk is
    started no earlier than the playback clock at its arrival and no earlier
    than the end of the chunk scheduled before it (for the first one, than the
    cursor it found). *)
Theorem scheduled_chunks_never_overlap
    (imports : Imports) (ms : list (LiveServerMessage * Q)) (w : World) :
  output_ready (svc w) ->
  Forall (fun c => schedulable imports (fst c)) ms ->
  well_spaced (nextStartTime (svc w)) (arrivals imports ms)
    (start_times (effects (handle_all imports (messages_as_events ms)) w)).
Proof.
  intros Hready Hms.
  destruct (schedule_refines_spec imports ms w Hready Hms) as (Hspec & _).
  assert (H := spec_schedule_all_well_spaced (arrivals imports ms)
                 (sourcesCreated (svc w)) (nextStartTime (svc w))
                 (activeSources (svc w))).
  rewrite <- Hspec in H. exact H.
Qed.

Lemma scheduled_chunks_never_overlap_witness :
  well_spaced (nextStartTime (svc connected_World))
    (arrivals sample_imports
       [(audio_message "AAAA", (1 # 2)%Q); (audio_message "BB", 5%Q)])
    (start_times
       (effects
          (handle_all sample_imports
             (messages_as_events
                [(audio_message "AAAA", (1 # 2)%Q); (audio_message "BB", 5%Q)]))
          connected_World)).
Proof.
  apply (scheduled_chunks_never_overlap sample_imports
           [(audio_message "AAAA", (1 # 2)%Q); (audio_message "BB", 5%Q)]
           connected_World).
  - split; [discriminate | reflexivity].
  - each_element ltac:(eexists; eexists; repeat split; reflexivity).
Defined.

Lemma message_keeps_cursor_nonnegative (imports : Imports)
    (m : LiveServerMessage) (t : Q) (w : World) :
  durations_nonnegative imports ->
  (0 <= nextStartTime (svc w))%Q ->
  (0 <= nextStartTime (svc (fst (message_result imports m t w))))%Q.
Proof.
  intros Hdur Hw. unfold message_result. cbn [fst].
  set (w1 := if turnComplete m then end_user_turn w else w).
  assert (H1 : (0 <= nextStartTime (svc w1))%Q).
  { subst w1. destruct (turnComplete m); [|exact Hw].
    destruct (end_user_turn_frame w) as (_ & P & _).
    unfold playback in P. injection P as Pc _ _. now rewrite Pc. }
  assert (H2 : (0 <= nextStartTime (svc (fst (audio_result imports m t w1))))%Q).
  { unfold audio_result. destruct (inlineData m) as [data|]; [|exact H1].
    destruct (truthy data); [|exact H1]. cbn [fst].
    set (w2 := if isMicMuted (svc w1) then w1 else end_user_turn w1).
    assert (H2 : (0 <= nextStartTime (svc w2))%Q).
    { subst w2. destruct (isMicMuted (svc w1)); [exact H1|].
      destruct (end_user_turn_frame w1) as (_ & P & _).
      unfold playback in P. injection P as Pc _ _. now rewrite Pc. }
    clearbody w2. unfold scheduled.
    destruct (outputAudioContext (svc w2)); [|exact H2].
    destruct (outputNode (svc w2)); [|exact H2].
    assert (Hc := caught_up_ge_cursor (svc w2) t).
    destruct (decodeAudioData imports data) as [buf|] eqn:Hdec; cbn [fst svc].
    - specialize (Hdur data buf Hdec).
      assert (E : forall c l n s, nextStartTime
                    (set_nextStartTime c (set_activeSources l (set_sourcesCreated n s)))
                  = c) by (intros c0 l0 n0 s0; now destruct s0).
      rewrite E. lra.
    - assert (E : forall c s, nextStartTime (set_nextStartTime c s) = c)
        by (intros c s; now destruct s).
      rewrite E. lra. }
  destruct (interrupted m); [|exact H2].
  cbn [svc]. destruct (svc (fst (audio_result imports m t w1))). cbn. lra.
Qed.

Lemma event_keeps_cursor_nonnegative (imports : Imports) (e : Event) (w : World) :
  durations_nonnegative imports ->
  (0 <= nextStartTime (svc w))%Q ->
  (0 <= nextStartTime (svc (run (handle imports e) w)))%Q.
Proof.
  intros Hdur Hw.
  assert (Hrel : (0 <= nextStartTime (released (svc w)))%Q)
    by (revert Hw; destruct (svc w); exact (fun H => H)).
  assert (Hcon : forall now o w0,
            (0 <= nextStartTime (svc (run (connect App_callbacks now o) w0)))%Q).
  { intros now o w0. unfold run. rewrite connect_run.
    destruct o as [|[] ?]; destruct (svc w0); cbn; lra. }
  destruct e; cbn [handle].
  - unfold run. rewrite toggleConnection_run.
    destruct (connectionState (app w)); try apply (Hcon now o);
      cbn [fst snd svc]; destruct (serviceRef (app w)); cbn [svc]; assumption.
  - revert Hw. open_world w. exec_all; auto.
  - apply Hcon.
  - now rewrite run_disconnect.
  - revert Hw. open_world w. now exec.
  - revert Hw. open_world w. now exec.
  - unfold run. rewrite handleOpen_run. cbn [fst snd svc]. revert Hw.
    destruct (inputAudioContext (svc w)), (mediaStream (svc w)); auto;
      now destruct (svc w).
  - rewrite run_handleMessage. now apply message_keeps_cursor_nonnegative.
  - unfold run. now rewrite handleError_run.
  - now rewrite handleClose_keeps_service.
  - rewrite run_deliver_block. destruct (delivers_blocks (svc w)); [|exact Hw].
    assert (P := block_keeps_playback imports inputData now w).
    unfold playback in P. injection P as Pc _ _. now rewrite Pc.
  - revert Hw. open_world w. now exec.
Qed.

(** X17. With a decoder that yields buffers of non-negative duration, the
    playback cursor is never negative: not in the initial state and not after
    any run, whatever clock readings the messages arrive with. *)
Theorem playback_cursor_is_never_negative (imports : Imports) (es : list Event) :
  durations_nonnegative imports ->
  (0 <= nextStartTime (svc (run (handle_all imports es) initial_World)))%Q.
Proof.
  intros Hdur.
  assert (H : forall w, (0 <= nextStartTime (svc w))%Q ->
                        (0 <= nextStartTime (svc (run (handle_all imports es) w)))%Q).
  { induction es as [|e es IH]; intros w Hw; [exact Hw|].
    rewrite run_handle_all_cons. apply IH.
    now apply event_keeps_cursor_nonnegative. }
  apply H. cbn. lra.
Qed.

Lemma sample_durations_nonnegative : durations_nonnegative sample_imports.
Proof.
  intros data buf. cbn [decodeAudioData sample_imports]. unfold decode_sample.
  assert (H : (0 <= Z.of_nat (String.length data) # 4)%Q).
  { unfold Qle. cbn [Qnum Qden]. lia. }
  destruct data as [|c data']; [intros E; injection E as <-; exact H|].
  destruct (Ascii.eqb c "!"%char) eqn:Ec.
  - apply Ascii.eqb_eq in Ec. subst c. discriminate.
  - intros E.
    assert (E' : Some {| duration := Z.of_nat (String.length (String c data')) # 4 |}
                 = Some buf).
    { rewrite <- E. destruct c as [[] [] [] [] [] [] [] []]; try reflexivity.
      discriminate Ec. }
    injection E' as <-. exact H.
Qed.

Lemma playback_cursor_is_never_negative_witness :
  (0 <= nextStartTime
          (svc (run (handle_all sample_imports
                       [ToggleConnection 0 Connects; Open;
                        Message (audio_message "AAAA") (-3);
                        Message interrupted_message 7])
                  initial_World)))%Q.
Proof.
  apply (playback_cursor_is_never_negative sample_imports).
  exact sample_durations_nonnegative.
Defined.

(** ** More on inbound messages *)

Lemma message_effects_shape (imports : Imports) (m : LiveServerMessage) (t : Q)
    (w : World) :
  exists rest,
    snd (message_result imports m t w) = transcripts m ++ rest /\
    forallb is_turn_or_playback rest = true.
Proof.
  unfold message_result. cbn [snd]. eexists. split; [reflexivity|].
  rewrite !forallb_app.
  set (w1 := if turnComplete m then end_user_turn w else w).
  assert (H1 : forallb is_turn_or_playback
                 (if turnComplete m then [OnTurnComplete] else []) = true)
    by now destruct (turnComplete m).
  assert (H2 : forallb is_turn_or_playback (snd (audio_result imports m t w1)) = true).
  { unfold audio_result. destruct (inlineData m) as [data|]; [|reflexivity].
    destruct (truthy data); [|reflexivity]. cbn [snd]. rewrite forallb_app.
    apply andb_true_iff. split; [now destruct (isMicMuted (svc w1))|].
    unfold scheduled.
    match goal with
    | |- context [outputAudioContext (svc ?x)] =>
        destruct (outputAudioContext (svc x)); [|reflexivity];
        destruct (outputNode (svc x)); [|reflexivity]
    end.
    destruct (decodeAudioData imports data); reflexivity. }
  assert (H3 : forall l, forallb is_turn_or_playback (map SourceStop l) = true)
    by (intros l; induction l; auto).
  rewrite H1, H2. destruct (interrupted m); [apply H3 | reflexivity].
Qed.

Lemma filter_none (p q : Effect -> bool) (l : list Effect) :
  (forall e, q e = true -> p e = false) ->
  forallb q l = true -> filter p l = [].
Proof.
  intros Hpq. induction l as [|e l IH]; [reflexivity|].
  cbn [forallb filter]. intros H. apply andb_true_iff in H. destruct H as (He & Hl).
  rewrite (Hpq e He). now apply IH.
Qed.

(** X18. What a server message cannot do: [handleMessage] never sends
    audio, never notifies an error or a Connection state, and leaves the
    Connection state, the displayed error, the session's resources and
    [lastSpeechTime] as they were.  Its transcriptions are forwarded first,
    the user's before the model's, always as partial (never final)
    fragments. *)
Theorem messages_only_report_and_play
    (imports : Imports) (w : World) (m : LiveServerMessage) (t : Q) :
  let w' := run (handleMessage App_callbacks imports m t) w in
  let effs := effects (handleMessage App_callbacks imports m t) w in
  (exists rest, effs = transcripts m ++ rest /\
                filter is_OnTranscript rest = []) /\
  (forall text isUser isFinal,
     In (OnTranscript text isUser isFinal) effs -> isFinal = false) /\
  sends effs = [] /\
  count is_OnError effs = 0%nat /\
  count is_OnStateChange effs = 0%nat /\
  link (app w') = link (app w) /\
  resources (svc w') = resources (svc w) /\
  lastSpeechTime (svc w') = lastSpeechTime (svc w).
Proof.
  cbv zeta. rewrite run_handleMessage, effects_handleMessage.
  destruct (message_effects_shape imports m t w) as (rest & E & Hrest).
  destruct (message_result_frame imports m t w) as (R & L & T & _).
  cbv zeta in R, L, T.
  assert (Hn : forall p, (forall e, is_turn_or_playback e = true -> p e = false) ->
                         filter p rest = [])
    by (intros p Hp; eapply filter_none; eassumption).
  assert (Ht : filter is_OnTranscript rest = [])
    by (apply Hn; intros e; now destruct e).
  split; [exists rest; now split|].
  split.
  { intros text isUser isFinal. rewrite E, in_app_iff. intros [H | H].
    - destruct m as [[i|] [o|] ? ? ?]; cbn in H;
        repeat (destruct H as [H|H]; [now injection H|]); contradiction.
    - assert (H' : In (OnTranscript text isUser isFinal)
                     (filter is_OnTranscript rest))
        by (apply filter_In; now split).
      rewrite Ht in H'. contradiction. }
  split; [apply sends_message|].
  split.
  { unfold count. rewrite E, filter_app, filter_transcripts_OnError.
    rewrite Hn; [reflexivity|]. intros e; now destruct e. }
  split.
  { unfold count. rewrite E, filter_app, filter_transcripts_OnStateChange.
    rewrite Hn; [reflexivity|]. intros e; now destruct e. }
  repeat split; assumption.
Qed.

(** ** The transcript: cleaned text and message bubbles *)
Module ChatFacts.
Import Chat.

Lemma replace_from_removing_length (r : Regex) (rest : list N) :
  forall prev inside,
    (List.length (replace_from r [] prev rest inside) <= List.length rest)%nat.
Proof.
  induction rest as [|c rest IH]; intros prev inside; cbn [replace_from].
  - destruct inside; [destruct (match_at r (prev, []))|]; cbn; lia.
  - destruct inside as [|n].
    + destruct (match_at r (prev, c :: rest)) as [y|].
      * destruct (List.length (c :: rest) - ahead y)%nat; cbn [List.app List.length].
        -- specialize (IH (Some c) 0%nat). lia.
        -- specialize (IH (Some c) n). lia.
      * cbn [List.length]. specialize (IH (Some c) 0%nat). lia.
    + specialize (IH (Some c) n). cbn [List.length]. lia.
Qed.

Lemma replace_class_filters (p : N -> bool) (rest : list N) :
  forall prev,
    replace_from (Class p) [] prev rest 0 = filter (fun c => negb (p c)) rest.
Proof.
  induction rest as [|c rest IH]; intros prev; cbn [replace_from filter].
  - reflexivity.
  - unfold match_at; cbn [matcher snd].
    destruct (p c); cbn [negb].
    + unfold ahead; cbn [snd List.length].
      replace (S (List.length rest) - List.length rest)%nat with 1%nat by lia.
      cbn [List.app]. apply IH.
    + f_equal. apply IH.
Qed.

Lemma trimStart_shorter (s : JsString) :
  (List.length (trimStart s) <= List.length s)%nat.
Proof.
  induction s as [|c s IH]; cbn [trimStart]; [lia|].
  destruct (is_space c); cbn [List.length] in *; lia.
Qed.

Lemma matcher_class (p : N -> bool) (prev : option N) (rest : list N)
    (k : Continuation) :
  matcher (Class p) (prev, rest) k
  = match rest with
    | c :: rest' => if p c then k (Some c, rest') else None
    | [] => None
    end.
Proof. reflexivity. Qed.

Lemma spaces_run (fuel : nat) :
  forall x, (ahead x < fuel)%nat ->
    exists prev',
      repeat_matcher (matcher (Class is_space)) Some fuel x
      = Some (prev', trimStart (snd x)).
Proof.
  induction fuel as [|fuel IH]; intros [prev rest] Hx; [lia|].
  cbn [repeat_matcher]. rewrite matcher_class. cbn [snd].
  destruct rest as [|c rest]; cbn [trimStart].
  - now exists prev.
  - destruct (is_space c).
    + unfold ahead at 1 2; cbn [snd List.length].
      replace (List.length rest <? S (List.length rest))%nat with true
        by (symmetry; apply Nat.ltb_lt; lia).
      destruct (IH (Some c, rest)) as [prev' E].
      { unfold ahead in *; cbn [snd List.length] in *; lia. }
      rewrite E. now exists prev'.
    + now exists prev.
Qed.

Lemma match_spaces (prev : option N) (c : N) (rest : list N) :
  exists prev',
    match_at spaces (prev, c :: rest)
    = if is_space c then Some (prev', trimStart rest) else None.
Proof.
  unfold match_at, spaces, Plus; cbn [matcher snd].
  destruct (is_space c); [|now exists prev].
  apply spaces_run. unfold ahead; cbn [snd]. lia.
Qed.

Lemma replace_spaces_squeezes (rest : list N) :
  (forall prev,
     replace_from spaces (js " ") prev rest
       (List.length rest - List.length (trimStart rest))
     = squeeze true rest)
  /\ (forall prev,
        replace_from spaces (js " ") prev rest 0 = squeeze false rest).
Proof.
  induction rest as [|c rest [IH1 IH0]]; split; intros prev.
  - reflexivity.
  - reflexivity.
  - cbn [trimStart squeeze]. destruct (is_space c) eqn:Ec.
    + pose proof (trimStart_shorter rest) as L. cbn [List.length].
      replace (S (List.length rest) - List.length (trimStart rest))%nat
        with (S (List.length rest - List.length (trimStart rest))) by lia.
      cbn [replace_from]. apply IH1.
    + rewrite Nat.sub_diag. cbn [replace_from].
      destruct (match_spaces prev c rest) as [prev' E]. rewrite E, Ec.
      f_equal. apply IH0.
  - cbn [replace_from squeeze].
    destruct (match_spaces prev c rest) as [prev' E]. rewrite E.
    destruct (is_space c) eqn:Ec.
    + pose proof (trimStart_shorter rest) as L.
      unfold ahead; cbn [snd List.length].
      replace (S (List.length rest) - List.length (trimStart rest))%nat
        with (S (List.length rest - List.length (trimStart rest))) by lia.
      cbn [js map list_ascii_of_string List.app]. f_equal. apply IH1.
    + f_equal. apply IH0.
Qed.

(** The six replacements, with the last three as what they compute. *)
Lemma cleanTranscriptText_shape (text : JsString) :
  exists s,
    cleanTranscriptText text
    = squeeze false
        (filter is_kept (filter (fun c => negb (is_angle c)) s)).
Proof.
  destruct text as [|c text]; [now exists []|].
  unfold cleanTranscriptText, replace_all.
  rewrite (proj2 (replace_spaces_squeezes _)).
  unfold not_kept, angle_bracket, one_of. rewrite !replace_class_filters.
  eexists. f_equal.
  erewrite filter_ext; [f_equal|intros a; apply negb_involutive].
  apply filter_ext. intros a. unfold is_angle. cbn. now rewrite orb_false_r.
Qed.

Lemma squeeze_clean (s : JsString) :
  Forall (fun c => is_kept c = true /\ is_angle c = false) s ->
  forall after_space,
    Forall (fun c => is_clean c = true) (squeeze after_space s).
Proof.
  induction 1 as [|c s [Hk Ha] _ IH]; intros after_space; cbn [squeeze].
  - constructor.
  - destruct (is_space c) eqn:Es.
    + destruct after_space; [apply IH|]. constructor; [reflexivity|apply IH].
    + constructor; [|apply IH]. unfold is_clean. now rewrite Hk, Ha, Es.
Qed.

Lemma squeeze_head (s : JsString) :
  match squeeze true s with c :: _ => is_space c = false | [] => True end.
Proof.
  induction s as [|c s IH]; cbn [squeeze]; [exact I|].
  destruct (is_space c) eqn:Es; [exact IH|exact Es].
Qed.

Lemma squeeze_single_spaced (s : JsString) :
  forall after_space, single_spaced (squeeze after_space s).
Proof.
  induction s as [|c s IH]; intros after_space; cbn [squeeze]; [exact I|].
  assert (T : forall a, single_spaced (squeeze true s) ->
                        single_spaced (a :: squeeze true s)).
  { intros a Hs. pose proof (squeeze_head s) as Hh.
    destruct (squeeze true s) as [|b t]; [exact I|].
    split; [rewrite Hh; apply andb_false_r|exact Hs]. }
  destruct (is_space c) eqn:Es.
  - destruct after_space; [apply IH|]. apply T, IH.
  - specialize (IH false).
    destruct (squeeze false s) as [|b t]; [exact I|].
    split; [now rewrite Es|exact IH].
Qed.

Lemma squeeze_length (s : JsString) :
  forall after_space,
    (List.length (squeeze after_space s) <= List.length s)%nat.
Proof.
  induction s as [|c s IH]; intros after_space; cbn [squeeze List.length]; [lia|].
  destruct (is_space c); [destruct after_space|];
    cbn [List.length]; [specialize (IH true)|specialize (IH true)|specialize (IH false)]; lia.
Qed.

Lemma cleaned_is_clean (text : JsString) :
  Forall (fun c => is_clean c = true) (cleanTranscriptText text).
Proof.
  destruct (cleanTranscriptText_shape text) as [s ->].
  apply squeeze_clean, Forall_forall. intros c Hc.
  apply filter_In in Hc as [Hc Hk]. apply filter_In in Hc as [_ Ha].
  split; [exact Hk|]. now destruct (is_angle c).
Qed.

(** X19. Text cleaned for the transcript holds only code units of the
    ranges U+0020-007E, U+00A0-00FF and U+2000-206F, no angle bracket, and
    no white space other than U+0020. *)
Theorem cleaned_text_is_printable (text : JsString) (c : N) :
  In c (cleanTranscriptText text) ->
  is_kept c = true /\ c <> 60%N /\ c <> 62%N
  /\ (is_space c = true -> c = 32%N).
Proof.
  intros Hc.
  pose proof (proj1 (Forall_forall _ _) (cleaned_is_clean text) c Hc) as H.
  unfold is_clean in H.
  apply andb_prop in H as [H Hs]. apply andb_prop in H as [Hk Ha].
  refine (conj Hk (conj _ (conj _ _))).
  - intros ->. discriminate Ha.
  - intros ->. discriminate Ha.
  - intros Es. rewrite Es in Hs. now apply N.eqb_eq in Hs.
Qed.

Lemma cleaned_text_is_printable_witness :
  In 105%N (cleanTranscriptText (js "<i>Hi</i>"))
  /\ is_kept 105 = true /\ 105%N <> 60%N /\ 105%N <> 62%N
  /\ (is_space 105 = true -> 105%N = 32%N).
Proof.
  assert (H : In 105%N (cleanTranscriptText (js "<i>Hi</i>")))
    by (vm_compute; auto).
  split; [exact H|]. exact (cleaned_text_is_printable _ _ H).
Defined.

(** X20. In cleaned text no two white-space code units are adjacent: each
    run of white space that is left has become one space. *)
Theorem cleaned_text_is_single_spaced (text : JsString) :
  single_spaced (cleanTranscriptText text).
Proof.
  destruct (cleanTranscriptText_shape text) as [s ->].
  apply squeeze_single_spaced.
Qed.

(** X21. Cleaning never makes a text longer: each of its six replacements
    removes code units or puts one space for a run of them. *)
Theorem cleaning_never_lengthens (text : JsString) :
  (List.length (cleanTranscriptText text) <= List.length text)%nat.
Proof.
  destruct text as [|c text]; [cbn; lia|].
  unfold cleanTranscriptText, replace_all.
  rewrite (proj2 (replace_spaces_squeezes _)).
  etransitivity; [apply squeeze_length|].
  repeat (etransitivity; [apply replace_from_removing_length|]).
  reflexivity.
Qed.

(** *** The replacement of starred spans *)

Lemma match_starred_prev (prev prev' : option N) (rest : list N) :
  match_at starred (prev, rest) = match_at starred (prev', rest).
Proof.
  unfold match_at, starred. cbn [matcher snd]. reflexivity.
Qed.

Lemma replace_from_prev (r : Regex) (replacement : JsString) :
  (forall p p' rest, match_at r (p, rest) = match_at r (p', rest)) ->
  forall rest p p' inside,
    replace_from r replacement p rest inside
    = replace_from r replacement p' rest inside.
Proof.
  intros H rest p p' inside.
  destruct rest as [|c rest]; cbn [replace_from]; now rewrite (H p p').
Qed.

Lemma replace_from_inside (r : Regex) (replacement : JsString)
    (dropped rest : list N) :
  forall prev,
    exists prev',
      replace_from r replacement prev (dropped ++ rest) (List.length dropped)
      = replace_from r replacement prev' rest 0.
Proof.
  induction dropped as [|c dropped IH]; intros prev.
  - now exists prev.
  - cbn [List.app List.length replace_from]. apply IH.
Qed.

Lemma starred_run (body : list N) :
  Forall (fun c => c <> 42%N) body ->
  forall post fuel prev,
    (List.length (body ++ 42%N :: post) < fuel)%nat ->
    repeat_matcher (matcher (Class (fun x => negb (x =? 42)%N)))
      (fun y => matcher (one_of "*") y Some) fuel
      (prev, body ++ 42%N :: post)
    = Some (Some 42%N, post).
Proof.
  induction 1 as [|c body Hc _ IH]; intros post fuel prev Hf;
    (destruct fuel as [|fuel]; [lia|]);
    cbn [repeat_matcher List.app]; rewrite matcher_class.
  - reflexivity.
  - apply N.eqb_neq in Hc. rewrite Hc. cbn [negb].
    unfold ahead at 1 2; cbn [snd List.length].
    replace (List.length (body ++ 42%N :: post)
             <? S (List.length (body ++ 42%N :: post)))%nat with true
      by (symmetry; apply Nat.ltb_lt; lia).
    rewrite IH; [reflexivity|]. cbn [List.app List.length] in Hf. lia.
Qed.

Lemma matcher_concat (r1 r2 : Regex) (x : Position) (k : Continuation) :
  matcher (Concat r1 r2) x k = matcher r1 x (fun y => matcher r2 y k).
Proof. reflexivity. Qed.

Lemma matcher_star (r : Regex) (x : Position) (k : Continuation) :
  matcher (Star r) x k = repeat_matcher (matcher r) k (S (ahead x)) x.
Proof. reflexivity. Qed.

Lemma match_starred (prev : option N) (c : N) (body post : list N) :
  Forall (fun x => x <> 42%N) (c :: body) ->
  match_at starred (prev, 42%N :: (c :: body) ++ 42%N :: post)
  = Some (Some 42%N, post).
Proof.
  intros Hb. pose proof (Forall_inv Hb) as Hc. apply N.eqb_neq in Hc.
  unfold match_at, starred, Plus, one_of.
  rewrite matcher_concat, matcher_class.
  replace (existsb (N.eqb 42) (js "*")) with true by reflexivity.
  rewrite !matcher_concat. cbn [List.app]. rewrite matcher_class, Hc.
  cbn [negb]. rewrite matcher_star.
  apply (starred_run body (Forall_inv_tail Hb) post).
  unfold ahead; cbn [snd]. lia.
Qed.

Lemma match_starred_elsewhere (prev : option N) (c : N) (rest : list N) :
  c <> 42%N -> match_at starred (prev, c :: rest) = None.
Proof.
  intros Hc. apply N.eqb_neq in Hc.
  unfold match_at, starred, one_of. rewrite matcher_concat, matcher_class.
  replace (existsb (N.eqb c) (js "*")) with false; [reflexivity|].
  cbn. now rewrite Hc.
Qed.

Lemma replace_from_match (r : Regex) (replacement : JsString)
    (prev : option N) (c : N) (dropped after : list N) (y : Position) :
  match_at r (prev, c :: dropped ++ after) = Some y -> snd y = after ->
  exists prev',
    replace_from r replacement prev (c :: dropped ++ after) 0
    = replacement ++ replace_from r replacement prev' after 0.
Proof.
  intros Hm Hy. cbn [replace_from]. rewrite Hm. unfold ahead. rewrite Hy.
  replace (List.length (c :: dropped ++ after) - List.length after)%nat
    with (S (List.length dropped))
    by (cbn [List.length]; rewrite length_app; lia).
  destruct (replace_from_inside r replacement dropped after (Some c))
    as [prev' ->].
  now exists prev'.
Qed.

(** X22. The replacement of the spans between asterisks deletes a span
    whole: with no asterisk before it, the text before is kept as it is,
    the asterisks and all between them go, and the scan goes on behind
    the closing one. *)
Theorem starred_span_is_deleted (before body after : JsString) :
  Forall (fun c => c <> 42%N) before ->
  Forall (fun c => c <> 42%N) body -> body <> [] ->
  replace_all starred [] (before ++ 42%N :: body ++ 42%N :: after)
  = before ++ replace_all starred [] after.
Proof.
  intros Hp Hb Hn. unfold replace_all.
  enough (G : forall prev prev',
             replace_from starred [] prev
               (before ++ 42%N :: body ++ 42%N :: after) 0
             = before ++ replace_from starred [] prev' after 0) by apply G.
  induction Hp as [|c before Hc _ IH]; intros prev prev0.
  - destruct body as [|c body]; [now elim Hn|].
    cbn [List.app].
    replace (c :: body ++ 42%N :: after)
      with (((c :: body) ++ [42%N]) ++ after)
      by (rewrite <- app_assoc; reflexivity).
    destruct (replace_from_match starred [] prev 42%N
                ((c :: body) ++ [42%N]) after (Some 42%N, after))
      as [prev' ->]; [|reflexivity|].
    + rewrite <- app_assoc. now apply match_starred.
    + apply replace_from_prev, match_starred_prev.
  - cbn [List.app replace_from].
    rewrite match_starred_elsewhere by exact Hc.
    f_equal. apply IH.
Qed.

Lemma starred_span_is_deleted_witness :
  replace_all starred []
    (js "say " ++ 42%N :: js "I have" ++ 42%N :: js " now")
  = js "say " ++ replace_all starred [] (js " now").
Proof.
  apply starred_span_is_deleted.
  - repeat constructor; discriminate.
  - repeat constructor; discriminate.
  - discriminate.
Defined.

(** *** Message bubbles *)

Lemma last_message_snoc (l : list ChatMessage) (m : ChatMessage) :
  last_message (l ++ [m]) = Some m.
Proof.
  unfold last_message. destruct (l ++ [m]) eqn:E.
  - now destruct l.
  - rewrite <- E, length_app. cbn [List.length].
    replace (List.length l + 1 - 1)%nat with (List.length l) by lia.
    rewrite nth_error_app2 by lia. now rewrite Nat.sub_diag.
Qed.

(** The three outcomes of [merge_transcript]. *)
Lemma merge_transcript_cases (now_id now_ts : Z) (cleanText : JsString)
    (isUser isFinal : bool) (prev : list ChatMessage) :
  let role' := if isUser then user else model in
  merge_transcript now_id now_ts cleanText isUser isFinal prev = prev
  \/ (exists before m,
        prev = before ++ [m] /\ role m = role'
        /\ merge_transcript now_id now_ts cleanText isUser isFinal prev
           = before ++ [add_text m cleanText])
  \/ (is_blank cleanText = false
      /\ (forall m, last_message prev = Some m -> role m <> role')
      /\ merge_transcript now_id now_ts cleanText isUser isFinal prev
         = prev ++ [mkChatMessage now_id role' (trimStart cleanText)
                      isFinal now_ts]).
Proof.
  intros role'. unfold merge_transcript. fold role'.
  destruct prev as [|m0 prev0] using rev_ind.
  - cbn [last_message]. destruct (is_blank cleanText) eqn:B; [now left|].
    right; right. repeat split. intros m Hm; discriminate Hm.
  - clear IHprev0. rewrite last_message_snoc, removelast_last.
    destruct (Role_eqb (role m0) role') eqn:R.
    + right; left. exists prev0, m0. repeat split.
      now destruct (role m0), role'.
    + destruct (is_blank cleanText) eqn:B; [now left|].
      right; right. repeat split.
      intros m Hm. injection Hm as <-. intros E. rewrite E in R.
      now destruct role'.
Qed.



Lemma onTranscript_cases (now_id now_ts : Z) (text0 : JsString)
    (isUser isFinal : bool) (prev : list ChatMessage) :
  let role' := if isUser then user else model in
  let cleanText := cleanTranscriptText text0 in
  onTranscript now_id now_ts text0 isUser isFinal prev = prev
  \/ (exists before m,
        prev = before ++ [m] /\ role m = role'
        /\ onTranscript now_id now_ts text0 isUser isFinal prev
           = before ++ [add_text m cleanText])
  \/ (is_blank cleanText = false
      /\ (forall m, last_message prev = Some m -> role m <> role')
      /\ onTranscript now_id now_ts text0 isUser isFinal prev
         = prev ++ [mkChatMessage now_id role' (trimStart cleanText)
                      isFinal now_ts]).
Proof.
  intros role' cleanText. unfold onTranscript. fold cleanText.
  destruct (is_blank cleanText && negb isFinal); [now left|].
  apply merge_transcript_cases.
Qed.

Lemma chat_run_snoc (events : list ChatEvent) (e : ChatEvent) :
  chat_run (events ++ [e]) = chat_step (chat_run events) e.
Proof. unfold chat_run. now rewrite fold_left_app. Qed.


Lemma trimStart_head (s : JsString) :
  match trimStart s with c :: _ => is_space c = false | [] => True end.
Proof.
  induction s as [|c s IH]; cbn [trimStart]; [exact I|].
  destruct (is_space c) eqn:Es; [exact IH|exact Es].
Qed.

Lemma not_blank_trimStart (s : JsString) :
  is_blank s = false -> trimStart s <> [].
Proof.
  unfold is_blank, trim, trimEnd. intros B E. now rewrite E in B.
Qed.

(** X24. No bubble of the transcript is empty or starts with white space:
    a bubble is opened only by a transcription with something other than
    white space left after cleaning, with the white space before it cut. *)
Theorem bubbles_start_with_text (events : list ChatEvent) :
  Forall starts_with_text (chat_run events).
Proof.
  induction events as [|e events IH] using rev_ind; [constructor|].
  rewrite chat_run_snoc.
  destruct e as [now_id now_ts text0 isUser isFinal|]; [|constructor].
  cbn [chat_step].
  destruct (onTranscript_cases now_id now_ts text0 isUser isFinal
              (chat_run events)) as [-> | [(before & m & E & R & ->) | (B & L & ->)]].
  - exact IH.
  - rewrite E in IH. apply Forall_app in IH as [Hb Hm].
    apply Forall_app. split; [exact Hb|].
    constructor; [|constructor]. apply Forall_inv in Hm.
    unfold starts_with_text, add_text in *. cbn [text].
    destruct (text m); [contradiction|exact Hm].
  - apply Forall_app. split; [exact IH|]. constructor; [|constructor].
    unfold starts_with_text. cbn [text].
    pose proof (trimStart_head (cleanTranscriptText text0)) as H.
    pose proof (not_blank_trimStart _ B) as N0.
    destruct (trimStart (cleanTranscriptText text0)); [now elim N0|exact H].
Qed.

Lemma extends_refl (m : ChatMessage) : extends m m.
Proof. repeat split. exists []. now rewrite app_nil_r. Qed.

(** X25. A transcription changes the transcript only at its end: the
    bubbles before the last stay as they are, the last one keeps its
    identity and speaker and can only gain text, and at most one bubble is
    added. *)
Theorem transcription_only_grows_the_end (now_id now_ts : Z)
    (text0 : JsString) (isUser isFinal : bool)
    (before : list ChatMessage) (m : ChatMessage) :
  exists m' added,
    onTranscript now_id now_ts text0 isUser isFinal (before ++ [m])
    = before ++ m' :: added
    /\ extends m m' /\ (List.length added <= 1)%nat
    /\ Forall (fun a => role a <> role m /\ isFinal = Chat.isFinal a
                        /\ id a = now_id /\ timestamp a = now_ts) added.
Proof.
  destruct (onTranscript_cases now_id now_ts text0 isUser isFinal
              (before ++ [m])) as [-> | [(b & x & E & R & ->) | (B & L & ->)]].
  - exists m, []. repeat split; auto using extends_refl.
    exists []. now rewrite app_nil_r.
  - apply app_inj_tail in E as [<- <-].
    exists (add_text m (cleanTranscriptText text0)), [].
    repeat split; auto. now exists (cleanTranscriptText text0).
  - exists m. eexists [_]. rewrite <- app_assoc. cbn [List.app].
    repeat split; auto.
    + exists []. now rewrite app_nil_r.
    + constructor; [|constructor]. cbn [role Chat.isFinal id timestamp].
      repeat split. intros E. apply (L m (last_message_snoc before m)).
      now rewrite E.
Qed.

Lemma clean_trimStart (s : JsString) :
  Forall (fun c => is_clean c = true) s ->
  Forall (fun c => is_clean c = true) (trimStart s).
Proof.
  induction 1 as [|c s Hc Hs IH]; cbn [trimStart]; [constructor|].
  destruct (is_space c); [exact IH|now constructor].
Qed.

(** X26. Every code unit of every bubble went through the cleaning: the
    transcript never shows an angle bracket, a control character or a
    code unit outside the ranges kept, whatever the transcriptions hold. *)
Theorem bubbles_hold_only_cleaned_text (events : list ChatEvent) :
  Forall (fun m => Forall (fun c => is_clean c = true) (text m))
    (chat_run events).
Proof.
  induction events as [|e events IH] using rev_ind; [constructor|].
  rewrite chat_run_snoc.
  destruct e as [now_id now_ts text0 isUser isFinal|]; [|constructor].
  cbn [chat_step].
  destruct (onTranscript_cases now_id now_ts text0 isUser isFinal
              (chat_run events)) as [-> | [(before & m & E & R & ->) | (B & L & ->)]].
  - exact IH.
  - rewrite E in IH. apply Forall_app in IH as [Hb Hm].
    apply Forall_app. split; [exact Hb|].
    constructor; [|constructor]. apply Forall_inv in Hm.
    cbn [add_text text]. apply Forall_app. split; [exact Hm|].
    apply cleaned_is_clean.
  - apply Forall_app. split; [exact IH|]. constructor; [|constructor].
    cbn [text]. apply clean_trimStart, cleaned_is_clean.
Qed.

End ChatFacts.
